(** * Structured matrices of [mici.matrices]: a shallow embedding

    The development follows [src/mici/matrices.py].  It has two layers.

    - An algebraic layer ([LowRankUpdate], [LUFactored]) in which the dense
      arrays held by a matrix object are MathComp matrices over an ordered
      field [F], standing for NumPy's floating point arrays in exact
      arithmetic.  It carries the identities behind the low-rank update
      family (Woodbury, matrix determinant lemma) and the rescaling of a
      packed pivoted LU factorisation.
    - An object layer ([Objects]) in which a matrix object is a value of an
      inductive type with one constructor per concrete class, shapes are
      pairs of optional sizes, Python exceptions are an error result, and
      every method of the source used by the properties below
      ([__matmul__], [T], [inv], [_scalar_multiply], [array], ...) is a
      function on these values. *)

From HB Require Import structures.
From mathcomp Require Import boot order algebra.

Set Implicit Arguments.
Unset Strict Implicit.
Unset Printing Implicit Defensive.

Import GRing.Theory Num.Theory Order.POrderTheory.
Local Open Scope ring_scope.

(** ** Logarithms in exact arithmetic

    [log_abs_det] returns [np.log(np.abs(...))] values and adds them.  A
    logarithm is kept here through its argument: [np_log x] stands for
    [log x] with [0 < x], the sum of two logarithms is the logarithm of the
    product, and two logarithms are equal exactly when their arguments are
    ([log] is injective on the positive numbers). *)

Section Logarithm.
Variable F : realFieldType.

Record logarithm := np_log { log_arg : F }.

Definition log_add (a b : logarithm) : logarithm :=
  np_log (log_arg a * log_arg b).

Definition log_neg (a : logarithm) : logarithm := np_log (log_arg a)^-1.

Definition log_zero : logarithm := np_log 1.

Lemma np_log_inj : injective np_log.
Proof. by move=> x y []. Qed.

Lemma log_addA : associative log_add.
Proof. by move=> [a] [b] [c]; rewrite /log_add /= mulrA. Qed.

End Logarithm.

Arguments log_zero {F}.

(** ** Low-rank updates, algebraic layer

    [SquareLowRankUpdateMatrix] (source lines 1588-1724) with its constituent
    matrix objects read as the matrices they represent: a constituent's
    [.inv] is its exact inverse [invmx], [@] between constituents is the
    matrix product, [.array] is the matrix itself, and a constituent's
    [log_abs_det] is [log |det|]. *)

Module LowRankUpdate.
Section LowRankUpdate.
Variable F : realFieldType.
Variables dim_outer dim_inner : nat.

Record SquareLowRankUpdateMatrix := Build {
  left_factor_matrix : 'M[F]_(dim_outer, dim_inner);
  right_factor_matrix : 'M[F]_(dim_inner, dim_outer);
  square_matrix : 'M[F]_dim_outer;
  inner_square_matrix : 'M[F]_dim_inner;
  _capacitance_matrix : option 'M[F]_dim_inner;
  _sign : F }.

Notation lowrank := SquareLowRankUpdateMatrix.

(** [log_abs_det] of a dense constituent. *)
Definition dense_log_abs_det (m : nat) (A : 'M[F]_m) : logarithm F :=
  np_log `|\det A|.

(** Source lines 1687-1694: the memoised property; the cached value is used
    when there is one. *)
Definition capacitance_matrix (M : lowrank) : 'M[F]_dim_inner :=
  if _capacitance_matrix M is Some cap then cap
  else invmx (inner_square_matrix M) +
       right_factor_matrix M *m
         (invmx (square_matrix M) *m left_factor_matrix M).

(** Source lines 1664-1667; [self._sign * self.left_factor_matrix @ (...)]
    parses as [(sign * L) @ (...)]. *)
Definition _left_matrix_multiply (M : lowrank) (m : nat)
    (other : 'M[F]_(dim_outer, m)) : 'M[F]_(dim_outer, m) :=
  square_matrix M *m other +
  (_sign M *: left_factor_matrix M) *m
    (inner_square_matrix M *m (right_factor_matrix M *m other)).

(** Source lines 1682-1685. *)
Definition _construct_array (M : lowrank) : 'M[F]_dim_outer :=
  square_matrix M +
  (_sign M *: left_factor_matrix M) *m
    (inner_square_matrix M *m right_factor_matrix M).

(** Source lines 1711-1717: the arguments of [type(self)(...)] in the order
    left factor, right factor, square matrix, inner square matrix,
    capacitance matrix, sign. *)
Definition inv (M : lowrank) : lowrank :=
  Build (invmx (square_matrix M) *m left_factor_matrix M)
        (right_factor_matrix M *m invmx (square_matrix M))
        (invmx (square_matrix M))
        (invmx (capacitance_matrix M))
        (Some (invmx (inner_square_matrix M)))
        (- _sign M).

(** Source lines 1719-1724. *)
Definition log_abs_det (M : lowrank) : logarithm F :=
  log_add
    (log_add (dense_log_abs_det (square_matrix M))
             (dense_log_abs_det (inner_square_matrix M)))
    (dense_log_abs_det (capacitance_matrix M)).

(** The capacitance matrix of the documentation,
    [K^-1 + R S^-1 L], whatever is cached. *)
Definition Cap (M : lowrank) : 'M[F]_dim_inner :=
  invmx (inner_square_matrix M) +
  right_factor_matrix M *m (invmx (square_matrix M) *m left_factor_matrix M).

(** A cache, when present, holds the documented value. *)
Definition cache_ok (M : lowrank) : Prop :=
  forall cap, _capacitance_matrix M = Some cap -> cap = Cap M.

Lemma capacitance_matrixE (M : lowrank) :
  cache_ok M -> capacitance_matrix M = Cap M.
Proof.
rewrite /cache_ok /capacitance_matrix.
by case: (_capacitance_matrix M) => [cap /(_ cap erefl)|].
Qed.

Lemma _left_matrix_multiplyE (M : lowrank) m (x : 'M[F]_(dim_outer, m)) :
  _left_matrix_multiply M x = _construct_array M *m x.
Proof.
by rewrite /_left_matrix_multiply /_construct_array mulmxDl -!mulmxA.
Qed.

(** What the object returned by [inv] represents. *)
Lemma inv_represents (M : lowrank) :
  _construct_array (inv M) =
  invmx (square_matrix M) -
  _sign M *: (invmx (square_matrix M) *m left_factor_matrix M *m
              invmx (capacitance_matrix M) *m
              right_factor_matrix M *m invmx (square_matrix M)).
Proof.
rewrite /_construct_array /inv /=; congr (_ + _).
by rewrite scaleNr mulNmx -scalemxAl !mulmxA.
Qed.


(** Woodbury identity for an update ([sign = 1]). *)
Lemma woodbury_update (M : lowrank) :
  _sign M = 1 -> cache_ok M ->
  square_matrix M \in unitmx -> inner_square_matrix M \in unitmx ->
  Cap M \in unitmx ->
  _construct_array M *m _construct_array (inv M) = 1%:M.
Proof.
move=> sg ok uS uK uC; rewrite inv_represents capacitance_matrixE //.
rewrite /_construct_array sg !scale1r.
set S := square_matrix M; set L := left_factor_matrix M.
set K := inner_square_matrix M; set R := right_factor_matrix M.
have CE : R *m (invmx S *m L) = Cap M - invmx K by rewrite /Cap addrC addKr.
rewrite mulmxBr !mulmxDl mulmxV // -!mulmxA mulKVmx //.
rewrite (mulmxA (invmx S) L) (mulmxA R (invmx S *m L)) CE mulmxBl.
rewrite mulKVmx // !mulmxBr mulKVmx //.
by rewrite [X in _ - X]addrC subrK addrK.
Qed.

(** X1: for an update ([sign = 1]) whose square matrix, inner matrix and
    capacitance matrix are invertible, the object returned by [inv]
    multiplies as the inverse does: [M @ (M.inv @ x) = x]. *)
Theorem inv_update_cancels (M : lowrank) m (x : 'M[F]_(dim_outer, m)) :
  _sign M = 1 -> cache_ok M ->
  square_matrix M \in unitmx -> inner_square_matrix M \in unitmx ->
  Cap M \in unitmx ->
  _left_matrix_multiply M (_left_matrix_multiply (inv M) x) = x.
Proof.
move=> sg ok uS uK uC.
by rewrite !_left_matrix_multiplyE mulmxA woodbury_update // mul1mx.
Qed.



End LowRankUpdate.

(** A downdate of dimension one over the rationals:
    [S = (2)], [L = R = K = (1)], [sign = -1], no cached capacitance, which
    represents [2 - 1*1*1 = 1]. *)
Definition downdate : SquareLowRankUpdateMatrix rat 1 1 :=
  Build 1%:M 1%:M 2%:M 1%:M None (-1).

Ltac scalar11 :=
  do ?[progress (rewrite /= ?invmx_scalar ?invmx1 ?mulmx1 ?mul1mx
                         ?scale_scalar_mx -?scalar_mxM -?raddfN -?raddfD /=)].

Lemma scalar11_unit (a : rat) : a != 0 -> (a%:M : 'M[rat]_1) \in unitmx.
Proof. by move=> a0; rewrite unitmxE det_scalar1 unitfE. Qed.

Lemma downdate_array : _construct_array downdate = 1%:M.
Proof. by rewrite /_construct_array; scalar11; congr (_%:M). Qed.

Lemma downdate_Cap : Cap downdate = (3 / 2)%:M.
Proof. by rewrite /Cap; scalar11; congr (_%:M). Qed.

Lemma downdate_inv_array : _construct_array (inv downdate) = (2 / 3)%:M.
Proof.
by rewrite /_construct_array /inv /capacitance_matrix; scalar11; congr (_%:M).
Qed.

(** The update [2 + 1*1*1] of dimension one, for which [inv] and
    [log_abs_det] are right. *)
Definition update : SquareLowRankUpdateMatrix rat 1 1 :=
  Build 1%:M 1%:M 2%:M 1%:M None 1.

Lemma update_Cap : Cap update = (3 / 2)%:M.
Proof. by rewrite /Cap; scalar11; congr (_%:M). Qed.

Lemma update_cache_ok : cache_ok update.
Proof. by move=> cap. Qed.

Lemma inv_update_cancels_witness :
  [/\ _sign update = 1, cache_ok update,
      [/\ square_matrix update \in unitmx,
          inner_square_matrix update \in unitmx & Cap update \in unitmx] &
      _left_matrix_multiply update
        (_left_matrix_multiply (inv update) (1%:M : 'M[rat]_1)) = 1%:M].
Proof.
have uS : square_matrix update \in unitmx by exact: scalar11_unit.
have uK : inner_square_matrix update \in unitmx by exact: scalar11_unit.
have uC : Cap update \in unitmx by rewrite update_Cap; exact: scalar11_unit.
split; [by [] | exact: update_cache_ok | by split |].
exact: (@inv_update_cancels _ _ _ update _ _ (erefl _) update_cache_ok
          uS uK uC).
Defined.


End LowRankUpdate.
(** ** Packed pivoted LU factorisations, algebraic layer

    [DenseSquareMatrix] and [InverseLUFactoredSquareMatrix] (source lines
    965-1077) keep a factorisation in the format of [scipy.linalg.lu_factor]:
    a square array [lu] that packs the strict lower triangle of the unit
    lower factor and the upper factor, and the pivot indices [piv], row [i]
    having been interchanged with row [piv[i]]. *)

Module LUFactored.
Section LUFactored.
Variable F : realFieldType.
Variable n : nat.

Definition lu_and_piv : Type := ('M[F]_n * seq nat)%type.

(** [np.triu]: the entries on and above the diagonal. *)
Definition np_triu (A : 'M[F]_n) : 'M[F]_n :=
  \matrix_(i, j) (if (i <= j)%N then A i j else 0).








Record DenseSquareMatrix := BuildDense {
  _array : 'M[F]_n;
  _lu_and_piv : option lu_and_piv;
  _lu_transposed : option bool }.

(** Source lines 987-995. *)
Definition _scalar_multiply (self : DenseSquareMatrix) (scalar : F) :
    DenseSquareMatrix :=
  match _lu_and_piv self, _lu_transposed self with
  | Some (old_lu, piv), Some transposed =>
      let new_lu := old_lu + (scalar - 1) *: np_triu old_lu in
      BuildDense (scalar *: _array self) (Some (new_lu, piv)) (Some transposed)
  | _, _ => BuildDense (scalar *: _array self) None None
  end.


Record InverseLUFactoredSquareMatrix := BuildInverse {
  _inv_array : 'M[F]_n;
  _inv_lu_and_piv : lu_and_piv;
  _inv_lu_transposed : bool }.







End LUFactored.
End LUFactored.

(** ** Object layer *)

Module Objects.

(** *** Exceptions *)

Inductive exception :=
  | ValueError | RuntimeError | NotImplementedError | AttributeError
  | TypeError | IndexError | AssertionError | LinAlgError | RecursionError.

Inductive result (A : Type) := Ok (a : A) | Raise (e : exception).
Arguments Ok {A} a.
Arguments Raise {A} e.

Definition bind {A B : Type} (r : result A) (k : A -> result B) : result B :=
  match r with Ok a => k a | Raise e => Raise e end.

Notation "x <- r ;; k" := (bind r (fun x => k))
  (at level 100, r at next level, right associativity).
Notation "' p <- r ;; k" := (bind r (fun x => let: p := x in k))
  (at level 100, p pattern, r at next level, right associativity).

(** [[f(x) for x in xs]] stops at the first exception; [mapM_rev] is the
    same over [reversed(xs)]. *)
Section MapM.
Variables (A B : Type) (f : A -> result B).

Fixpoint mapM (xs : seq A) : result (seq B) :=
  match xs with
  | [::] => Ok [::]
  | x :: xs' => y <- f x ;; ys <- mapM xs' ;; Ok (y :: ys)
  end.

Fixpoint mapM_rev (xs : seq A) : result (seq B) :=
  match xs with
  | [::] => Ok [::]
  | x :: xs' => ys <- mapM_rev xs' ;; y <- f x ;; Ok (rcons ys y)
  end.

End MapM.

Definition omapM {A B : Type} (f : A -> result B) (x : option A) :
    result (option B) :=
  match x with
  | None => Ok None
  | Some a => b <- f a ;; Ok (Some b)
  end.

Definition raises {A : Type} (r : result A) : bool :=
  if r is Raise _ then true else false.

Definition returns {A : Type} (r : result A) : bool := ~~ raises r.

Lemma bind_Ok {A B : Type} (r : result A) (k : A -> result B) (b : B) :
  bind r k = Ok b -> exists2 a, r = Ok a & k a = Ok b.
Proof. by case: r => [a|e] //= kb; exists a. Qed.

(** *** Arrays

    A two-dimensional NumPy array is a matrix together with its two
    dimensions; a one-dimensional array is a sequence. *)

Section Arrays.
Variable F : realFieldType.

Record ndarray := NdArray {
  nrows : nat;
  ncols : nat;
  mx_of : 'M[F]_(nrows, ncols) }.

Definition vector : Type := seq F.

(** Entry [a[i, j]], zero outside the array, and the array with given
    entries. *)
Definition get (a : ndarray) (i j : nat) : F :=
  match insub i, insub j with
  | Some i', Some j' => mx_of a i' j'
  | _, _ => 0
  end.

Definition mk (m n : nat) (f : nat -> nat -> F) : ndarray :=
  NdArray (\matrix_(i < m, j < n) f i j).

(** [a.T], [c * a], [a / c]. *)
Definition np_T (a : ndarray) : ndarray := NdArray (mx_of a)^T.

Definition np_scale (c : F) (a : ndarray) : ndarray := NdArray (c *: mx_of a).

Definition np_divide (a : ndarray) (c : F) : ndarray :=
  mk (nrows a) (ncols a) (fun i j => get a i j / c).

(** [a @ b] on two arrays. *)
Definition np_matmul (a b : ndarray) : result ndarray :=
  if ncols a == nrows b then
    Ok (mk (nrows a) (ncols b)
           (fun i j => \sum_(k < ncols a) get a i k * get b k j))
  else Raise ValueError.

(** [a + b] and [a - b] on arrays of one shape (broadcasting is left
    out: arrays of different shapes raise). *)
Definition np_add (a b : ndarray) : result ndarray :=
  if (nrows a == nrows b) && (ncols a == ncols b) then
    Ok (mk (nrows a) (ncols a) (fun i j => get a i j + get b i j))
  else Raise ValueError.

Definition np_subtract (a b : ndarray) : result ndarray :=
  if (nrows a == nrows b) && (ncols a == ncols b) then
    Ok (mk (nrows a) (ncols a) (fun i j => get a i j - get b i j))
  else Raise ValueError.

(** [d * c] and [1 / d] on a one-dimensional array. *)
Definition vec_scale (d : vector) (c : F) : vector := [seq x * c | x <- d].

Definition vec_inv (d : vector) : vector := [seq 1 / x | x <- d].

(** [a.diagonal()]. *)
Definition np_diagonal (a : ndarray) : vector :=
  [seq get a i i | i <- iota 0 (minn (nrows a) (ncols a))].

Definition np_identity (n : nat) : ndarray := NdArray (1%:M : 'M[F]_n).

Definition np_diag (d : vector) : ndarray :=
  mk (size d) (size d) (fun i j => if i == j then nth 0 d i else 0).

Definition np_tril (a : ndarray) : ndarray :=
  NdArray (\matrix_(i, j) (if (j <= i)%N then mx_of a i j else 0)).

Definition np_triu (a : ndarray) : ndarray :=
  NdArray (\matrix_(i, j) (if (i <= j)%N then mx_of a i j else 0)).

(** [d[:, None] * a] and [d * a] for a one-dimensional [d], with NumPy's
    broadcasting of an axis of length one. *)
Definition np_mul_rows (d : vector) (a : ndarray) : result ndarray :=
  if size d == nrows a then
    Ok (mk (nrows a) (ncols a) (fun i j => nth 0 d i * get a i j))
  else if size d == 1%N then
    Ok (mk (nrows a) (ncols a) (fun i j => nth 0 d 0 * get a i j))
  else if nrows a == 1%N then
    Ok (mk (size d) (ncols a) (fun i j => nth 0 d i * get a 0 j))
  else Raise ValueError.

Definition np_mul_cols (d : vector) (a : ndarray) : result ndarray :=
  if size d == ncols a then
    Ok (mk (nrows a) (ncols a) (fun i j => nth 0 d j * get a i j))
  else if size d == 1%N then
    Ok (mk (nrows a) (ncols a) (fun i j => nth 0 d 0 * get a i j))
  else if ncols a == 1%N then
    Ok (mk (nrows a) (size d) (fun i j => nth 0 d j * get a i 0))
  else Raise ValueError.

(** [np.concatenate] of a list of arrays along the rows ([axis=0]) or the
    columns ([axis=1] or [-1]). *)
Definition vstack (a b : ndarray) : result ndarray :=
  if ncols a == ncols b then
    Ok (mk (nrows a + nrows b) (ncols a)
           (fun i j => if (i < nrows a)%N then get a i j
                       else get b (i - nrows a) j))
  else Raise ValueError.

Definition hstack (a b : ndarray) : result ndarray :=
  if nrows a == nrows b then
    Ok (mk (nrows a) (ncols a + ncols b)
           (fun i j => if (j < ncols a)%N then get a i j
                       else get b i (j - ncols a)))
  else Raise ValueError.

Fixpoint np_concatenate_from (stack : ndarray -> ndarray -> result ndarray)
    (a : ndarray) (rest : seq ndarray) : result ndarray :=
  match rest with
  | [::] => Ok a
  | b :: rest' => ab <- stack a b ;; np_concatenate_from stack ab rest'
  end.

Definition np_concatenate (axis0 : bool) (arrays : seq ndarray) :
    result ndarray :=
  match arrays with
  | [::] => Raise ValueError
  | a :: rest => np_concatenate_from (if axis0 then vstack else hstack) a rest
  end.

(** [np.split(a, splits, axis)]: the slices between consecutive split
    points, a slice being clipped to the array. *)
Definition rows_slice (a : ndarray) (lo hi : nat) : ndarray :=
  mk (minn hi (nrows a) - minn lo (nrows a)) (ncols a)
     (fun i j => get a (lo + i) j).

Definition cols_slice (a : ndarray) (lo hi : nat) : ndarray :=
  mk (nrows a) (minn hi (ncols a) - minn lo (ncols a))
     (fun i j => get a i (lo + j)).

Fixpoint np_split_from (slice : nat -> nat -> ndarray) (stop : nat)
    (lo : nat) (splits : seq nat) : seq ndarray :=
  match splits with
  | [::] => [:: slice lo stop]
  | hi :: splits' => slice lo hi :: np_split_from slice stop hi splits'
  end.

Definition np_split (a : ndarray) (splits : seq nat) (axis0 : bool) :
    seq ndarray :=
  if axis0 then np_split_from (rows_slice a) (nrows a) 0 splits
  else np_split_from (cols_slice a) (ncols a) 0 splits.

(** [np.cumsum]. *)
Fixpoint np_cumsum_from (acc : nat) (xs : seq nat) : seq nat :=
  match xs with
  | [::] => [::]
  | x :: xs' => (acc + x)%N :: np_cumsum_from (acc + x)%N xs'
  end.

Definition np_cumsum (xs : seq nat) : seq nat := np_cumsum_from 0 xs.

(** [scipy.linalg.block_diag]; without arguments it returns an array of
    shape [(1, 0)]. *)
Definition block_diag2 (a b : ndarray) : ndarray :=
  mk (nrows a + nrows b) (ncols a + ncols b)
     (fun i j =>
        if (i < nrows a)%N then (if (j < ncols a)%N then get a i j else 0)
        else (if (j < ncols a)%N then 0
              else get b (i - nrows a) (j - ncols a))).

Definition block_diag (arrays : seq ndarray) : ndarray :=
  match arrays with
  | [::] => mk 1 0 (fun _ _ => 0)
  | a :: rest => foldl block_diag2 a rest
  end.

(** Python's [sum] of a non-empty list of arrays. *)
Fixpoint np_sum_from (a : ndarray) (rest : seq ndarray) : result ndarray :=
  match rest with
  | [::] => Ok a
  | b :: rest' => ab <- np_add a b ;; np_sum_from ab rest'
  end.

Lemma np_T_involutive (a : ndarray) : np_T (np_T a) = a.
Proof. by case: a => m n A; rewrite /np_T /= trmxK. Qed.

Lemma nrows_np_T (a : ndarray) : nrows (np_T a) = ncols a.
Proof. by []. Qed.

Lemma ncols_np_T (a : ndarray) : ncols (np_T a) = nrows a.
Proof. by []. Qed.

Lemma np_T_tril (a : ndarray) : np_T (np_tril a) = np_triu (np_T a).
Proof.
case: a => m n A; rewrite /np_T /np_tril /np_triu /=; congr NdArray.
by apply/matrixP => i j; rewrite !mxE.
Qed.

Lemma np_T_triu (a : ndarray) : np_T (np_triu a) = np_tril (np_T a).
Proof.
case: a => m n A; rewrite /np_T /np_tril /np_triu /=; congr NdArray.
by apply/matrixP => i j; rewrite !mxE.
Qed.

Lemma np_tril_idem (a : ndarray) : np_tril (np_tril a) = np_tril a.
Proof.
case: a => m n A; rewrite /np_tril /=; congr NdArray.
by apply/matrixP => i j; rewrite !mxE; case: (j <= i)%N.
Qed.

Lemma np_triu_idem (a : ndarray) : np_triu (np_triu a) = np_triu a.
Proof.
case: a => m n A; rewrite /np_triu /=; congr NdArray.
by apply/matrixP => i j; rewrite !mxE; case: (i <= j)%N.
Qed.

End Arrays.

(** *** The numeric backend

    Factorisations and solves are the external collaborator of the source
    ([numpy.linalg], [scipy.linalg]); they enter as a parameter.  A
    triangular solve takes the array, the right-hand side, [lower] and
    [trans]; an LU solve takes the packed factorisation, the right-hand side
    and [trans]. *)

Section Matrices.
Variable F : realFieldType.

Notation ndarray := (ndarray F).
Notation vector := (vector F).

Definition lu_and_piv : Type := (ndarray * seq nat)%type.

Record backend := Backend {
  cholesky : ndarray -> result ndarray;
  eigh : ndarray -> result (vector * ndarray);
  lu_factor : ndarray -> result lu_and_piv;
  lu_solve : lu_and_piv -> ndarray -> option bool -> result ndarray;
  solve_triangular : ndarray -> ndarray -> bool -> bool -> result ndarray;
  pow_half : F -> F;
  tanh : F -> F }.

Variable numeric : backend.

(** *** Matrix objects

    One constructor per concrete class, holding the attributes the class
    stores.  Classes that differ from a parent class only by overridden
    methods share its constructor and are told apart by a tag; the class
    names of the source are notations.  The shape is a function of the
    stored attributes ([shape] below), as it is set once by [__init__] from
    them.  The cache of an implicit dense array is not kept: [array]
    recomputes it. *)

Inductive structure_class := Square | Symmetric | PositiveDefinite.

Inductive eigen_class :=
  | EigSymmetric
  | EigPositiveDefinite
  | EigSoftAbs (_softabs_coeff : F) (unreg_eigval : vector).

Inductive Matrix :=
  | MatrixProduct (_matrices : seq Matrix)
  | IdentityMatrix (size : option nat)
  | ScaledIdentityMatrix_ (positive : bool) (_scalar : F) (size : option nat)
  | DiagonalMatrix_ (positive : bool) (_diagonal : vector)
  | TriangularMatrix (_array : ndarray) (lower : bool)
  | InverseTriangularMatrix (_inverse_array : ndarray) (lower : bool)
  | TriangularFactoredDefiniteMatrix_ (positive : bool) (_factor : Matrix)
      (_sign : F)
  | DenseDefiniteMatrix_ (positive : bool) (_array : ndarray)
      (_factor : option Matrix) (_sign : F)
  | DensePositiveDefiniteProductMatrix (_rect_matrix _pos_def_matrix : Matrix)
      (_array : ndarray) (_factor : option Matrix)
  | DenseSquareMatrix (_array : ndarray) (_lu_and_piv : option lu_and_piv)
      (_lu_transposed : option bool)
  | InverseLUFactoredSquareMatrix (_inv_array : ndarray)
      (_inv_lu_and_piv : lu_and_piv) (_inv_lu_transposed : option bool)
  | DenseSymmetricMatrix (_array : ndarray) (_eigvec : option Matrix)
      (_eigval : option vector)
  | OrthogonalMatrix (_array : ndarray)
  | ScaledOrthogonalMatrix (_scalar : F) (_orth_array : ndarray)
  | EigendecomposedMatrix_ (cls : eigen_class) (_eigvec : Matrix)
      (_eigval : vector)
  | BlockDiagonalMatrix_ (cls : structure_class) (_blocks : seq Matrix)
  | DenseRectangularMatrix (_array : ndarray)
  | BlockRowMatrix (_blocks : seq Matrix)
  | BlockColumnMatrix (_blocks : seq Matrix)
  | LowRankUpdateMatrix_ (cls : structure_class)
      (left_factor_matrix right_factor_matrix : Matrix)
      (square_matrix inner_square_matrix : Matrix)
      (_capacitance_matrix : option Matrix) (_sign : F).

Notation ScaledIdentityMatrix := (ScaledIdentityMatrix_ false).
Notation PositiveScaledIdentityMatrix := (ScaledIdentityMatrix_ true).
Notation DiagonalMatrix := (DiagonalMatrix_ false).
Notation PositiveDiagonalMatrix := (DiagonalMatrix_ true).
Notation TriangularFactoredDefiniteMatrix :=
  (TriangularFactoredDefiniteMatrix_ false).
Notation TriangularFactoredPositiveDefiniteMatrix :=
  (TriangularFactoredDefiniteMatrix_ true).
Notation DenseDefiniteMatrix := (DenseDefiniteMatrix_ false).
Notation DensePositiveDefiniteMatrix := (DenseDefiniteMatrix_ true).
Notation EigendecomposedSymmetricMatrix :=
  (EigendecomposedMatrix_ EigSymmetric).
Notation EigendecomposedPositiveDefiniteMatrix :=
  (EigendecomposedMatrix_ EigPositiveDefinite).
Notation SoftAbsRegularisedPositiveDefiniteMatrix coeff unreg :=
  (EigendecomposedMatrix_ (EigSoftAbs coeff unreg)).
Notation SquareBlockDiagonalMatrix := (BlockDiagonalMatrix_ Square).
Notation SymmetricBlockDiagonalMatrix := (BlockDiagonalMatrix_ Symmetric).
Notation PositiveDefiniteBlockDiagonalMatrix :=
  (BlockDiagonalMatrix_ PositiveDefinite).
Notation SquareLowRankUpdateMatrix := (LowRankUpdateMatrix_ Square).
Notation SymmetricLowRankUpdateMatrix := (LowRankUpdateMatrix_ Symmetric).
Notation PositiveDefiniteLowRankUpdateMatrix :=
  (LowRankUpdateMatrix_ PositiveDefinite).

(** Induction over matrix objects, through the sequences and options of
    constituents. *)
Section MatrixInd.
Variable P : Matrix -> Prop.

Definition Pseq (ms : seq Matrix) : Prop := foldr (fun m acc => P m /\ acc) True ms.
Definition Popt (m : option Matrix) : Prop := if m is Some m' then P m' else True.

Hypothesis HMatrixProduct : forall ms, Pseq ms -> P (MatrixProduct ms).
Hypothesis HIdentity : forall size, P (IdentityMatrix size).
Hypothesis HScaledIdentity : forall p c size, P (ScaledIdentityMatrix_ p c size).
Hypothesis HDiagonal : forall p d, P (DiagonalMatrix_ p d).
Hypothesis HTriangular : forall a l, P (TriangularMatrix a l).
Hypothesis HInverseTriangular : forall a l, P (InverseTriangularMatrix a l).
Hypothesis HTriangularFactored :
  forall p f s, P f -> P (TriangularFactoredDefiniteMatrix_ p f s).
Hypothesis HDenseDefinite :
  forall p a f s, Popt f -> P (DenseDefiniteMatrix_ p a f s).
Hypothesis HDenseProduct :
  forall r pd a f, P r -> P pd -> Popt f ->
  P (DensePositiveDefiniteProductMatrix r pd a f).
Hypothesis HDenseSquare : forall a lu t, P (DenseSquareMatrix a lu t).
Hypothesis HInverseLU : forall a lu t, P (InverseLUFactoredSquareMatrix a lu t).
Hypothesis HDenseSymmetric :
  forall a v e, Popt v -> P (DenseSymmetricMatrix a v e).
Hypothesis HOrthogonal : forall a, P (OrthogonalMatrix a).
Hypothesis HScaledOrthogonal : forall c a, P (ScaledOrthogonalMatrix c a).
Hypothesis HEigendecomposed :
  forall c v e, P v -> P (EigendecomposedMatrix_ c v e).
Hypothesis HBlockDiagonal : forall c bs, Pseq bs -> P (BlockDiagonalMatrix_ c bs).
Hypothesis HDenseRectangular : forall a, P (DenseRectangularMatrix a).
Hypothesis HBlockRow : forall bs, Pseq bs -> P (BlockRowMatrix bs).
Hypothesis HBlockColumn : forall bs, Pseq bs -> P (BlockColumnMatrix bs).
Hypothesis HLowRankUpdate :
  forall c L R Sq K cap s, P L -> P R -> P Sq -> P K -> Popt cap ->
  P (LowRankUpdateMatrix_ c L R Sq K cap s).

Fixpoint Matrix_induction (M : Matrix) : P M :=
  let all := fix all (ms : seq Matrix) : Pseq ms :=
    match ms with
    | [::] => I
    | m :: ms' => conj (Matrix_induction m) (all ms')
    end in
  let opt := fun (m : option Matrix) =>
    match m return Popt m with
    | None => I
    | Some m' => Matrix_induction m'
    end in
  match M with
  | MatrixProduct ms => HMatrixProduct (all ms)
  | IdentityMatrix size => HIdentity size
  | ScaledIdentityMatrix_ p c size => HScaledIdentity p c size
  | DiagonalMatrix_ p d => HDiagonal p d
  | TriangularMatrix a l => HTriangular a l
  | InverseTriangularMatrix a l => HInverseTriangular a l
  | TriangularFactoredDefiniteMatrix_ p f s =>
      HTriangularFactored p s (Matrix_induction f)
  | DenseDefiniteMatrix_ p a f s => HDenseDefinite p a s (opt f)
  | DensePositiveDefiniteProductMatrix r pd a f =>
      HDenseProduct a (Matrix_induction r) (Matrix_induction pd) (opt f)
  | DenseSquareMatrix a lu t => HDenseSquare a lu t
  | InverseLUFactoredSquareMatrix a lu t => HInverseLU a lu t
  | DenseSymmetricMatrix a v e => HDenseSymmetric a e (opt v)
  | OrthogonalMatrix a => HOrthogonal a
  | ScaledOrthogonalMatrix c a => HScaledOrthogonal c a
  | EigendecomposedMatrix_ c v e => HEigendecomposed c e (Matrix_induction v)
  | BlockDiagonalMatrix_ c bs => HBlockDiagonal c (all bs)
  | DenseRectangularMatrix a => HDenseRectangular a
  | BlockRowMatrix bs => HBlockRow (all bs)
  | BlockColumnMatrix bs => HBlockColumn (all bs)
  | LowRankUpdateMatrix_ c L R Sq K cap s =>
      HLowRankUpdate c s (Matrix_induction L) (Matrix_induction R)
        (Matrix_induction Sq) (Matrix_induction K) (opt cap)
  end.

End MatrixInd.

(** *** Shapes and classes *)

Definition shape_t : Type := (option nat * option nat)%type.

(** Python's [sum] of a tuple of sizes: a [None] among them is a
    [TypeError], which [None] stands for here. *)
Definition sum_sizes (sizes : seq (option nat)) : option nat :=
  foldr (fun s acc => if s is Some n then omap (addn n) acc else None)
        (Some 0%N) sizes.

Definition array_shape (a : ndarray) : shape_t :=
  (Some (nrows a), Some (ncols a)).

Definition square_shape (a : ndarray) : shape_t :=
  (Some (nrows a), Some (nrows a)).

Fixpoint shape (self : Matrix) : shape_t :=
  match self with
  | MatrixProduct ms =>
      let shapes := map shape ms in
      ((head (None, None) shapes).1, (last (None, None) shapes).2)
  | IdentityMatrix size => (size, size)
  | ScaledIdentityMatrix_ _ _ size => (size, size)
  | DiagonalMatrix_ _ d => (Some (size d), Some (size d))
  | TriangularMatrix a _ => square_shape a
  | InverseTriangularMatrix a _ => square_shape a
  | TriangularFactoredDefiniteMatrix_ _ f _ => ((shape f).1, (shape f).1)
  | DenseDefiniteMatrix_ _ a _ _ => square_shape a
  | DensePositiveDefiniteProductMatrix _ _ a _ => square_shape a
  | DenseSquareMatrix a _ _ => square_shape a
  | InverseLUFactoredSquareMatrix a _ _ => square_shape a
  | DenseSymmetricMatrix a _ _ => square_shape a
  | OrthogonalMatrix a => square_shape a
  | ScaledOrthogonalMatrix _ a => square_shape a
  | EigendecomposedMatrix_ _ v _ => ((shape v).1, (shape v).1)
  | BlockDiagonalMatrix_ _ bs =>
      let size := sum_sizes [seq s.1 | s <- map shape bs] in (size, size)
  | DenseRectangularMatrix a => array_shape a
  | BlockRowMatrix bs =>
      let shapes := map shape bs in
      ((head (None, None) shapes).1, sum_sizes [seq s.2 | s <- shapes])
  | BlockColumnMatrix bs =>
      let shapes := map shape bs in
      (sum_sizes [seq s.1 | s <- shapes], (head (None, None) shapes).2)
  | LowRankUpdateMatrix_ _ L _ _ _ _ _ => ((shape L).1, (shape L).1)
  end.

(** [isinstance] tests, from the class hierarchy of the source. *)
Definition is_MatrixProduct (M : Matrix) : bool :=
  if M is MatrixProduct _ then true else false.

Definition is_triangular (M : Matrix) : bool :=
  match M with
  | TriangularMatrix _ _ | InverseTriangularMatrix _ _ => true
  | _ => false
  end.

Definition is_SquareMatrix (M : Matrix) : bool :=
  match M with
  | MatrixProduct _ | DenseRectangularMatrix _
  | BlockRowMatrix _ | BlockColumnMatrix _ => false
  | _ => true
  end.

Definition is_SymmetricMatrix (M : Matrix) : bool :=
  match M with
  | IdentityMatrix _ | ScaledIdentityMatrix_ _ _ _ | DiagonalMatrix_ _ _
  | TriangularFactoredDefiniteMatrix_ _ _ _ | DenseDefiniteMatrix_ _ _ _ _
  | DensePositiveDefiniteProductMatrix _ _ _ _ | DenseSymmetricMatrix _ _ _
  | EigendecomposedMatrix_ _ _ _ => true
  | BlockDiagonalMatrix_ PositiveDefinite _ => true
  | LowRankUpdateMatrix_ Symmetric _ _ _ _ _ _
  | LowRankUpdateMatrix_ PositiveDefinite _ _ _ _ _ _ => true
  | _ => false
  end.

Definition is_PositiveDefiniteMatrix (M : Matrix) : bool :=
  match M with
  | IdentityMatrix _ | ScaledIdentityMatrix_ true _ _ | DiagonalMatrix_ true _
  | TriangularFactoredDefiniteMatrix_ true _ _
  | DenseDefiniteMatrix_ true _ _ _
  | DensePositiveDefiniteProductMatrix _ _ _ _ => true
  | EigendecomposedMatrix_ EigPositiveDefinite _ _
  | EigendecomposedMatrix_ (EigSoftAbs _ _) _ _ => true
  | BlockDiagonalMatrix_ PositiveDefinite _ => true
  | LowRankUpdateMatrix_ PositiveDefinite _ _ _ _ _ _ => true
  | _ => false
  end.

(** Python truth of [not x] for a flag that may be [None]. *)
Definition py_not (x : option bool) : bool :=
  if x is Some b then ~~ b else true.

(** *** Object identity

    A method returns either the object it was invoked on ([return self]) or
    an object it has just constructed; a constructor call always allocates a
    new object.  For a result [r] of a method of [self], the Python test
    [r is self] is [is_self r]. *)

Inductive returned := Self | New (M : Matrix).

Definition object (self : Matrix) (r : returned) : Matrix :=
  if r is New M then M else self.

Definition is_self (r : returned) : bool :=
  if r is Self then true else false.

Definition is_new (r : returned) : bool := ~~ is_self r.

Definition new (r : result Matrix) : result returned :=
  M <- r ;; Ok (New M).

(** *** Constructors ([__init__])

    A constructor of a parent class that is run through [super().__init__]
    takes the class of the object under construction as its first
    argument. *)

Definition MatrixProduct_init (matrices : seq Matrix) : result Matrix :=
  if matrices is [::] then Raise IndexError else Ok (MatrixProduct matrices).

Definition ScaledIdentityMatrix_init_ (positive : bool) (scalar : F)
    (size : option nat) : result Matrix :=
  if scalar == 0 then Raise ValueError
  else Ok (ScaledIdentityMatrix_ positive scalar size).

Definition ScaledIdentityMatrix_init := ScaledIdentityMatrix_init_ false.

Definition PositiveScaledIdentityMatrix_init (scalar : F) (size : option nat) :
    result Matrix :=
  if scalar <= 0 then Raise ValueError
  else ScaledIdentityMatrix_init_ true scalar size.

Definition DiagonalMatrix_init_ (positive : bool) (diagonal : vector) :
    result Matrix :=
  Ok (DiagonalMatrix_ positive diagonal).

Definition DiagonalMatrix_init := DiagonalMatrix_init_ false.

Definition PositiveDiagonalMatrix_init (diagonal : vector) : result Matrix :=
  if ~~ all (fun x => 0 < x) diagonal then Raise ValueError
  else DiagonalMatrix_init_ true diagonal.

Definition TriangularMatrix_init (array : ndarray) (lower : bool) :
    result Matrix :=
  Ok (TriangularMatrix (if lower then np_tril array else np_triu array) lower).

(** The [factor] argument of the triangular-factored classes is an array
    or a [TriangularMatrix] / [InverseTriangularMatrix]; a matrix object of
    another class together with a boolean [factor_is_lower] is outside the
    documented argument type and raises [TypeError] here. *)
Inductive factor_arg := FactorArray (a : ndarray) | FactorMatrix (M : Matrix).

Definition sign_is_unit (sign : F) : bool := (sign == 1) || (sign == -1).

Definition TriangularFactoredDefiniteMatrix_init_ (positive : bool)
    (factor : factor_arg) (sign : F) (factor_is_lower : option bool) :
    result Matrix :=
  factor' <-
    match factor with
    | FactorMatrix M =>
        if is_triangular M then Ok M
        else if factor_is_lower is Some _ then Raise TypeError
        else Raise ValueError
    | FactorArray a =>
        if factor_is_lower is Some lower then TriangularMatrix_init a lower
        else Raise ValueError
    end ;;
  if ~~ sign_is_unit sign then Raise ValueError
  else Ok (TriangularFactoredDefiniteMatrix_ positive factor' sign).

Definition TriangularFactoredDefiniteMatrix_init (factor : factor_arg)
    (sign : F) (factor_is_lower : option bool) : result Matrix :=
  TriangularFactoredDefiniteMatrix_init_ false factor sign factor_is_lower.

Definition TriangularFactoredPositiveDefiniteMatrix_init (factor : factor_arg)
    (factor_is_lower : bool) : result Matrix :=
  TriangularFactoredDefiniteMatrix_init_ true factor 1 (Some factor_is_lower).

Definition DenseDefiniteMatrix_init_ (positive : bool) (array : ndarray)
    (factor : option Matrix) (is_posdef : bool) : result Matrix :=
  let sign : F := if is_posdef then 1 else -1 in
  if ~~ sign_is_unit sign then Raise ValueError
  else Ok (DenseDefiniteMatrix_ positive array factor sign).

Definition DenseDefiniteMatrix_init := DenseDefiniteMatrix_init_ false.

Definition DensePositiveDefiniteMatrix_init (array : ndarray)
    (factor : option Matrix) : result Matrix :=
  DenseDefiniteMatrix_init_ true array factor true.

Definition DenseSymmetricMatrix_init (array : ndarray)
    (eigvec : option Matrix) (eigval : option vector) : result Matrix :=
  Ok (DenseSymmetricMatrix array eigvec eigval).

(** [self.diag_eigval], set by the constructor from the eigenvalues. *)
Definition diag_eigval_init (eigval : vector) : result Matrix :=
  if size eigval == 1%N then ScaledIdentityMatrix_init (nth 0 eigval 0) None
  else DiagonalMatrix_init eigval.

Definition EigendecomposedSymmetricMatrix_init_ (cls : eigen_class)
    (eigvec : Matrix) (eigval : vector) : result Matrix :=
  _ <- diag_eigval_init eigval ;;
  Ok (EigendecomposedMatrix_ cls eigvec eigval).

Definition EigendecomposedSymmetricMatrix_init :=
  EigendecomposedSymmetricMatrix_init_ EigSymmetric.

Definition EigendecomposedPositiveDefiniteMatrix_init_ (cls : eigen_class)
    (eigvec : Matrix) (eigval : vector) : result Matrix :=
  if ~~ all (fun x => 0 < x) eigval then Raise ValueError
  else EigendecomposedSymmetricMatrix_init_ cls eigvec eigval.

Definition EigendecomposedPositiveDefiniteMatrix_init :=
  EigendecomposedPositiveDefiniteMatrix_init_ EigPositiveDefinite.

Definition softabs (softabs_coeff : F) (x : F) : F :=
  x / tanh numeric (x * softabs_coeff).

Definition SoftAbsRegularisedPositiveDefiniteMatrix_init
    (symmetric_array : ndarray) (softabs_coeff : F) : result Matrix :=
  if softabs_coeff <= 0 then Raise ValueError
  else
    ' (unreg_eigval, eigvec) <- eigh numeric symmetric_array ;;
    let eigval := map (softabs softabs_coeff) unreg_eigval in
    EigendecomposedPositiveDefiniteMatrix_init_
      (EigSoftAbs softabs_coeff unreg_eigval) (OrthogonalMatrix eigvec) eigval.

Definition SquareBlockDiagonalMatrix_init_ (cls : structure_class)
    (blocks : seq Matrix) : result Matrix :=
  if ~~ all is_SquareMatrix blocks then Raise ValueError
  else if sum_sizes [seq (shape b).1 | b <- blocks] is Some _
  then Ok (BlockDiagonalMatrix_ cls blocks)
  else Raise TypeError.

Definition SquareBlockDiagonalMatrix_init :=
  SquareBlockDiagonalMatrix_init_ Square.

Definition SymmetricBlockDiagonalMatrix_init_ (cls : structure_class)
    (blocks : seq Matrix) : result Matrix :=
  if ~~ all is_SymmetricMatrix blocks then Raise ValueError
  else SquareBlockDiagonalMatrix_init_ cls blocks.

Definition SymmetricBlockDiagonalMatrix_init :=
  SymmetricBlockDiagonalMatrix_init_ Symmetric.

Definition PositiveDefiniteBlockDiagonalMatrix_init (blocks : seq Matrix) :
    result Matrix :=
  if ~~ all is_PositiveDefiniteMatrix blocks then Raise ValueError
  else SymmetricBlockDiagonalMatrix_init_ PositiveDefinite blocks.

Definition BlockRowMatrix_init (blocks : seq Matrix) : result Matrix :=
  if (1 < size (undup [seq (shape b).1 | b <- blocks]))%N
  then Raise ValueError
  else if blocks is [::] then Raise IndexError
  else if sum_sizes [seq (shape b).2 | b <- blocks] is Some _
  then Ok (BlockRowMatrix blocks)
  else Raise TypeError.

Definition BlockColumnMatrix_init (blocks : seq Matrix) : result Matrix :=
  if (1 < size (undup [seq (shape b).2 | b <- blocks]))%N
  then Raise ValueError
  else if sum_sizes [seq (shape b).1 | b <- blocks] is Some _
  then (if blocks is [::] then Raise IndexError
        else Ok (BlockColumnMatrix blocks))
  else Raise TypeError.

Definition DenseRectangularMatrix_init (array : ndarray) : result Matrix :=
  Ok (DenseRectangularMatrix array).

(** Source lines 1613-1662. *)
Definition SquareLowRankUpdateMatrix_init_ (cls : structure_class)
    (left_factor_matrix right_factor_matrix square_matrix : Matrix)
    (inner_square_matrix capacitance_matrix : option Matrix) (sign : F) :
    result Matrix :=
  let: (dim_outer, dim_inner) := shape left_factor_matrix in
  if (shape square_matrix).1 != dim_outer then Raise ValueError
  else if (shape square_matrix).1 != (shape square_matrix).2
  then Raise ValueError
  else if shape right_factor_matrix != (dim_inner, dim_outer)
  then Raise ValueError
  else
    inner <-
      match inner_square_matrix with
      | None => Ok (IdentityMatrix dim_inner)
      | Some inner =>
          if shape inner != (dim_inner, dim_inner) then Raise ValueError
          else Ok inner
      end ;;
    Ok (LowRankUpdateMatrix_ cls left_factor_matrix right_factor_matrix
          square_matrix inner capacitance_matrix sign).

Definition SquareLowRankUpdateMatrix_init :=
  SquareLowRankUpdateMatrix_init_ Square.

(** *** Transpose ([T]) *)

Fixpoint T (self : Matrix) : result returned :=
  let T_ := fun m => r <- T m ;; Ok (object m r) in
  match self with
  | MatrixProduct ms =>
      ts <- mapM_rev T_ ms ;; new (MatrixProduct_init ts)
  | TriangularMatrix array lower =>
      new (TriangularMatrix_init (np_T array) (~~ lower))
  | InverseTriangularMatrix inverse_array lower =>
      Ok (New (InverseTriangularMatrix (np_T inverse_array) (~~ lower)))
  | DenseSquareMatrix array lu transposed =>
      ' (lu', transposed') <-
        match lu with
        | Some f => Ok (f, transposed)
        | None => f <- lu_factor numeric array ;; Ok (f, Some false)
        end ;;
      Ok (New (DenseSquareMatrix (np_T array) (Some lu')
                 (Some (py_not transposed'))))
  | InverseLUFactoredSquareMatrix inv_array inv_lu transposed =>
      Ok (New (InverseLUFactoredSquareMatrix (np_T inv_array) inv_lu
                 (Some (py_not transposed))))
  | OrthogonalMatrix array => Ok (New (OrthogonalMatrix (np_T array)))
  | ScaledOrthogonalMatrix scalar orth_array =>
      Ok (New (ScaledOrthogonalMatrix scalar (np_T orth_array)))
  | BlockDiagonalMatrix_ Square blocks =>
      ts <- mapM T_ blocks ;; new (SquareBlockDiagonalMatrix_init ts)
  | DenseRectangularMatrix array =>
      Ok (New (DenseRectangularMatrix (np_T array)))
  | BlockRowMatrix blocks =>
      ts <- mapM T_ blocks ;; new (BlockColumnMatrix_init ts)
  | BlockColumnMatrix blocks =>
      ts <- mapM T_ blocks ;; new (BlockRowMatrix_init ts)
  | LowRankUpdateMatrix_ Square L R Sq K cap sign =>
      rt <- T_ R ;; lt <- T_ L ;; st <- T_ Sq ;; kt <- T_ K ;;
      ct <- omapM T_ cap ;;
      new (SquareLowRankUpdateMatrix_init rt lt st (Some kt) ct sign)
  (* [SymmetricMatrix.T], [SymmetricBlockDiagonalMatrix.T] and
     [SymmetricLowRankUpdateMatrix.T] *)
  | IdentityMatrix _ | ScaledIdentityMatrix_ _ _ _ | DiagonalMatrix_ _ _
  | TriangularFactoredDefiniteMatrix_ _ _ _ | DenseDefiniteMatrix_ _ _ _ _
  | DensePositiveDefiniteProductMatrix _ _ _ _ | DenseSymmetricMatrix _ _ _
  | EigendecomposedMatrix_ _ _ _
  | BlockDiagonalMatrix_ Symmetric _
  | BlockDiagonalMatrix_ PositiveDefinite _
  | LowRankUpdateMatrix_ Symmetric _ _ _ _ _ _
  | LowRankUpdateMatrix_ PositiveDefinite _ _ _ _ _ _ => Ok Self
  end.

(** The object that [self.T] evaluates to. *)
Definition T_object (self : Matrix) : result Matrix :=
  r <- T self ;; Ok (object self r).

(** Source lines 1752-1786 and 1843-1873: the symmetric and the
    positive-definite low-rank updates.  The arguments are tested by
    identity with their transposes; [inner_symmetric_matrix.T] on [None] is
    an [AttributeError]. *)
Definition SymmetricLowRankUpdateMatrix_init_ (cls : structure_class)
    (factor_matrix symmetric_matrix : Matrix)
    (inner_symmetric_matrix capacitance_matrix : option Matrix) (sign : F) :
    result Matrix :=
  st <- T symmetric_matrix ;;
  if ~~ is_self st then Raise ValueError
  else
    kt <- (if inner_symmetric_matrix is Some inner then T inner
           else Raise AttributeError) ;;
    if ~~ is_self kt then Raise ValueError
    else
      ft <- T_object factor_matrix ;;
      SquareLowRankUpdateMatrix_init_ cls factor_matrix ft symmetric_matrix
        inner_symmetric_matrix capacitance_matrix sign.

Definition SymmetricLowRankUpdateMatrix_init :=
  SymmetricLowRankUpdateMatrix_init_ Symmetric.

Definition PositiveDefiniteLowRankUpdateMatrix_init :=
  SymmetricLowRankUpdateMatrix_init_ PositiveDefinite.

(** *** Scalar multiplication

    [__mul__], [__rmul__], [__truediv__] and [__neg__] (source lines 29-51)
    around the [_scalar_multiply] of each class.  [mul] and [div] below are
    [scalar * block] and [block / scalar] on a constituent. *)

Fixpoint _scalar_multiply (self : Matrix) (scalar : F) {struct self} :
    result returned :=
  let mul := fun (m : Matrix) (other : F) =>
    if other == 0 then Raise NotImplementedError
    else r <- _scalar_multiply m other ;; Ok (object m r) in
  let div := fun (m : Matrix) (other : F) =>
    if other == 0 then Raise NotImplementedError
    else r <- _scalar_multiply m (1 / other) ;; Ok (object m r) in
  let dense_definite := fun (array : ndarray) (factor : option Matrix)
                            (sign : F) =>
    factor' <- omapM (fun f => mul f (pow_half numeric `|scalar|)) factor ;;
    if (0 < scalar) == (sign == 1)
    then new (DensePositiveDefiniteMatrix_init (np_scale scalar array) factor')
    else new (DenseDefiniteMatrix_init (np_scale scalar array) factor' false) in
  match self with
  | MatrixProduct ms =>
      si <- ScaledIdentityMatrix_init scalar (shape self).1 ;;
      new (MatrixProduct_init (si :: ms))
  | IdentityMatrix size =>
      if 0 < scalar then new (PositiveScaledIdentityMatrix_init scalar size)
      else new (ScaledIdentityMatrix_init scalar size)
  | ScaledIdentityMatrix_ positive c size =>
      if positive && (0 < scalar)
      then new (PositiveScaledIdentityMatrix_init (scalar * c) size)
      else new (ScaledIdentityMatrix_init (scalar * c) size)
  | DiagonalMatrix_ positive d =>
      if positive && (0 < scalar)
      then new (PositiveDiagonalMatrix_init (vec_scale d scalar))
      else new (DiagonalMatrix_init (vec_scale d scalar))
  | TriangularMatrix array lower =>
      new (TriangularMatrix_init (np_scale scalar array) lower)
  | InverseTriangularMatrix inverse_array lower =>
      Ok (New (InverseTriangularMatrix (np_divide inverse_array scalar) lower))
  | TriangularFactoredDefiniteMatrix_ positive factor sign =>
      if positive && (0 < scalar) then
        factor' <- mul factor (pow_half numeric scalar) ;;
        new (TriangularFactoredPositiveDefiniteMatrix_init
               (FactorMatrix factor') true)
      else
        factor' <- mul factor (pow_half numeric `|scalar|) ;;
        new (TriangularFactoredDefiniteMatrix_init (FactorMatrix factor')
               (sign * Num.sg scalar) None)
  | DenseDefiniteMatrix_ _ array factor sign =>
      dense_definite array factor sign
  | DensePositiveDefiniteProductMatrix _ _ array factor =>
      dense_definite array factor 1
  | DenseSquareMatrix array lu transposed =>
      match lu, transposed with
      | Some (old_lu, piv), Some _ =>
          new_lu <- np_add old_lu (np_scale (scalar - 1) (np_triu old_lu)) ;;
          Ok (New (DenseSquareMatrix (np_scale scalar array)
                     (Some (new_lu, piv)) transposed))
      | _, _ => Ok (New (DenseSquareMatrix (np_scale scalar array) None None))
      end
  | InverseLUFactoredSquareMatrix inv_array (old_inv_lu, piv) transposed =>
      new_inv_lu <-
        np_subtract old_inv_lu
          (np_scale ((scalar - 1) / scalar) (np_triu old_inv_lu)) ;;
      Ok (New (InverseLUFactoredSquareMatrix (np_divide inv_array scalar)
                 (new_inv_lu, piv) transposed))
  | DenseSymmetricMatrix array eigvec eigval =>
      new (DenseSymmetricMatrix_init (np_scale scalar array) eigvec
             (omap (fun e => vec_scale e scalar) eigval))
  | OrthogonalMatrix array => Ok (New (ScaledOrthogonalMatrix scalar array))
  | ScaledOrthogonalMatrix c orth_array =>
      Ok (New (ScaledOrthogonalMatrix (scalar * c) orth_array))
  | EigendecomposedMatrix_ cls eigvec eigval =>
      if (if cls is EigSymmetric then false else true) && (0 < scalar)
      then new (EigendecomposedPositiveDefiniteMatrix_init eigvec
                  (vec_scale eigval scalar))
      else new (EigendecomposedSymmetricMatrix_init eigvec
                  (vec_scale eigval scalar))
  | BlockDiagonalMatrix_ cls blocks =>
      blocks' <- mapM (fun b => mul b scalar) blocks ;;
      match cls with
      | Square => new (SquareBlockDiagonalMatrix_init blocks')
      | Symmetric => new (SymmetricBlockDiagonalMatrix_init blocks')
      | PositiveDefinite =>
          if 0 < scalar then new (PositiveDefiniteBlockDiagonalMatrix_init blocks')
          else new (SymmetricBlockDiagonalMatrix_init blocks')
      end
  | DenseRectangularMatrix array =>
      Ok (New (DenseRectangularMatrix (np_scale scalar array)))
  | BlockRowMatrix blocks =>
      blocks' <- mapM (fun b => mul b scalar) blocks ;;
      new (BlockRowMatrix_init blocks')
  | BlockColumnMatrix blocks =>
      blocks' <- mapM (fun b => mul b scalar) blocks ;;
      new (BlockColumnMatrix_init blocks')
  | LowRankUpdateMatrix_ cls L R Sq K cap sign =>
      square' <- mul Sq scalar ;;
      inner' <- mul K scalar ;;
      cap' <- omapM (fun c => div c scalar) cap ;;
      match cls with
      | Square =>
          new (SquareLowRankUpdateMatrix_init L R square' (Some inner') cap' sign)
      | Symmetric =>
          new (SymmetricLowRankUpdateMatrix_init L square' (Some inner') cap' sign)
      | PositiveDefinite =>
          if 0 < scalar
          then new (PositiveDefiniteLowRankUpdateMatrix_init L square'
                      (Some inner') cap' sign)
          else new (SymmetricLowRankUpdateMatrix_init L square'
                      (Some inner') cap' sign)
      end
  end.

Definition __mul__ (self : Matrix) (other : F) : result returned :=
  if other == 0 then Raise NotImplementedError
  else _scalar_multiply self other.

Definition __rmul__ (self : Matrix) (other : F) : result returned :=
  __mul__ self other.

Definition __truediv__ (self : Matrix) (other : F) : result returned :=
  if other == 0 then Raise NotImplementedError
  else _scalar_multiply self (1 / other).

Definition __neg__ (self : Matrix) : result returned :=
  _scalar_multiply self (-1).

(** The objects that [scalar * self] and [self / scalar] evaluate to. *)
Definition mul_object (self : Matrix) (scalar : F) : result Matrix :=
  r <- __rmul__ self scalar ;; Ok (object self r).

Definition div_object (self : Matrix) (scalar : F) : result Matrix :=
  r <- __truediv__ self scalar ;; Ok (object self r).

(** *** Multiplication of an array by a matrix object

    [_left_matrix_multiply] and [_right_matrix_multiply] of each class, on a
    two-dimensional operand.  They go through [@] on constituents, on their
    transposes and on their scalar multiples, so the recursion is not on the
    structure of [self]: it is bounded by a depth, and [height self] is
    enough ([RecursionError] otherwise). *)

Fixpoint height (self : Matrix) : nat :=
  let seq_height := fun ms => foldr maxn 1%N (map height ms) in
  let opt_height := fun m => if m is Some m' then height m' else 1%N in
  match self with
  | MatrixProduct ms => (seq_height ms).+1
  | BlockDiagonalMatrix_ _ bs => (seq_height bs).+1
  | BlockRowMatrix bs => (seq_height bs).+1
  | BlockColumnMatrix bs => (seq_height bs).+1
  | TriangularFactoredDefiniteMatrix_ _ f _ => (height f).+1
  | DenseDefiniteMatrix_ _ _ f _ => (opt_height f).+1
  | DensePositiveDefiniteProductMatrix r pd _ f =>
      (maxn (height r) (maxn (height pd) (opt_height f))).+1
  | DenseSymmetricMatrix _ v _ => (opt_height v).+1
  | EigendecomposedMatrix_ _ v _ => (height v).+1
  | LowRankUpdateMatrix_ _ L R Sq K cap _ =>
      (maxn (height L) (maxn (height R) (maxn (height Sq)
         (maxn (height K) (opt_height cap))))).+1
  | _ => 1%N
  end.

(** [sizes[:-1]] and the split points of the block classes. *)
Definition block_splits (sizes : seq (option nat)) : seq nat :=
  np_cumsum (map (odflt 0%N) (take (size sizes).-1 sizes)).

(** The dimension test of [__matmul__] (source lines 54-57) and of
    [__rmatmul__] (source lines 66-69). *)
Definition matmul_mismatch (self : Matrix) (other_rows : option nat) : bool :=
  ((shape self).2 != None) && (other_rows != (shape self).2).

Definition rmatmul_mismatch (self : Matrix) (other_cols : option nat) : bool :=
  ((shape self).1 != None) && (other_cols != (shape self).1).

Fixpoint _left_matrix_multiply_ (depth : nat) (self : Matrix)
    (other : ndarray) {struct depth} : result ndarray :=
  if depth is depth'.+1 then
    (* [m @ x] for a matrix object [m] and an array [x] *)
    let matmul := fun (m : Matrix) (x : ndarray) =>
      if matmul_mismatch m (Some (nrows x)) then Raise ValueError
      else _left_matrix_multiply_ depth' m x in
    match self with
    | MatrixProduct ms =>
        foldr (fun m acc => x <- acc ;; matmul m x) (Ok other) ms
    | IdentityMatrix _ => Ok other
    | ScaledIdentityMatrix_ _ scalar _ => Ok (np_scale scalar other)
    | DiagonalMatrix_ _ diagonal => np_mul_rows diagonal other
    | TriangularMatrix array _ | DenseDefiniteMatrix_ _ array _ _
    | DensePositiveDefiniteProductMatrix _ _ array _
    | DenseSquareMatrix array _ _ | DenseSymmetricMatrix array _ _
    | OrthogonalMatrix array | DenseRectangularMatrix array =>
        np_matmul array other
    | InverseTriangularMatrix inverse_array lower =>
        solve_triangular numeric inverse_array other lower false
    | TriangularFactoredDefiniteMatrix_ _ factor sign =>
        ft <- T_object factor ;;
        y <- matmul ft other ;;
        z <- matmul factor y ;;
        Ok (np_scale sign z)
    | InverseLUFactoredSquareMatrix _ inv_lu transposed =>
        lu_solve numeric inv_lu other transposed
    | ScaledOrthogonalMatrix scalar orth_array =>
        y <- np_matmul orth_array other ;; Ok (np_scale scalar y)
    | EigendecomposedMatrix_ _ eigvec eigval =>
        vt <- T_object eigvec ;;
        y <- matmul vt other ;;
        diag_eigval <- diag_eigval_init eigval ;;
        z <- matmul diag_eigval y ;;
        matmul eigvec z
    | BlockDiagonalMatrix_ _ blocks =>
        if Some (nrows other) != (shape self).1 then Raise AssertionError
        else
          let splits := block_splits [seq (shape b).1 | b <- blocks] in
          parts <- mapM (fun bp => matmul bp.1 bp.2)
                        (zip blocks (np_split other splits true)) ;;
          np_concatenate true parts
    | BlockRowMatrix blocks =>
        if Some (nrows other) != (shape self).2 then Raise AssertionError
        else
          let splits := block_splits [seq (shape b).2 | b <- blocks] in
          parts <- mapM (fun bp => matmul bp.1 bp.2)
                        (zip blocks (np_split other splits true)) ;;
          if parts is p :: parts' then np_sum_from p parts'
          else Raise TypeError
    | BlockColumnMatrix blocks =>
        parts <- mapM (fun b => matmul b other) blocks ;;
        np_concatenate true parts
    | LowRankUpdateMatrix_ _ L R Sq K _ sign =>
        a <- matmul Sq other ;;
        sl <- mul_object L sign ;;
        r1 <- matmul R other ;;
        r2 <- matmul K r1 ;;
        r3 <- matmul sl r2 ;;
        np_add a r3
    end
  else Raise RecursionError.

Fixpoint _right_matrix_multiply_ (depth : nat) (self : Matrix)
    (other : ndarray) {struct depth} : result ndarray :=
  if depth is depth'.+1 then
    (* [x @ m] for an array [x] and a matrix object [m] *)
    let rmatmul := fun (x : ndarray) (m : Matrix) =>
      if rmatmul_mismatch m (Some (ncols x)) then Raise ValueError
      else _right_matrix_multiply_ depth' m x in
    match self with
    | MatrixProduct ms =>
        foldl (fun acc m => x <- acc ;; rmatmul x m) (Ok other) ms
    | IdentityMatrix _ => Ok other
    | ScaledIdentityMatrix_ _ scalar _ => Ok (np_scale scalar other)
    | DiagonalMatrix_ _ diagonal => np_mul_cols diagonal other
    | TriangularMatrix array _ | DenseDefiniteMatrix_ _ array _ _
    | DensePositiveDefiniteProductMatrix _ _ array _
    | DenseSquareMatrix array _ _ | DenseSymmetricMatrix array _ _
    | OrthogonalMatrix array | DenseRectangularMatrix array =>
        np_matmul other array
    | InverseTriangularMatrix inverse_array lower =>
        y <- solve_triangular numeric inverse_array (np_T other) lower true ;;
        Ok (np_T y)
    | TriangularFactoredDefiniteMatrix_ _ factor sign =>
        y <- rmatmul other factor ;;
        ft <- T_object factor ;;
        z <- rmatmul y ft ;;
        Ok (np_scale sign z)
    | InverseLUFactoredSquareMatrix _ inv_lu transposed =>
        y <- lu_solve numeric inv_lu (np_T other) (Some (py_not transposed)) ;;
        Ok (np_T y)
    | ScaledOrthogonalMatrix scalar orth_array =>
        y <- np_matmul other orth_array ;; Ok (np_scale scalar y)
    | EigendecomposedMatrix_ _ eigvec eigval =>
        y <- rmatmul other eigvec ;;
        diag_eigval <- diag_eigval_init eigval ;;
        z <- rmatmul y diag_eigval ;;
        vt <- T_object eigvec ;;
        rmatmul z vt
    | BlockDiagonalMatrix_ _ blocks =>
        if Some (ncols other) != (shape self).1 then Raise AssertionError
        else
          let splits := block_splits [seq (shape b).1 | b <- blocks] in
          parts <- mapM (fun bp => rmatmul bp.2 bp.1)
                        (zip blocks (np_split other splits false)) ;;
          np_concatenate false parts
    | BlockRowMatrix blocks =>
        parts <- mapM (fun b => rmatmul other b) blocks ;;
        np_concatenate false parts
    | BlockColumnMatrix blocks =>
        if Some (ncols other) != (shape self).1 then Raise AssertionError
        else
          let splits := block_splits [seq (shape b).1 | b <- blocks] in
          parts <- mapM (fun bp => rmatmul bp.2 bp.1)
                        (zip blocks (np_split other splits false)) ;;
          if parts is p :: parts' then np_sum_from p parts'
          else Raise TypeError
    | LowRankUpdateMatrix_ _ L R Sq K _ sign =>
        a <- rmatmul other Sq ;;
        y <- rmatmul other L ;;
        z <- rmatmul (np_scale sign y) K ;;
        w <- rmatmul z R ;;
        np_add a w
    end
  else Raise RecursionError.

Definition _left_matrix_multiply (self : Matrix) (other : ndarray) :
    result ndarray :=
  _left_matrix_multiply_ (height self) self other.

Definition _right_matrix_multiply (self : Matrix) (other : ndarray) :
    result ndarray :=
  _right_matrix_multiply_ (height self) self other.

(** *** The operator [@] (source lines 53-75)

    An operand is a matrix object or an array; so is the result. *)

Inductive operand := OMatrix (M : Matrix) | OArray (a : ndarray).

Definition operand_rows (other : operand) : option nat :=
  match other with
  | OMatrix M => (shape M).1
  | OArray a => Some (nrows a)
  end.

Definition operand_cols (other : operand) : option nat :=
  match other with
  | OMatrix M => (shape M).2
  | OArray a => Some (ncols a)
  end.

Definition __matmul__ (self : Matrix) (other : operand) : result operand :=
  if matmul_mismatch self (operand_rows other) then Raise ValueError
  else
    match other with
    | OMatrix (MatrixProduct matrices) =>
        P <- MatrixProduct_init (self :: matrices) ;; Ok (OMatrix P)
    | OMatrix other' =>
        P <- MatrixProduct_init [:: self; other'] ;; Ok (OMatrix P)
    | OArray a =>
        r <- _left_matrix_multiply self a ;; Ok (OArray r)
    end.

Definition __rmatmul__ (self : Matrix) (other : operand) : result operand :=
  if rmatmul_mismatch self (operand_cols other) then Raise ValueError
  else
    match other with
    | OMatrix (MatrixProduct matrices) =>
        P <- MatrixProduct_init (rcons matrices self) ;; Ok (OMatrix P)
    | OMatrix other' =>
        P <- MatrixProduct_init [:: other'; self] ;; Ok (OMatrix P)
    | OArray a =>
        r <- _right_matrix_multiply self a ;; Ok (OArray r)
    end.

(** Python's evaluation of [a @ b]: the left operand's [__matmul__] is
    tried first; every class inherits [Matrix.__matmul__], which never
    returns [NotImplemented], and no class overrides [__rmatmul__], so the
    reflected method is reached only when the left operand is an array
    (NumPy defers to the object of higher [__array_priority__]). *)
Definition matmul (a b : operand) : result operand :=
  match a, b with
  | OMatrix A, _ => __matmul__ A b
  | OArray x, OMatrix B' => __rmatmul__ B' a
  | OArray x, OArray y => r <- np_matmul x y ;; Ok (OArray r)
  end.

Definition matmul_array (a b : operand) : result ndarray :=
  r <- matmul a b ;;
  if r is OArray x then Ok x else Raise TypeError.

(** *** Dense representation ([array])

    [ExplicitArrayMatrix.array] returns the stored array;
    [ImplicitArrayMatrix.array] runs [_construct_array] of the class. *)

Fixpoint array (self : Matrix) : result ndarray :=
  match self with
  | MatrixProduct ms =>
      if ms is m :: rest then
        a <- array m ;;
        P <- MatrixProduct_init rest ;;
        matmul_array (OArray a) (OMatrix P)
      else Raise IndexError
  | IdentityMatrix size =>
      if size is Some n then Ok (np_identity F n) else Raise RuntimeError
  | ScaledIdentityMatrix_ _ scalar size =>
      if size is Some n then Ok (np_scale scalar (np_identity F n))
      else Raise RuntimeError
  | DiagonalMatrix_ _ diagonal => Ok (np_diag diagonal)
  | TriangularMatrix array _ | DenseDefiniteMatrix_ _ array _ _
  | DensePositiveDefiniteProductMatrix _ _ array _
  | DenseSquareMatrix array _ _ | DenseSymmetricMatrix array _ _
  | OrthogonalMatrix array | DenseRectangularMatrix array => Ok array
  | InverseTriangularMatrix inverse_array _ =>
      matmul_array (OMatrix self) (OArray (np_identity F (nrows inverse_array)))
  | TriangularFactoredDefiniteMatrix_ _ factor sign =>
      fa <- array factor ;;
      y <- matmul_array (OMatrix factor) (OArray (np_T fa)) ;;
      Ok (np_scale sign y)
  | InverseLUFactoredSquareMatrix inv_array _ _ =>
      matmul_array (OMatrix self) (OArray (np_identity F (nrows inv_array)))
  | ScaledOrthogonalMatrix scalar orth_array => Ok (np_scale scalar orth_array)
  | EigendecomposedMatrix_ _ _ _ =>
      if (shape self).1 is Some n then
        matmul_array (OMatrix self) (OArray (np_identity F n))
      else Raise RuntimeError
  | BlockDiagonalMatrix_ _ blocks =>
      arrays <- mapM array blocks ;; Ok (block_diag arrays)
  | BlockRowMatrix blocks =>
      arrays <- mapM array blocks ;; np_concatenate false arrays
  | BlockColumnMatrix blocks =>
      arrays <- mapM array blocks ;; np_concatenate true arrays
  | LowRankUpdateMatrix_ _ L R Sq K _ sign =>
      sa <- array Sq ;;
      sl <- mul_object L sign ;;
      ra <- array R ;;
      y <- matmul_array (OMatrix K) (OArray ra) ;;
      z <- matmul_array (OMatrix sl) (OArray y) ;;
      np_add sa z
  end.

(** *** Inverse ([inv])

    The memoised properties [factor], [lu_and_piv], [eigvec] / [eigval] and
    [capacitance_matrix] return the stored value when there is one and
    compute it otherwise. *)

Definition factor_property (factor : option Matrix) (array : ndarray)
    (sign : F) : result Matrix :=
  if factor is Some f then Ok f
  else
    c <- cholesky numeric (np_scale sign array) ;; TriangularMatrix_init c true.

Definition lu_and_piv_property (array : ndarray) (lu : option lu_and_piv)
    (transposed : option bool) : result (lu_and_piv * option bool) :=
  if lu is Some f then Ok (f, transposed)
  else f <- lu_factor numeric array ;; Ok (f, Some false).

Definition eigen_property (array : ndarray) (eigvec : option Matrix)
    (eigval : option vector) : result (Matrix * vector) :=
  match eigvec, eigval with
  | Some v, Some e => Ok (v, e)
  | _, _ =>
      ' (e, v) <- eigh numeric array ;; Ok (OrthogonalMatrix v, e)
  end.

Definition DenseSquareMatrix_inv (array : ndarray) (lu : option lu_and_piv)
    (transposed : option bool) : result returned :=
  ' (lu', transposed') <- lu_and_piv_property array lu transposed ;;
  Ok (New (InverseLUFactoredSquareMatrix array lu' transposed')).

Definition DenseSymmetricMatrix_inv (array : ndarray) (eigvec : option Matrix)
    (eigval : option vector) : result returned :=
  ' (v, e) <- eigen_property array eigvec eigval ;;
  new (EigendecomposedSymmetricMatrix_init v (vec_inv e)).

Fixpoint inv (self : Matrix) : result returned :=
  let inv_ := fun m => r <- inv m ;; Ok (object m r) in
  (* [self.factor.inv.T] *)
  let factor_inv_T := fun (factor : option Matrix) (array : ndarray)
                          (sign : F) =>
    fi <- (if factor is Some f then inv_ f
           else
             f <- factor_property None array sign ;;
             if f is TriangularMatrix a lower
             then Ok (InverseTriangularMatrix a lower)
             else Raise TypeError) ;;
    T_object fi in
  match self with
  | IdentityMatrix _ => Ok Self
  | ScaledIdentityMatrix_ positive scalar size =>
      if positive then new (PositiveScaledIdentityMatrix_init (1 / scalar) size)
      else new (ScaledIdentityMatrix_init (1 / scalar) size)
  | DiagonalMatrix_ positive diagonal =>
      if positive then new (PositiveDiagonalMatrix_init (vec_inv diagonal))
      else new (DiagonalMatrix_init (vec_inv diagonal))
  | TriangularMatrix array lower =>
      Ok (New (InverseTriangularMatrix array lower))
  | InverseTriangularMatrix inverse_array lower =>
      new (TriangularMatrix_init inverse_array lower)
  | TriangularFactoredDefiniteMatrix_ positive factor sign =>
      fi <- inv_ factor ;;
      fit <- T_object fi ;;
      if positive
      then new (TriangularFactoredPositiveDefiniteMatrix_init
                  (FactorMatrix fit) true)
      else new (TriangularFactoredDefiniteMatrix_init (FactorMatrix fit)
                  sign None)
  | DenseDefiniteMatrix_ positive array factor sign =>
      fit <- factor_inv_T factor array sign ;;
      if positive
      then new (TriangularFactoredPositiveDefiniteMatrix_init
                  (FactorMatrix fit) true)
      else new (TriangularFactoredDefiniteMatrix_init (FactorMatrix fit)
                  sign None)
  | DensePositiveDefiniteProductMatrix _ _ array factor =>
      fit <- factor_inv_T factor array 1 ;;
      new (TriangularFactoredPositiveDefiniteMatrix_init
             (FactorMatrix fit) true)
  | DenseSquareMatrix array lu transposed =>
      DenseSquareMatrix_inv array lu transposed
  | InverseLUFactoredSquareMatrix inv_array inv_lu transposed =>
      Ok (New (DenseSquareMatrix inv_array (Some inv_lu) transposed))
  | DenseSymmetricMatrix array eigvec eigval =>
      DenseSymmetricMatrix_inv array eigvec eigval
  | OrthogonalMatrix _ => T self
  | ScaledOrthogonalMatrix scalar orth_array =>
      Ok (New (ScaledOrthogonalMatrix (1 / scalar) (np_T orth_array)))
  | EigendecomposedMatrix_ cls eigvec eigval =>
      if cls is EigSymmetric
      then new (EigendecomposedSymmetricMatrix_init eigvec (vec_inv eigval))
      else new (EigendecomposedPositiveDefiniteMatrix_init eigvec
                  (vec_inv eigval))
  | BlockDiagonalMatrix_ cls blocks =>
      blocks' <- mapM inv_ blocks ;;
      match cls with
      | Square => new (SquareBlockDiagonalMatrix_init blocks')
      | Symmetric => new (SymmetricBlockDiagonalMatrix_init blocks')
      | PositiveDefinite => new (PositiveDefiniteBlockDiagonalMatrix_init blocks')
      end
  | LowRankUpdateMatrix_ cls L R Sq K cap sign =>
      (* [self.capacitance_matrix.inv]; the right factor is
         [self.right_factor_matrix] in the square class and
         [self.factor_matrix.T] in the other two *)
      let capacitance_inv :=
        if cap is Some c then inv_ c
        else
          ki <- inv_ K ;;
          kia <- array ki ;;
          right <- (if cls is Square then Ok R else T_object L) ;;
          si <- inv_ Sq ;;
          la <- array L ;;
          y <- matmul_array (OMatrix si) (OArray la) ;;
          z <- matmul_array (OMatrix right) (OArray y) ;;
          c <- np_add kia z ;;
          r <- match cls with
               | Square => DenseSquareMatrix_inv c None None
               | Symmetric => DenseSymmetricMatrix_inv c None None
               | PositiveDefinite =>
                   f <- factor_property None c 1 ;;
                   if f is TriangularMatrix a lower then
                     fit <- T_object (InverseTriangularMatrix a lower) ;;
                     new (TriangularFactoredPositiveDefiniteMatrix_init
                            (FactorMatrix fit) true)
                   else Raise TypeError
               end ;;
          Ok (object self r) in
      match cls with
      | Square =>
          si <- inv_ Sq ;;
          left <- matmul (OMatrix si) (OMatrix L) ;;
          si' <- inv_ Sq ;;
          right <- matmul (OMatrix R) (OMatrix si') ;;
          si'' <- inv_ Sq ;;
          ci <- capacitance_inv ;;
          ki <- inv_ K ;;
          match left, right with
          | OMatrix left', OMatrix right' =>
              new (SquareLowRankUpdateMatrix_init left' right' si''
                     (Some ci) (Some ki) (- sign))
          | _, _ => Raise TypeError
          end
      | _ =>
          si <- inv_ Sq ;;
          factor <- matmul (OMatrix si) (OMatrix L) ;;
          si' <- inv_ Sq ;;
          ci <- capacitance_inv ;;
          ki <- inv_ K ;;
          if factor is OMatrix factor' then
            new (SymmetricLowRankUpdateMatrix_init_ cls factor' si'
                   (Some ci) (Some ki) (- sign))
          else Raise TypeError
      end
  | MatrixProduct _ | DenseRectangularMatrix _
  | BlockRowMatrix _ | BlockColumnMatrix _ => Raise AttributeError
  end.

(** The object that [self.inv] evaluates to. *)
Definition inv_object (self : Matrix) : result Matrix :=
  r <- inv self ;; Ok (object self r).

(** *** Log-determinants ([log_abs_det])

    [np.log(np.abs(v)).sum()] is the logarithm of the product of the
    absolute values. *)

Definition log_abs_sum (v : vector) : logarithm F :=
  np_log (\prod_(x <- v) `|x|).

Definition log_sum (ls : seq (logarithm F)) : logarithm F :=
  foldl (@log_add F) log_zero ls.

Fixpoint log_abs_det (self : Matrix) : result (logarithm F) :=
  (* [2 * self.factor.log_abs_det] *)
  let factored := fun (factor : option Matrix) (array : ndarray) (sign : F) =>
    l <- (if factor is Some f then log_abs_det f
          else
            f <- factor_property None array sign ;;
            if f is TriangularMatrix a _ then Ok (log_abs_sum (np_diagonal a))
            else Raise TypeError) ;;
    Ok (log_add l l) in
  match self with
  | IdentityMatrix _ => Ok log_zero
  | ScaledIdentityMatrix_ _ scalar size =>
      if size is Some n then Ok (np_log (`|scalar| ^+ n))
      else Raise RuntimeError
  | DiagonalMatrix_ _ diagonal => Ok (log_abs_sum diagonal)
  | TriangularMatrix array _ => Ok (log_abs_sum (np_diagonal array))
  | InverseTriangularMatrix inverse_array lower =>
      let array := if lower then np_tril inverse_array
                   else np_triu inverse_array in
      Ok (log_neg (log_abs_sum (np_diagonal array)))
  | TriangularFactoredDefiniteMatrix_ _ factor _ =>
      l <- log_abs_det factor ;; Ok (log_add l l)
  | DenseDefiniteMatrix_ _ array factor sign => factored factor array sign
  | DensePositiveDefiniteProductMatrix _ _ array factor =>
      factored factor array 1
  | DenseSquareMatrix array lu transposed =>
      ' (lu', _) <- lu_and_piv_property array lu transposed ;;
      Ok (log_abs_sum (np_diagonal lu'.1))
  | InverseLUFactoredSquareMatrix _ inv_lu _ =>
      Ok (log_neg (log_abs_sum (np_diagonal inv_lu.1)))
  | DenseSymmetricMatrix array eigvec eigval =>
      ' (_, e) <- eigen_property array eigvec eigval ;; Ok (log_abs_sum e)
  | OrthogonalMatrix _ => Ok log_zero
  | ScaledOrthogonalMatrix scalar orth_array =>
      Ok (np_log (`|scalar| ^+ nrows orth_array))
  | EigendecomposedMatrix_ _ _ eigval => Ok (log_abs_sum eigval)
  | BlockDiagonalMatrix_ _ blocks =>
      ls <- mapM log_abs_det blocks ;; Ok (log_sum ls)
  | LowRankUpdateMatrix_ cls L R Sq K cap sign =>
      ls <- log_abs_det Sq ;;
      lk <- log_abs_det K ;;
      lc <- (if cap is Some c then log_abs_det c
             else
               ki <- inv_object K ;;
               kia <- array ki ;;
               right <- (if cls is Square then Ok R else T_object L) ;;
               si <- inv_object Sq ;;
               la <- array L ;;
               y <- matmul_array (OMatrix si) (OArray la) ;;
               z <- matmul_array (OMatrix right) (OArray y) ;;
               c <- np_add kia z ;;
               match cls with
               | Square =>
                   f <- lu_factor numeric c ;;
                   Ok (log_abs_sum (np_diagonal f.1))
               | Symmetric =>
                   ' (e, _) <- eigh numeric c ;; Ok (log_abs_sum e)
               | PositiveDefinite =>
                   f <- factor_property None c 1 ;;
                   if f is TriangularMatrix a _
                   then let l := log_abs_sum (np_diagonal a) in
                        Ok (log_add l l)
                   else Raise TypeError
               end) ;;
      Ok (log_add (log_add ls lk) lc)
  | MatrixProduct _ | DenseRectangularMatrix _
  | BlockRowMatrix _ | BlockColumnMatrix _ => Raise AttributeError
  end.

(** Source lines 930-951: the dense product [R P R^T]. *)
Definition DensePositiveDefiniteProductMatrix_init (rect_matrix : Matrix)
    (pos_def_matrix : option Matrix) : result Matrix :=
  match shape rect_matrix with
  | (Some rows, Some cols) =>
      if ~~ (rows < cols)%N then Raise ValueError
      else
        let pos_def := if pos_def_matrix is Some P then P
                       else IdentityMatrix (Some cols) in
        rt <- T_object rect_matrix ;;
        rta <- array rt ;;
        y <- matmul_array (OMatrix pos_def) (OArray rta) ;;
        a <- matmul_array (OMatrix rect_matrix) (OArray y) ;;
        Ok (DensePositiveDefiniteProductMatrix rect_matrix pos_def a None)
  | _ => Raise TypeError
  end.

(** *** Properties of [@] *)

(** The factors [B] contributes to a chain: its own factors when it is a
    chain, itself otherwise. *)
Definition factors (M : Matrix) : seq Matrix :=
  if M is MatrixProduct ms then ms else [:: M].

Lemma __matmul__E (A B : Matrix) :
  __matmul__ A (OMatrix B) =
  if matmul_mismatch A (shape B).1 then Raise ValueError
  else Ok (OMatrix (MatrixProduct (A :: factors B))).
Proof. by rewrite /__matmul__ /=; case: ifP => // _; case: B. Qed.

Lemma __rmatmul__E (A B : Matrix) :
  __rmatmul__ B (OMatrix A) =
  if rmatmul_mismatch B (shape A).2 then Raise ValueError
  else Ok (OMatrix (MatrixProduct (factors A ++ [:: B]))).
Proof.
rewrite /__rmatmul__ /=; case: ifP => // _; case: A => //= ms.
by rewrite -cats1; case: ms.
Qed.

(** A chain is flat when none of its factors is a chain. *)
Definition flat (M : Matrix) : bool :=
  if M is MatrixProduct ms then ~~ has is_MatrixProduct ms else false.

(** X3: [A @ B] for an object [A] that is no chain and a flat chain [B]
    of matching dimensions is the flat chain of [A] followed by the factors
    of [B]. *)
Theorem matmul_right_chain_flat (A B : Matrix) :
  ~~ is_MatrixProduct A -> flat B -> ~~ matmul_mismatch A (shape B).1 ->
  exists2 P, matmul (OMatrix A) (OMatrix B) = Ok (OMatrix P) &
             flat P /\ factors P = A :: factors B.
Proof.
move=> nA fB ok; rewrite /matmul __matmul__E (negbTE ok).
exists (MatrixProduct (A :: factors B)) => //; split=> //.
by case: B fB {ok} => //= ms fB; rewrite negb_or nA.
Qed.

(** *** Which transforms return the receiver *)

(** The classes whose [T] is [SymmetricMatrix.T],
    [SymmetricBlockDiagonalMatrix.T] or [SymmetricLowRankUpdateMatrix.T]. *)
Definition T_returns_self (M : Matrix) : bool :=
  match M with
  | BlockDiagonalMatrix_ Symmetric _ => true
  | _ => is_SymmetricMatrix M
  end.

Definition is_IdentityMatrix (M : Matrix) : bool :=
  if M is IdentityMatrix _ then true else false.

Ltac invert_result :=
  repeat match goal with
  | |- bind ?e _ = Ok _ -> _ => case: e => [?|?] //=
  | |- new ?e = Ok _ -> _ => rewrite /new /=
  | |- (if ?b then _ else _) = Ok _ -> _ => case: b => //=
  | |- match ?x with _ => _ end = Ok _ -> _ => case: x => //=
  | |- (let: _ := ?x in _) = Ok _ -> _ => case: x => //=
  | |- Ok _ = Ok _ -> _ => case=> <- //
  | |- Raise _ = Ok _ -> _ => by []
  | |- forall _, _ => intro
  end.

Lemma _scalar_multiply_new (M : Matrix) (scalar : F) (r : returned) :
  _scalar_multiply M scalar = Ok r -> is_new r.
Proof. move=> e; case: M e => /=; invert_result. Qed.

Lemma T_self (M : Matrix) (r : returned) :
  T M = Ok r -> is_self r = T_returns_self M.
Proof. move=> e; case: M e => /=; invert_result. Qed.

Lemma inv_self (M : Matrix) (r : returned) :
  inv M = Ok r -> is_self r = is_IdentityMatrix M.
Proof.
move=> e; case: M e => /=;
  rewrite /DenseSquareMatrix_inv /DenseSymmetricMatrix_inv; invert_result.
Qed.

Lemma T_of_symmetric (M : Matrix) : T_returns_self M -> T M = Ok Self.
Proof. by case: M => //= -[]. Qed.

(** *** Constructors of the symmetric low-rank updates *)

Lemma SymmetricLowRankUpdateMatrix_init_base (cls : structure_class)
    (factor S : Matrix) (K cap : option Matrix) (sign : F) :
  ~~ T_returns_self S ->
  raises (SymmetricLowRankUpdateMatrix_init_ cls factor S K cap sign) /\
  (returns (T S) ->
   SymmetricLowRankUpdateMatrix_init_ cls factor S K cap sign =
     Raise ValueError).
Proof.
rewrite /SymmetricLowRankUpdateMatrix_init_ => nS.
by case ES: (T S) => [r|e] //=; rewrite (T_self ES) (negbTE nS).
Qed.

Lemma SymmetricLowRankUpdateMatrix_init_inner (cls : structure_class)
    (factor S K : Matrix) (cap : option Matrix) (sign : F) :
  T_returns_self S -> ~~ T_returns_self K ->
  raises (SymmetricLowRankUpdateMatrix_init_ cls factor S (Some K) cap sign) /\
  (returns (T K) ->
   SymmetricLowRankUpdateMatrix_init_ cls factor S (Some K) cap sign =
     Raise ValueError).
Proof.
rewrite /SymmetricLowRankUpdateMatrix_init_ => sS nK.
rewrite (T_of_symmetric sS) /=.
by case EK: (T K) => [r|e] //=; rewrite (T_self EK) (negbTE nK).
Qed.

Lemma SymmetricLowRankUpdateMatrix_init_Ok (cls : structure_class)
    (factor S : Matrix) (K cap : option Matrix) (sign : F) (M : Matrix) :
  SymmetricLowRankUpdateMatrix_init_ cls factor S K cap sign = Ok M ->
  exists ft K',
    [/\ K = Some K', T_returns_self S, T_returns_self K',
        T_object factor = Ok ft &
        M = LowRankUpdateMatrix_ cls factor ft S K' cap sign].
Proof.
rewrite /SymmetricLowRankUpdateMatrix_init_.
case ES: (T S) => [rs|] //=; case: ifP => // /negbFE ss.
case: K => [K|] //=; case EK: (T K) => [rk|] //=; case: ifP => // /negbFE sk.
case Ef: (T_object factor) => [ft|] //=.
rewrite /SquareLowRankUpdateMatrix_init_; case: (shape factor) => o i.
do 3![case: ifP => // _]; rewrite /=; case: ifP => //= _ [<-].
by exists ft, K; split=> //; rewrite -?(T_self ES) -?(T_self EK).
Qed.



(** *** Constructed objects

    [wf self] replays on the stored attributes the validation that the
    constructors of the source perform, together with what the classes
    document of their arguments without testing it: the array of a square
    class is square (its [shape] is taken from the rows alone), and the
    transposition flag of an [InverseLUFactoredSquareMatrix] is a
    boolean. *)

Definition is_square_array (a : ndarray) : bool := nrows a == ncols a.

Definition is_triangular_array (a : ndarray) (lower : bool) : bool :=
  if lower then is_trig_mx (mx_of a) else is_trig_mx (mx_of a)^T.

Definition distinct_sizes (sizes : seq (option nat)) : nat :=
  size (undup sizes).

Fixpoint wf (self : Matrix) : bool :=
  let wf_opt := fun m => if m is Some m' then wf m' else true in
  match self with
  | MatrixProduct ms => ~~ nilp ms && all wf ms
  | IdentityMatrix _ => true
  | ScaledIdentityMatrix_ positive scalar _ =>
      (scalar != 0) && (positive ==> (0 < scalar))
  | DiagonalMatrix_ positive diagonal =>
      positive ==> all (fun x => 0 < x) diagonal
  | TriangularMatrix array lower =>
      is_square_array array && is_triangular_array array lower
  | InverseTriangularMatrix inverse_array _ => is_square_array inverse_array
  | TriangularFactoredDefiniteMatrix_ positive factor sign =>
      [&& is_triangular factor, sign_is_unit sign,
          positive ==> (sign == 1) & wf factor]
  | DenseDefiniteMatrix_ positive array factor sign =>
      [&& is_square_array array, sign_is_unit sign,
          positive ==> (sign == 1) & wf_opt factor]
  | DensePositiveDefiniteProductMatrix rect pos_def array factor =>
      [&& is_square_array array, wf rect, wf pos_def & wf_opt factor]
  | DenseSquareMatrix array _ _ => is_square_array array
  | InverseLUFactoredSquareMatrix inv_array _ transposed =>
      is_square_array inv_array && isSome transposed
  | DenseSymmetricMatrix array eigvec _ =>
      is_square_array array && wf_opt eigvec
  | OrthogonalMatrix array | ScaledOrthogonalMatrix _ array =>
      is_square_array array
  | DenseRectangularMatrix _ => true
  | EigendecomposedMatrix_ cls eigvec eigval =>
      [&& returns (diag_eigval_init eigval),
          (if cls is EigSymmetric then true
           else all (fun x => 0 < x) eigval) & wf eigvec]
  | BlockDiagonalMatrix_ cls blocks =>
      [&& all is_SquareMatrix blocks,
          isSome (sum_sizes [seq (shape b).1 | b <- blocks]),
          match cls with
          | Square => true
          | Symmetric => all is_SymmetricMatrix blocks
          | PositiveDefinite =>
              all is_PositiveDefiniteMatrix blocks
              && all is_SymmetricMatrix blocks
          end & all wf blocks]
  | BlockRowMatrix blocks =>
      [&& ~~ nilp blocks,
          (distinct_sizes [seq (shape b).1 | b <- blocks] <= 1)%N,
          isSome (sum_sizes [seq (shape b).2 | b <- blocks]) & all wf blocks]
  | BlockColumnMatrix blocks =>
      [&& ~~ nilp blocks,
          (distinct_sizes [seq (shape b).2 | b <- blocks] <= 1)%N,
          isSome (sum_sizes [seq (shape b).1 | b <- blocks]) & all wf blocks]
  | LowRankUpdateMatrix_ cls L R Sq K cap _ =>
      [&& (shape Sq).1 == (shape L).1, (shape Sq).1 == (shape Sq).2,
          shape R == ((shape L).2, (shape L).1),
          shape K == ((shape L).2, (shape L).2),
          (if cls is Square then true
           else T_returns_self Sq && T_returns_self K),
          wf L, wf R, wf Sq, wf K & wf_opt cap]
  end.

(** The factorisations [T] asks the backend for: those of the
    [DenseSquareMatrix] objects it transposes that hold none. *)
Fixpoint lu_ready (self : Matrix) : bool :=
  let lu_ready_opt := fun m => if m is Some m' then lu_ready m' else true in
  match self with
  | DenseSquareMatrix array lu _ =>
      isSome lu || returns (lu_factor numeric array)
  | MatrixProduct ms => all lu_ready ms
  | BlockDiagonalMatrix_ Square blocks => all lu_ready blocks
  | BlockRowMatrix blocks => all lu_ready blocks
  | BlockColumnMatrix blocks => all lu_ready blocks
  | LowRankUpdateMatrix_ Square L R Sq K cap _ =>
      [&& lu_ready L, lu_ready R, lu_ready Sq, lu_ready K & lu_ready_opt cap]
  | _ => true
  end.

(** *** Objects that differ by memoised factorisations only

    [same A B]: [A] and [B] are one object up to the cached LU factorisation
    and transposition flag of the [DenseSquareMatrix] objects met through
    chains, blocks and square low-rank updates.  This is how [M.T.T] differs
    from [M]: [DenseSquareMatrix.T] computes and stores the factorisation. *)

Section All2.
Variables (A B : Type) (R : A -> B -> Prop).

Fixpoint all2P (xs : seq A) (ys : seq B) {struct xs} : Prop :=
  match xs, ys with
  | [::], [::] => True
  | x :: xs', y :: ys' => R x y /\ all2P xs' ys'
  | _, _ => False
  end.

Definition opt2P (x : option A) (y : option B) : Prop :=
  match x, y with
  | None, None => True
  | Some a, Some b => R a b
  | _, _ => False
  end.

End All2.

Fixpoint same (A B : Matrix) {struct A} : Prop :=
  match A with
  | MatrixProduct ms =>
      if B is MatrixProduct ms' then all2P same ms ms' else False
  | DenseSquareMatrix array _ _ =>
      if B is DenseSquareMatrix array' _ _ then array = array' else False
  | BlockDiagonalMatrix_ Square blocks =>
      if B is BlockDiagonalMatrix_ Square blocks'
      then all2P same blocks blocks' else False
  | BlockRowMatrix blocks =>
      if B is BlockRowMatrix blocks' then all2P same blocks blocks' else False
  | BlockColumnMatrix blocks =>
      if B is BlockColumnMatrix blocks' then all2P same blocks blocks'
      else False
  | LowRankUpdateMatrix_ Square L R Sq K cap sign =>
      if B is LowRankUpdateMatrix_ Square L' R' Sq' K' cap' sign'
      then [/\ same L L', same R R', same Sq Sq', same K K' &
               opt2P same cap cap' /\ sign = sign']
      else False
  | _ => A = B
  end.

(** Results that raise the same exception or return related values. *)
Definition result2P (X Y : Type) (R : X -> Y -> Prop) (r : result X)
    (r' : result Y) : Prop :=
  match r, r' with
  | Ok x, Ok y => R x y
  | Raise e, Raise e' => e = e'
  | _, _ => False
  end.

Ltac matrix_induction A :=
  elim/Matrix_induction: A =>
    [ ms IHms | size | p c size | p d | a l | a l | p f s IHf | p a f s IHf
    | r pd a f IHr IHpd IHf | a lu t | a lu t | a v e IHv | a | c a
    | cls v e IHv | cls bs IHbs | a | bs IHbs | bs IHbs
    | cls L R Sq K cap s IHL IHR IHS IHK IHcap ].

Lemma all2P_refl (ms : seq Matrix) :
  Pseq (fun m => same m m) ms -> all2P same ms ms.
Proof. by elim: ms => [|m ms IH] //= [mm /IH]. Qed.

Lemma same_refl (A : Matrix) : same A A.
Proof.
matrix_induction A => //=; try exact: all2P_refl.
- by case: cls => //; exact: all2P_refl.
- by case: cls => //; split=> //; split=> //; case: cap IHcap.
Qed.

(** A function that [same] objects agree on agrees along [same]
    sequences. *)
Lemma all2P_map (X : Type) (f : Matrix -> X) (ms ms' : seq Matrix) :
  Pseq (fun m => forall m', same m m' -> f m = f m') ms ->
  all2P same ms ms' -> map f ms = map f ms'.
Proof.
elim: ms ms' => [|m ms IH] [|m' ms'] //= [Hm Hms] [mm' /(IH _ Hms) ->].
by rewrite (Hm _ mm').
Qed.

Lemma all2P_size (ms ms' : seq Matrix) :
  all2P same ms ms' -> size ms = size ms'.
Proof. by elim: ms ms' => [|m ms IH] [|m' ms'] //= [_ /IH ->]. Qed.

Lemma same_shape (A B : Matrix) : same A B -> shape A = shape B.
Proof.
move: B; matrix_induction A => /= B; try by move=> <-.
- by case: B => //= ms' /(all2P_map IHms) ->.
- by case: B => //= a' lu' t' ->.
- case: cls; try by move=> <-.
  by case: B => // -[] //= bs' /(all2P_map IHbs) ->.
- by case: B => //= bs' /(all2P_map IHbs) ->.
- by case: B => //= bs' /(all2P_map IHbs) ->.
- case: cls; try by move=> <-.
  by case: B => // -[] //= L' R' Sq' K' cap' s' [/IHL ->].
Qed.

Lemma same_height (A B : Matrix) : same A B -> height A = height B.
Proof.
move: B; matrix_induction A => /= B; try by move=> <-.
- by case: B => //= ms' /(all2P_map IHms) ->.
- by case: B.
- case: cls; try by move=> <-.
  by case: B => // -[] //= bs' /(all2P_map IHbs) ->.
- by case: B => //= bs' /(all2P_map IHbs) ->.
- by case: B => //= bs' /(all2P_map IHbs) ->.
- case: cls; try by move=> <-.
  case: B => // -[] //= L' R' Sq' K' cap' s'.
  case=> /IHL -> /IHR -> /IHS -> /IHK -> [scap _].
  by case: cap cap' IHcap scap => [c|] [c'|] //= IHc /IHc ->.
Qed.

Ltac destruct_class :=
  repeat match goal with c : structure_class |- _ => destruct c end.

Ltac same_head A B :=
  case: A => /=; intros; destruct_class; simpl in *;
  try (subst; reflexivity); destruct B; destruct_class; simpl in *;
  try contradiction; try reflexivity.

Lemma same_is_SquareMatrix (A B : Matrix) :
  same A B -> is_SquareMatrix A = is_SquareMatrix B.
Proof. by same_head A B. Qed.

Lemma same_is_SymmetricMatrix (A B : Matrix) :
  same A B -> is_SymmetricMatrix A = is_SymmetricMatrix B.
Proof. by same_head A B. Qed.

Lemma same_is_PositiveDefiniteMatrix (A B : Matrix) :
  same A B -> is_PositiveDefiniteMatrix A = is_PositiveDefiniteMatrix B.
Proof. by same_head A B. Qed.

Lemma same_map (X : Type) (f : Matrix -> X) (ms ms' : seq Matrix) :
  (forall m m', same m m' -> f m = f m') ->
  all2P same ms ms' -> map f ms = map f ms'.
Proof.
move=> Hf; elim: ms ms' => [|m ms IH] [|m' ms'] //= [mm' /IH ->].
by rewrite (Hf _ _ mm').
Qed.

Lemma same_all (p : Matrix -> bool) (ms ms' : seq Matrix) :
  (forall m m', same m m' -> p m = p m') ->
  all2P same ms ms' -> all p ms = all p ms'.
Proof.
move=> Hp; elim: ms ms' => [|m ms IH] [|m' ms'] //= [mm' /IH ->].
by rewrite (Hp _ _ mm').
Qed.

Lemma same_nilp (ms ms' : seq Matrix) :
  all2P same ms ms' -> nilp ms = nilp ms'.
Proof. by case: ms ms' => [|m ms] [|m' ms']. Qed.

(** *** Related results *)

Definition same_returned (r r' : returned) : Prop :=
  match r, r' with
  | Self, Self => True
  | New A, New B => same A B
  | _, _ => False
  end.

Lemma result2P_refl (X : Type) (R : X -> X -> Prop) (r : result X) :
  (forall x, R x x) -> result2P R r r.
Proof. by case: r => /=. Qed.

Lemma result2P_bind (X Y X' Y' : Type) (R : X -> Y -> Prop)
    (R' : X' -> Y' -> Prop) (r : result X) (r' : result Y)
    (k : X -> result X') (k' : Y -> result Y') :
  result2P R r r' ->
  (forall x y, R x y -> result2P R' (k x) (k' y)) ->
  result2P R' (bind r k) (bind r' k').
Proof. by case: r r' => [x|e] [y|e'] //= Rxy; apply. Qed.

Lemma result2P_new (r r' : result Matrix) :
  result2P same r r' -> result2P same_returned (new r) (new r').
Proof. by case: r r' => [x|e] [y|e']. Qed.

Lemma result2P_eq (X : Type) (r r' : result X) :
  result2P eq r r' -> r = r'.
Proof. by case: r r' => [x|e] [y|e'] //= ->. Qed.

Lemma result2P_mapM (f f' : Matrix -> result Matrix) (ms ms' : seq Matrix) :
  Pseq (fun m => forall m', same m m' -> result2P same (f m) (f' m')) ms ->
  all2P same ms ms' ->
  result2P (all2P same) (mapM f ms) (mapM f' ms').
Proof.
elim: ms ms' => [|m ms IH] [|m' ms'] //= [Hm Hms] [mm' sms].
apply: result2P_bind (Hm _ mm') _ => x y sxy.
by apply: result2P_bind (IH _ Hms sms) _ => xs ys sxs.
Qed.

Lemma result2P_omapM (f f' : Matrix -> result Matrix) (m m' : option Matrix) :
  Popt (fun m => forall m', same m m' -> result2P same (f m) (f' m')) m ->
  opt2P same m m' ->
  result2P (opt2P same) (omapM f m) (omapM f' m').
Proof.
case: m m' => [a|] [b|] //= Ha sab.
by apply: result2P_bind (Ha _ sab) _.
Qed.

(** *** Constructors respect [same] *)

Lemma same_rows (A B : Matrix) : same A B -> (shape A).1 = (shape B).1.
Proof. by move/same_shape->. Qed.

Lemma same_cols (A B : Matrix) : same A B -> (shape A).2 = (shape B).2.
Proof. by move/same_shape->. Qed.

Lemma same_MatrixProduct_init (ms ms' : seq Matrix) :
  all2P same ms ms' ->
  result2P same (MatrixProduct_init ms) (MatrixProduct_init ms').
Proof. by case: ms ms' => [|m ms] [|m' ms']. Qed.

Lemma same_SquareBlockDiagonalMatrix_init (bs bs' : seq Matrix) :
  all2P same bs bs' ->
  result2P same (SquareBlockDiagonalMatrix_init bs)
    (SquareBlockDiagonalMatrix_init bs').
Proof.
move=> sbs; rewrite /SquareBlockDiagonalMatrix_init.
rewrite /SquareBlockDiagonalMatrix_init_.
rewrite (same_all same_is_SquareMatrix sbs).
rewrite (same_map same_rows sbs).
by case: (all _ _) => //=; case: sum_sizes.
Qed.

Lemma same_BlockRowMatrix_init (bs bs' : seq Matrix) :
  all2P same bs bs' ->
  result2P same (BlockRowMatrix_init bs) (BlockRowMatrix_init bs').
Proof.
move=> sbs; rewrite /BlockRowMatrix_init.
rewrite (same_map same_rows sbs).
rewrite (same_map same_cols sbs).
case: (_ < _)%N => //; case: (sum_sizes _) => [n|];
  by case: bs bs' sbs => [|b bs] [|b' bs'].
Qed.

Lemma same_BlockColumnMatrix_init (bs bs' : seq Matrix) :
  all2P same bs bs' ->
  result2P same (BlockColumnMatrix_init bs) (BlockColumnMatrix_init bs').
Proof.
move=> sbs; rewrite /BlockColumnMatrix_init.
rewrite (same_map same_rows sbs).
rewrite (same_map same_cols sbs).
case: (_ < _)%N => //; case: sum_sizes => //.
by case: bs bs' sbs => [|b bs] [|b' bs'].
Qed.

Lemma same_SquareLowRankUpdateMatrix_init (L L' R R' Sq Sq' K K' : Matrix)
    (cap cap' : option Matrix) (sign : F) :
  same L L' -> same R R' -> same Sq Sq' -> same K K' -> opt2P same cap cap' ->
  result2P same
    (SquareLowRankUpdateMatrix_init L R Sq (Some K) cap sign)
    (SquareLowRankUpdateMatrix_init L' R' Sq' (Some K') cap' sign).
Proof.
move=> sL sR sS sK scap; rewrite /SquareLowRankUpdateMatrix_init.
rewrite /SquareLowRankUpdateMatrix_init_.
rewrite (same_shape sL) (same_shape sR) (same_shape sS) (same_shape sK).
case: (shape L') => o i; do 3![case: (_ != _) => //] => /=.
by case: (_ != _).
Qed.

(** *** Scalar multiplication respects [same] *)

Lemma Pseq_impl (P Q : Matrix -> Prop) (ms : seq Matrix) :
  (forall m, P m -> Q m) -> Pseq P ms -> Pseq Q ms.
Proof. by move=> PQ; elim: ms => [|m ms IH] //= [/PQ Qm /IH]. Qed.

Lemma same_object (A B : Matrix) (r r' : returned) :
  same A B -> same_returned r r' -> same (object A r) (object B r').
Proof. by case: r r' => [|x] [|y]. Qed.

Lemma same_returned_refl (r : returned) : same_returned r r.
Proof. by case: r => //= x; exact: same_refl. Qed.

Lemma np_add_triu (old : ndarray) (c : F) :
  exists new_lu, np_add old (np_scale c (np_triu old)) = Ok new_lu.
Proof. by rewrite /np_add /= !eqxx /=; eexists. Qed.

Definition scalar_multiply_respects_same (A : Matrix) : Prop :=
  forall B scalar, same A B ->
  result2P same_returned (_scalar_multiply A scalar) (_scalar_multiply B scalar).

Lemma same_mul (A B : Matrix) (other : F) :
  scalar_multiply_respects_same A -> same A B ->
  result2P same
    (if other == 0 then Raise NotImplementedError
     else r <- _scalar_multiply A other ;; Ok (object A r))
    (if other == 0 then Raise NotImplementedError
     else r <- _scalar_multiply B other ;; Ok (object B r)).
Proof.
move=> HA sAB; case: ifP => // _.
apply: result2P_bind (HA _ _ sAB) _ => r r' srr' /=.
exact: same_object.
Qed.

Lemma DenseSquareMatrix_scalar_multiply (a : ndarray)
    (lu : option lu_and_piv) (t : option bool) (scalar : F) :
  exists lu' t',
    _scalar_multiply (DenseSquareMatrix a lu t) scalar =
    Ok (New (DenseSquareMatrix (np_scale scalar a) lu' t')).
Proof.
case: lu => [[old piv]|]; case: t => [t|] /=; try by eexists; eexists.
by case: (np_add_triu old (scalar - 1)) => new_lu -> /=; eexists; eexists.
Qed.

Ltac same_leaf R_refl :=
  let E := fresh "E" in
  intro E; simpl in E; subst; apply: result2P_refl; exact: R_refl.

Lemma same__scalar_multiply (A : Matrix) : scalar_multiply_respects_same A.
Proof.
rewrite /scalar_multiply_respects_same.
matrix_induction A => B scalar; try by same_leaf same_returned_refl.
- case: B => //= ms' sms; rewrite (same_map same_shape sms).
  case: (ScaledIdentityMatrix_init _ _) => [si|e] //=.
  by split=> //; exact: same_refl.
- case: B => // a' lu' t' E; simpl in E; subst a'.
  have [l1 [t1 ->]] := DenseSquareMatrix_scalar_multiply a lu t scalar.
  by have [l2 [t2 ->]] := DenseSquareMatrix_scalar_multiply a lu' t' scalar.
- case: cls IHbs => IHbs; try by same_leaf same_returned_refl.
  case: B => // -[] //= bs' sbs.
  apply: (@result2P_bind _ _ _ _ (all2P same)).
    apply: result2P_mapM sbs; apply: Pseq_impl IHbs => m Hm m' smm'.
    exact: same_mul.
  move=> xs ys sxy; apply: result2P_new.
  exact: same_SquareBlockDiagonalMatrix_init.
- case: B => //= bs' sbs.
  apply: (@result2P_bind _ _ _ _ (all2P same)).
    apply: result2P_mapM sbs; apply: Pseq_impl IHbs => m Hm m' smm'.
    exact: same_mul.
  move=> xs ys sxy; apply: result2P_new.
  exact: same_BlockRowMatrix_init.
- case: B => //= bs' sbs.
  apply: (@result2P_bind _ _ _ _ (all2P same)).
    apply: result2P_mapM sbs; apply: Pseq_impl IHbs => m Hm m' smm'.
    exact: same_mul.
  move=> xs ys sxy; apply: result2P_new.
  exact: same_BlockColumnMatrix_init.
- case: cls; try by same_leaf same_returned_refl.
  case: B => // -[] //= L' R' Sq' K' cap' s' [sL sR sS sK [scap <-]].
  apply: (@result2P_bind _ _ _ _ same); first exact: same_mul.
  move=> sq sq' ssq.
  apply: (@result2P_bind _ _ _ _ same); first exact: same_mul.
  move=> k k' sk.
  apply: (@result2P_bind _ _ _ _ (opt2P same)).
    apply: result2P_omapM scap.
    case: cap IHcap => [c|] //= IHc m' scm'.
    case: ifP => // _.
    apply: result2P_bind (IHc _ _ scm') _ => r r' srr' /=.
    exact: same_object.
  move=> c c' scc'; apply: result2P_new.
  exact: same_SquareLowRankUpdateMatrix_init.
Qed.

Lemma same_mul_object (A B : Matrix) (scalar : F) :
  same A B -> result2P same (mul_object A scalar) (mul_object B scalar).
Proof.
move=> sAB; rewrite /mul_object /__rmul__ /__mul__.
case: ifP => //= _.
apply: result2P_bind (same__scalar_multiply scalar sAB) _ => r r' srr' /=.
exact: same_object.
Qed.

(** *** Multiplication and the dense representation respect [same] *)

Lemma same_matmul_mismatch (A B : Matrix) (n : option nat) :
  same A B -> matmul_mismatch A n = matmul_mismatch B n.
Proof. by rewrite /matmul_mismatch => /same_shape ->. Qed.

Lemma same_rmatmul_mismatch (A B : Matrix) (n : option nat) :
  same A B -> rmatmul_mismatch A n = rmatmul_mismatch B n.
Proof. by rewrite /rmatmul_mismatch => /same_shape ->. Qed.

Section SameMapM.
Variables X Y : Type.

Lemma same_mapM_zip (g g' : Matrix * X -> result Y) (ms ms' : seq Matrix)
    (xs : seq X) :
  (forall m m' x, same m m' -> g (m, x) = g' (m', x)) ->
  all2P same ms ms' -> mapM g (zip ms xs) = mapM g' (zip ms' xs).
Proof.
move=> gg'; elim: ms ms' xs => [|m ms IH] [|m' ms'] [|x xs] //= [mm' sms].
by rewrite (gg' _ _ _ mm') (IH _ _ sms).
Qed.

Lemma same_mapM (g g' : Matrix -> result Y) (ms ms' : seq Matrix) :
  (forall m m', same m m' -> g m = g' m') ->
  all2P same ms ms' -> mapM g ms = mapM g' ms'.
Proof.
move=> gg'; elim: ms ms' => [|m ms IH] [|m' ms'] //= [mm' sms].
by rewrite (gg' _ _ mm') (IH _ sms).
Qed.

Lemma Pseq_mapM (g : Matrix -> result Y) (ms ms' : seq Matrix) :
  Pseq (fun m => forall m', same m m' -> g m = g m') ms ->
  all2P same ms ms' -> mapM g ms = mapM g ms'.
Proof.
elim: ms ms' => [|m ms IH] [|m' ms'] //= [Hm Hms] [mm' sms].
by rewrite (Hm _ mm') (IH _ Hms sms).
Qed.

End SameMapM.

Ltac matrix_cases A :=
  case: A =>
    [ ms | size | p c size | p d | a l | a l | p f s | p a f s
    | r pd a f | a lu t | a lu t | a v e | a | c a
    | cls v e | cls bs | a | bs | bs | cls L R Sq K cap s ].

Ltac same_leaf_eq :=
  let E := fresh "E" in intro E; simpl in E; subst; reflexivity.

Lemma same__left_matrix_multiply_ (depth : nat) (A B : Matrix)
    (other : ndarray) :
  same A B ->
  _left_matrix_multiply_ depth A other = _left_matrix_multiply_ depth B other.
Proof.
elim: depth A B other => [|n IH] A B x //.
have Hmm (m m' : Matrix) (c : option nat) (y : ndarray) : same m m' ->
    (if matmul_mismatch m c then Raise ValueError
     else _left_matrix_multiply_ n m y) =
    (if matmul_mismatch m' c then Raise ValueError
     else _left_matrix_multiply_ n m' y).
  by move=> s; rewrite (same_matmul_mismatch _ s) (IH _ _ _ s).
matrix_cases A; try by same_leaf_eq.
- case: B => //= ms' sms.
  elim: ms ms' sms => [|m ms IHms] [|m' ms'] //= [mm' /IHms ->].
  by case: (foldr _ _ _) => //= y; exact: Hmm.
- by case: B => //= a' lu' t' ->.
- case: cls; try by same_leaf_eq.
  case: B => // -[] //= bs' sbs.
  rewrite (same_map same_shape sbs) (same_map same_rows sbs).
  case: (_ != _) => //; congr (bind _ _).
  by apply: same_mapM_zip sbs => m m' y s /=; exact: Hmm.
- case: B => //= bs' sbs.
  rewrite (same_map same_shape sbs) (same_map same_cols sbs).
  case: (_ != _) => //; congr (bind _ _).
  by apply: same_mapM_zip sbs => m m' y s /=; exact: Hmm.
- case: B => //= bs' sbs; congr (bind _ _).
  by apply: same_mapM sbs => m m' s /=; exact: Hmm.
- case: cls; try by same_leaf_eq.
  case: B => // -[] //= L' R' Sq' K' cap' s' [sL sR sS sK [scap <-]].
  rewrite (Hmm _ _ _ _ sS); case: (if _ then _ else _) => //= y.
  have := same_mul_object s sL.
  case: (mul_object L s) (mul_object L' s) => [sl|e] [sl'|e'] //=; last first.
    by move=> ->.
  move=> ssl; rewrite (Hmm _ _ _ _ sR); case: (if _ then _ else _) => //= r1.
  rewrite (Hmm _ _ _ _ sK); case: (if _ then _ else _) => //= r2.
  by rewrite (Hmm _ _ _ _ ssl).
Qed.

Lemma same__right_matrix_multiply_ (depth : nat) (A B : Matrix)
    (other : ndarray) :
  same A B ->
  _right_matrix_multiply_ depth A other =
  _right_matrix_multiply_ depth B other.
Proof.
elim: depth A B other => [|n IH] A B x //.
have Hrm (m m' : Matrix) (c : option nat) (y : ndarray) : same m m' ->
    (if rmatmul_mismatch m c then Raise ValueError
     else _right_matrix_multiply_ n m y) =
    (if rmatmul_mismatch m' c then Raise ValueError
     else _right_matrix_multiply_ n m' y).
  by move=> s; rewrite (same_rmatmul_mismatch _ s) (IH _ _ _ s).
matrix_cases A; try by same_leaf_eq.
- case: B => //= ms' sms.
  elim: ms ms' (Ok x) sms => [|m ms IHms] [|m' ms'] //= acc [mm' sms].
  rewrite -(IHms _ _ sms); congr (foldl _ _ _).
  by case: acc => //= y; exact: Hrm.
- by case: B => //= a' lu' t' ->.
- case: cls; try by same_leaf_eq.
  case: B => // -[] //= bs' sbs.
  rewrite (same_map same_shape sbs) (same_map same_rows sbs).
  case: (_ != _) => //; congr (bind _ _).
  by apply: same_mapM_zip sbs => m m' y s /=; exact: Hrm.
- case: B => //= bs' sbs; congr (bind _ _).
  by apply: same_mapM sbs => m m' s /=; exact: Hrm.
- case: B => //= bs' sbs.
  rewrite (same_map same_shape sbs) (same_map same_rows sbs).
  case: (_ != _) => //; congr (bind _ _).
  by apply: same_mapM_zip sbs => m m' y s /=; exact: Hrm.
- case: cls; try by same_leaf_eq.
  case: B => // -[] //= L' R' Sq' K' cap' s' [sL sR sS sK [scap <-]].
  rewrite (Hrm _ _ _ _ sS); case: (if _ then _ else _) => //= y.
  rewrite (Hrm _ _ _ _ sL); case: (if _ then _ else _) => //= r1.
  rewrite (Hrm _ _ _ _ sK); case: (if _ then _ else _) => //= r2.
  by rewrite (Hrm _ _ _ _ sR).
Qed.

Lemma same_matmul_array (A B : Matrix) (x : ndarray) :
  same A B ->
  matmul_array (OMatrix A) (OArray x) = matmul_array (OMatrix B) (OArray x).
Proof.
move=> s; rewrite /matmul_array /matmul /__matmul__ /_left_matrix_multiply.
rewrite (same_matmul_mismatch _ s) (same_height s).
by rewrite (same__left_matrix_multiply_ _ _ s).
Qed.

Lemma same_rmatmul_array (A B : Matrix) (x : ndarray) :
  same A B ->
  matmul_array (OArray x) (OMatrix A) = matmul_array (OArray x) (OMatrix B).
Proof.
move=> s; rewrite /matmul_array /matmul /__rmatmul__ /_right_matrix_multiply.
rewrite (same_rmatmul_mismatch _ s) (same_height s).
by rewrite (same__right_matrix_multiply_ _ _ s).
Qed.

Lemma same_array (A B : Matrix) : same A B -> array A = array B.
Proof.
move: B; matrix_induction A => B; try by same_leaf_eq.
- case: B => // ms' /=.
  case: ms IHms => [|m rest]; case: ms' => [|m' rest'] //=.
  move=> [IHm _] [smm' srest]; rewrite (IHm _ smm').
  case: (array m') => //= y.
  have := same_MatrixProduct_init srest.
  case: (MatrixProduct_init rest) (MatrixProduct_init rest')
    => [P|e] [P'|e'] //=; last by move=> ->.
  exact: same_rmatmul_array.
- by case: B => //= a' lu' t' ->.
- case: cls IHbs => IHbs; try by same_leaf_eq.
  by case: B => // -[] //= bs' sbs; rewrite (Pseq_mapM IHbs sbs).
- by case: B => //= bs' sbs; rewrite (Pseq_mapM IHbs sbs).
- by case: B => //= bs' sbs; rewrite (Pseq_mapM IHbs sbs).
- case: cls; try by same_leaf_eq.
  case: B => // -[] //= L' R' Sq' K' cap' s' [sL sR sS sK [scap <-]].
  rewrite (IHS _ sS); case: (array Sq') => //= sa.
  have := same_mul_object s sL.
  case: (mul_object L s) (mul_object L' s) => [sl|e] [sl'|e'] //=; last first.
    by move=> ->.
  move=> ssl; rewrite (IHR _ sR); case: (array R') => //= ra.
  rewrite (same_matmul_array _ sK); case: (matmul_array _ _) => //= y.
  by rewrite (same_matmul_array _ ssl).
Qed.

(** *** The transpose of a transpose *)

Definition swap_shape (s : shape_t) : shape_t := (s.2, s.1).

Lemma np_tril_triangular (a : ndarray) :
  is_trig_mx (mx_of a) -> np_tril a = a.
Proof.
case: a => m n A /= /is_trig_mxP trigA; rewrite /np_tril /=; congr NdArray.
apply/matrixP => i j; rewrite mxE; case: leqP => // lt_ij.
by rewrite trigA.
Qed.

Lemma np_triu_triangular (a : ndarray) :
  is_trig_mx (mx_of a)^T -> np_triu a = a.
Proof.
move=> trigA; rewrite -[in LHS](np_T_involutive a) -np_T_tril.
by rewrite np_tril_triangular ?np_T_involutive.
Qed.

Lemma np_tril_is_triangular (a : ndarray) :
  is_triangular_array (np_tril a) true.
Proof.
by apply/is_trig_mxP => i j lt_ij; rewrite mxE leqNgt lt_ij.
Qed.

Lemma mapM_rcons (X Y : Type) (f : X -> result Y) (xs : seq X) (x : X) :
  mapM f (rcons xs x) = (ys <- mapM f xs ;; y <- f x ;; Ok (rcons ys y)).
Proof.
elim: xs => [|x0 xs IH] /=; first by case: (f x).
by rewrite IH; case: (f x0) => //= y0; case: (mapM f xs) => //= ys; case: (f x).
Qed.

Lemma mapM_revE (X Y : Type) (f : X -> result Y) (xs : seq X) :
  mapM_rev f xs = mapM f (rev xs).
Proof. by elim: xs => [|x xs IH] //=; rewrite rev_cons mapM_rcons IH. Qed.

Lemma mapM_rev_Ok (X Y : Type) (f : X -> result Y) (xs : seq X)
    (ys : seq Y) :
  mapM f xs = Ok ys -> mapM f (rev xs) = Ok (rev ys).
Proof.
elim: xs ys => [|x xs IH] ys /=; first by case=> <-.
case Ex: (f x) => [y|] //=; case: (mapM f xs) IH => //= ys' IH [<-].
by rewrite !rev_cons mapM_rcons (IH ys') //= Ex.
Qed.

Lemma head_rev (X : Type) (d : X) (s : seq X) : head d (rev s) = last d s.
Proof.
by elim/last_ind: s => [|s x _] //; rewrite rev_rcons last_rcons.
Qed.

Lemma last_rev (X : Type) (d : X) (s : seq X) : last d (rev s) = head d s.
Proof. by case: s => [|x s] //; rewrite rev_cons last_rcons. Qed.

(** [T] on the composite classes, through [T_object] on the
    constituents. *)
Lemma T_object_MatrixProduct (ms : seq Matrix) :
  T_object (MatrixProduct ms) =
  (ts <- mapM T_object (rev ms) ;; MatrixProduct_init ts).
Proof.
rewrite /T_object /= mapM_revE; case: (mapM _ _) => //= ts.
by rewrite /new; case: (MatrixProduct_init ts).
Qed.

Lemma T_object_SquareBlockDiagonalMatrix (bs : seq Matrix) :
  T_object (SquareBlockDiagonalMatrix bs) =
  (ts <- mapM T_object bs ;; SquareBlockDiagonalMatrix_init ts).
Proof.
rewrite /T_object /=; case: (mapM _ _) => //= ts.
by rewrite /new; case: (SquareBlockDiagonalMatrix_init ts).
Qed.

Lemma T_object_BlockRowMatrix (bs : seq Matrix) :
  T_object (BlockRowMatrix bs) =
  (ts <- mapM T_object bs ;; BlockColumnMatrix_init ts).
Proof.
rewrite /T_object /=; case: (mapM _ _) => //= ts.
by rewrite /new; case: (BlockColumnMatrix_init ts).
Qed.

Lemma T_object_BlockColumnMatrix (bs : seq Matrix) :
  T_object (BlockColumnMatrix bs) =
  (ts <- mapM T_object bs ;; BlockRowMatrix_init ts).
Proof.
rewrite /T_object /=; case: (mapM _ _) => //= ts.
by rewrite /new; case: (BlockRowMatrix_init ts).
Qed.

Lemma T_object_SquareLowRankUpdateMatrix (L R Sq K : Matrix)
    (cap : option Matrix) (sign : F) :
  T_object (SquareLowRankUpdateMatrix L R Sq K cap sign) =
  (rt <- T_object R ;; lt <- T_object L ;; st <- T_object Sq ;;
   kt <- T_object K ;; ct <- omapM T_object cap ;;
   SquareLowRankUpdateMatrix_init rt lt st (Some kt) ct sign).
Proof.
rewrite /T_object /=.
case: (T R) => //= rt; case: (T L) => //= lt; case: (T Sq) => //= st.
case: (T K) => //= kt; case: (omapM _ _) => //= ct.
by rewrite /new; case: (SquareLowRankUpdateMatrix_init _ _ _ _ _ _).
Qed.

Lemma square_shape_cols (M : Matrix) :
  is_SquareMatrix M -> (shape M).2 = (shape M).1.
Proof. by case: M. Qed.

(** Constructors on validated attributes. *)
Lemma MatrixProduct_init_Ok (ms : seq Matrix) :
  ~~ nilp ms -> MatrixProduct_init ms = Ok (MatrixProduct ms).
Proof. by case: ms. Qed.

Lemma SquareBlockDiagonalMatrix_init_Ok (bs : seq Matrix) :
  all is_SquareMatrix bs -> isSome (sum_sizes [seq (shape b).1 | b <- bs]) ->
  SquareBlockDiagonalMatrix_init bs = Ok (SquareBlockDiagonalMatrix bs).
Proof.
rewrite /SquareBlockDiagonalMatrix_init /SquareBlockDiagonalMatrix_init_.
by move=> -> /=; case: (sum_sizes _).
Qed.

Lemma BlockRowMatrix_init_Ok (bs : seq Matrix) :
  ~~ nilp bs -> (distinct_sizes [seq (shape b).1 | b <- bs] <= 1)%N ->
  isSome (sum_sizes [seq (shape b).2 | b <- bs]) ->
  BlockRowMatrix_init bs = Ok (BlockRowMatrix bs).
Proof.
rewrite /BlockRowMatrix_init /distinct_sizes => nbs.
rewrite leqNgt => /negbTE ->; case: (sum_sizes _) => // n _.
by case: bs nbs.
Qed.

Lemma BlockColumnMatrix_init_Ok (bs : seq Matrix) :
  ~~ nilp bs -> (distinct_sizes [seq (shape b).2 | b <- bs] <= 1)%N ->
  isSome (sum_sizes [seq (shape b).1 | b <- bs]) ->
  BlockColumnMatrix_init bs = Ok (BlockColumnMatrix bs).
Proof.
rewrite /BlockColumnMatrix_init /distinct_sizes => nbs.
rewrite leqNgt => /negbTE ->; case: (sum_sizes _) => // n _.
by case: bs nbs.
Qed.

Lemma SquareLowRankUpdateMatrix_init_Ok (L R Sq K : Matrix)
    (cap : option Matrix) (sign : F) :
  (shape Sq).1 = (shape L).1 -> (shape Sq).1 = (shape Sq).2 ->
  shape R = ((shape L).2, (shape L).1) ->
  shape K = ((shape L).2, (shape L).2) ->
  SquareLowRankUpdateMatrix_init L R Sq (Some K) cap sign =
  Ok (SquareLowRankUpdateMatrix L R Sq K cap sign).
Proof.
rewrite /SquareLowRankUpdateMatrix_init /SquareLowRankUpdateMatrix_init_.
case: (shape L) => o i /= <- <- -> ->.
by rewrite !eqxx.
Qed.

(** Shapes along a sequence of transposed blocks. *)
Section TransposedBlocks.
Variables ts bs : seq Matrix.
Hypothesis shapes : map shape ts = [seq swap_shape (shape b) | b <- bs].

Lemma transposed_rows :
  [seq (shape t).1 | t <- ts] = [seq (shape b).2 | b <- bs].
Proof.
by elim: ts bs shapes => [|t ts' IH] [|b bs'] //= [-> /IH ->].
Qed.

Lemma transposed_cols :
  [seq (shape t).2 | t <- ts] = [seq (shape b).1 | b <- bs].
Proof.
by elim: ts bs shapes => [|t ts' IH] [|b bs'] //= [-> /IH ->].
Qed.

Lemma transposed_nilp : nilp ts = nilp bs.
Proof. by case: ts bs shapes => [|t ts'] [|b bs']. Qed.

End TransposedBlocks.

Lemma same_all_map (p : Matrix -> bool) (ts bs : seq Matrix) :
  map p ts = map p bs -> all p ts = all p bs.
Proof. by elim: ts bs => [|t ts IH] [|b bs] //= [-> /IH ->]. Qed.

Lemma square_cols_map (bs : seq Matrix) :
  all is_SquareMatrix bs ->
  [seq (shape b).2 | b <- bs] = [seq (shape b).1 | b <- bs].
Proof.
by elim: bs => [|b bs IH] //= /andP[/square_shape_cols -> /IH ->].
Qed.

Lemma swap_head_last (s : seq shape_t) :
  ((last (None, None) (map swap_shape s)).1,
   (head (None, None) (map swap_shape s)).2) =
  swap_shape ((head (None, None) s).1, (last (None, None) s).2).
Proof. by case: s => [|x s] //=; rewrite (last_map swap_shape s x). Qed.

(** [M.T] returns [M1] of the transposed shape, and [M1.T] returns an
    object that is [M] up to memoised factorisations. *)
Definition T_round_trip (M : Matrix) : Prop :=
  wf M -> lu_ready M ->
  exists M1 M2,
    [/\ T_object M = Ok M1, shape M1 = swap_shape (shape M),
        is_SquareMatrix M1 = is_SquareMatrix M,
        T_object M1 = Ok M2 & same M2 M].

Lemma mapM_T_round_trip (bs : seq Matrix) :
  Pseq T_round_trip bs -> all wf bs -> all lu_ready bs ->
  exists ts bs2,
    [/\ mapM T_object bs = Ok ts,
        map shape ts = [seq swap_shape (shape b) | b <- bs],
        map is_SquareMatrix ts = map is_SquareMatrix bs,
        mapM T_object ts = Ok bs2 & all2P same bs2 bs].
Proof.
elim: bs => [|b bs IH] /=; first by exists [::], [::].
case=> Hb /IH{}IH /andP[wb /IH{}IH] /andP[lb /IH[ts [bs2 [Ets Es Eq Ebs Hs]]]].
have [t [b2 [Et Esh Esq Eb2 sb]]] := Hb wb lb.
exists (t :: ts), (b2 :: bs2); split=> //=.
- by rewrite Et /= Ets.
- by rewrite Esh Es.
- by rewrite Esq Eq.
- by rewrite Eb2 /= Ebs.
Qed.

Lemma omapM_T_round_trip (cap : option Matrix) :
  Popt T_round_trip cap ->
  (if cap is Some c then wf c else true) ->
  (if cap is Some c then lu_ready c else true) ->
  exists ct c2,
    [/\ omapM T_object cap = Ok ct, omapM T_object ct = Ok c2 &
        opt2P same c2 cap].
Proof.
case: cap => [c|] /=; last by exists None, None.
move=> Hc wc lc; have [t [c2 [Et _ _ Ec2 sc]]] := Hc wc lc.
by exists (Some t), (Some c2); split; rewrite /= ?Et ?Ec2.
Qed.

Ltac T_returns_receiver :=
  by move=> *; eexists _, _; split;
     [ rewrite /T_object /=; reflexivity | | | rewrite /T_object /=; reflexivity
     | exact: same_refl ].

Lemma T_round_trip_holds (M : Matrix) : T_round_trip M.
Proof.
matrix_induction M; rewrite /T_round_trip; try T_returns_receiver.
- (* MatrixProduct *)
  move=> /= /andP[nms wms] lms.
  have [ts [bs2 [Ets Esh Esq Ebs2 sbs]]] := mapM_T_round_trip IHms wms lms.
  have nts : ~~ nilp (rev ts).
    by rewrite /nilp size_rev -/(nilp ts) (transposed_nilp Esh).
  have nbs2 : ~~ nilp bs2 by rewrite (same_nilp sbs).
  exists (MatrixProduct (rev ts)), (MatrixProduct bs2); split=> //.
  + by rewrite T_object_MatrixProduct (mapM_rev_Ok Ets) /= MatrixProduct_init_Ok.
  + rewrite /= map_rev Esh head_rev last_rev.
    by rewrite (map_comp swap_shape shape) swap_head_last.
  + by rewrite T_object_MatrixProduct revK Ebs2 /= MatrixProduct_init_Ok.
- (* TriangularMatrix *)
  move=> /= /andP[/eqP sq tri] _.
  eexists _, _; split; try by rewrite /T_object /=; reflexivity.
  + by case: l {tri}; rewrite /square_shape /swap_shape /= sq.
  + rewrite /= negbK; case: l tri => /= tri; congr TriangularMatrix.
      by rewrite np_T_triu np_T_involutive np_tril_idem np_tril_triangular.
    by rewrite np_T_tril np_T_involutive np_triu_idem np_triu_triangular.
- (* InverseTriangularMatrix *)
  move=> /= /eqP sq _.
  eexists _, _; split; try by rewrite /T_object /=; reflexivity.
  + by rewrite /square_shape /swap_shape /= sq.
  + by rewrite /= np_T_involutive negbK.
- (* DenseSquareMatrix *)
  move=> /= /eqP sq ready.
  have [f [t' Ef]] : exists f t',
      T_object (DenseSquareMatrix a lu t) =
      Ok (DenseSquareMatrix (np_T a) (Some f) (Some t')).
    rewrite /T_object /=; case: lu ready => [f|] /=; first by eexists; eexists.
    by case: (lu_factor numeric a) => //= f _; eexists; eexists.
  eexists _, _; split; first exact: Ef.
  + by rewrite /square_shape /swap_shape /= sq.
  + by [].
  + by rewrite /T_object /=; reflexivity.
  + by rewrite /= np_T_involutive.
- (* InverseLUFactoredSquareMatrix *)
  move=> /= /andP[/eqP sq]; case: t => [b|] // _ _.
  eexists _, _; split; try by rewrite /T_object /=; reflexivity.
  + by rewrite /square_shape /swap_shape /= sq.
  + by rewrite /= np_T_involutive negbK.
- (* OrthogonalMatrix *)
  move=> /= /eqP sq _.
  eexists _, _; split; try by rewrite /T_object /=; reflexivity.
  + by rewrite /square_shape /swap_shape /= sq.
  + by rewrite /= np_T_involutive.
- (* ScaledOrthogonalMatrix *)
  move=> /= /eqP sq _.
  eexists _, _; split; try by rewrite /T_object /=; reflexivity.
  + by rewrite /square_shape /swap_shape /= sq.
  + by rewrite /= np_T_involutive.
- (* SquareBlockDiagonalMatrix and its symmetric subclasses *)
  case: cls; try T_returns_receiver.
  move=> /= /and3P[sqs sizes wbs] lbs.
  have [ts [bs2 [Ets Esh Esq Ebs2 sbs]]] := mapM_T_round_trip IHbs wbs lbs.
  have rows : [seq (shape t).1 | t <- ts] = [seq (shape b).1 | b <- bs].
    by rewrite (transposed_rows Esh) square_cols_map.
  have Ets_init : SquareBlockDiagonalMatrix_init ts =
      Ok (SquareBlockDiagonalMatrix ts).
    by apply: SquareBlockDiagonalMatrix_init_Ok;
       rewrite ?(same_all_map Esq) ?rows.
  have := same_SquareBlockDiagonalMatrix_init sbs.
  rewrite (SquareBlockDiagonalMatrix_init_Ok sqs sizes).
  case Ebs2_init: (SquareBlockDiagonalMatrix_init bs2) => [M2|] //= sM2.
  exists (SquareBlockDiagonalMatrix ts), M2; split=> //.
  + by rewrite T_object_SquareBlockDiagonalMatrix Ets.
  + by rewrite /= -!map_comp rows.
  + by rewrite T_object_SquareBlockDiagonalMatrix Ebs2.
- (* DenseRectangularMatrix *)
  move=> _ _.
  eexists _, _; split; try by rewrite /T_object /=; reflexivity.
  by rewrite /= np_T_involutive.
- (* BlockRowMatrix *)
  move=> /= /and4P[nbs rows cols wbs] lbs.
  have [ts [bs2 [Ets Esh Esq Ebs2 sbs]]] := mapM_T_round_trip IHbs wbs lbs.
  have Ets_init : BlockColumnMatrix_init ts = Ok (BlockColumnMatrix ts).
    by apply: BlockColumnMatrix_init_Ok;
       rewrite ?(transposed_nilp Esh) ?(transposed_cols Esh)
               ?(transposed_rows Esh).
  have := same_BlockRowMatrix_init sbs.
  rewrite (BlockRowMatrix_init_Ok nbs rows cols).
  case Ebs2_init: (BlockRowMatrix_init bs2) => [M2|] //= sM2.
  exists (BlockColumnMatrix ts), M2; split=> //.
  + by rewrite T_object_BlockRowMatrix Ets.
  + rewrite /= -!map_comp (transposed_rows Esh) Esh.
    by case: (bs) nbs.
  + by rewrite T_object_BlockColumnMatrix Ebs2.
- (* BlockColumnMatrix *)
  move=> /= /and4P[nbs cols rows wbs] lbs.
  have [ts [bs2 [Ets Esh Esq Ebs2 sbs]]] := mapM_T_round_trip IHbs wbs lbs.
  have Ets_init : BlockRowMatrix_init ts = Ok (BlockRowMatrix ts).
    by apply: BlockRowMatrix_init_Ok;
       rewrite ?(transposed_nilp Esh) ?(transposed_cols Esh)
               ?(transposed_rows Esh).
  have := same_BlockColumnMatrix_init sbs.
  rewrite (BlockColumnMatrix_init_Ok nbs cols rows).
  case Ebs2_init: (BlockColumnMatrix_init bs2) => [M2|] //= sM2.
  exists (BlockRowMatrix ts), M2; split=> //.
  + by rewrite T_object_BlockColumnMatrix Ets.
  + rewrite /= -!map_comp (transposed_cols Esh) Esh.
    by case: (bs) nbs.
  + by rewrite T_object_BlockRowMatrix Ebs2.
- (* SquareLowRankUpdateMatrix and its symmetric subclasses *)
  case: cls; try T_returns_receiver.
  move=> /= /and5P[/eqP SqL /eqP SqSq /eqP shR /eqP shK].
  move=> /and5P[wL wR wS wK wcap] /and5P[lL lR lS lK lcap].
  have [Lt [L2 [ELt shLt _ EL2 sL]]] := IHL wL lL.
  have [Rt [R2 [ERt shRt _ ER2 sR]]] := IHR wR lR.
  have [St [S2 [ESt shSt _ ES2 sS]]] := IHS wS lS.
  have [Kt [K2 [EKt shKt _ EK2 sK]]] := IHK wK lK.
  have [ct [c2 [Ect Ec2 sc]]] := omapM_T_round_trip IHcap wcap lcap.
  have Et_init : SquareLowRankUpdateMatrix_init Rt Lt St (Some Kt) ct s =
      Ok (SquareLowRankUpdateMatrix Rt Lt St Kt ct s).
    apply: SquareLowRankUpdateMatrix_init_Ok;
      by rewrite ?shLt ?shRt ?shSt ?shKt ?shR ?shK /swap_shape /= -?SqSq.
  have := same_SquareLowRankUpdateMatrix_init s sL sR sS sK sc.
  rewrite (SquareLowRankUpdateMatrix_init_Ok cap s SqL SqSq shR shK).
  case E2_init: (SquareLowRankUpdateMatrix_init L2 R2 S2 _ c2 s)
    => [M2|] //= sM2.
  exists (SquareLowRankUpdateMatrix Rt Lt St Kt ct s), M2; split=> //.
  + by rewrite T_object_SquareLowRankUpdateMatrix ERt ELt ESt EKt /= Ect.
  + by rewrite /= shRt shR.
  + by rewrite T_object_SquareLowRankUpdateMatrix EL2 ER2 ES2 EK2 /= Ec2.
Qed.

(** *** The depth of the multiplications

    [height self] bounds the depth of the calls that
    [_left_matrix_multiply] and [_right_matrix_multiply] go through: a
    transpose and a scalar multiple of an object are no higher than the
    object, so a larger depth changes no result. *)

Lemma height_gt0 (M : Matrix) : (0 < height M)%N.
Proof. by case: M. Qed.

Lemma seq_height_le (n : nat) (ms : seq Matrix) :
  (foldr maxn 1%N (map height ms) <= n)%N =
  (0 < n)%N && all (fun m => height m <= n)%N ms.
Proof.
elim: ms => [|m ms IH] /=; first by rewrite andbT.
by rewrite geq_max IH andbCA.
Qed.

Lemma opt_height_le (n : nat) (m : option Matrix) :
  ((if m is Some m' then height m' else 1) <= n)%N =
  (0 < n)%N && (if m is Some m' then height m' <= n else true)%N.
Proof.
case: m => [m|]; last by rewrite andbT.
by case: n => [|n] //; rewrite leqn0 eqn0Ngt height_gt0.
Qed.

Definition no_higher (n : nat) (M : Matrix) : bool := (height M <= n)%N.

Lemma mapM_no_higher (f : Matrix -> result Matrix) (n : nat)
    (ms ts : seq Matrix) :
  Pseq (fun m => forall m', no_higher n m -> f m = Ok m' -> no_higher n m')
       ms ->
  all (no_higher n) ms -> mapM f ms = Ok ts -> all (no_higher n) ts.
Proof.
elim: ms ts => [|m ms IH] ts /=; first by move=> _ _ [<-].
case=> Hm Hms /andP[hm hms]; case Em: (f m) => [m'|] //=.
case Ems: (mapM f ms) => [ts'|] //= [<-] /=.
by rewrite (Hm _ hm Em) (IH _ Hms hms Ems).
Qed.

Lemma omapM_no_higher (f : Matrix -> result Matrix) (n : nat)
    (m t : option Matrix) :
  Popt (fun m => forall m', no_higher n m -> f m = Ok m' -> no_higher n m') m ->
  (if m is Some m' then no_higher n m' else true) -> omapM f m = Ok t ->
  (if t is Some t' then no_higher n t' else true).
Proof.
case: m => [m|] /=; last by move=> _ _ [<-].
by move=> Hm hm; case Em: (f m) => [m'|] //= [<-]; exact: Hm Em.
Qed.

(** What a constructor returns. *)
Lemma MatrixProduct_init_inv (ms : seq Matrix) (M : Matrix) :
  MatrixProduct_init ms = Ok M -> M = MatrixProduct ms.
Proof. by case: ms => [|m ms] //= [<-]. Qed.

Lemma SquareBlockDiagonalMatrix_init_inv (cls : structure_class)
    (bs : seq Matrix) (M : Matrix) :
  SquareBlockDiagonalMatrix_init_ cls bs = Ok M ->
  M = BlockDiagonalMatrix_ cls bs.
Proof.
rewrite /SquareBlockDiagonalMatrix_init_; case: ifP => // _.
by case: (sum_sizes _) => // k [<-].
Qed.

Lemma SymmetricBlockDiagonalMatrix_init_inv (cls : structure_class)
    (bs : seq Matrix) (M : Matrix) :
  SymmetricBlockDiagonalMatrix_init_ cls bs = Ok M ->
  M = BlockDiagonalMatrix_ cls bs.
Proof.
rewrite /SymmetricBlockDiagonalMatrix_init_; case: ifP => // _.
exact: SquareBlockDiagonalMatrix_init_inv.
Qed.

Lemma PositiveDefiniteBlockDiagonalMatrix_init_inv (bs : seq Matrix)
    (M : Matrix) :
  PositiveDefiniteBlockDiagonalMatrix_init bs = Ok M ->
  M = PositiveDefiniteBlockDiagonalMatrix bs.
Proof.
rewrite /PositiveDefiniteBlockDiagonalMatrix_init; case: ifP => // _.
exact: SymmetricBlockDiagonalMatrix_init_inv.
Qed.

Lemma BlockRowMatrix_init_inv (bs : seq Matrix) (M : Matrix) :
  BlockRowMatrix_init bs = Ok M -> M = BlockRowMatrix bs.
Proof.
rewrite /BlockRowMatrix_init; case: ifP => // _; case: bs => [|b bs] //.
by case: (sum_sizes _) => // k [<-].
Qed.

Lemma BlockColumnMatrix_init_inv (bs : seq Matrix) (M : Matrix) :
  BlockColumnMatrix_init bs = Ok M -> M = BlockColumnMatrix bs.
Proof.
rewrite /BlockColumnMatrix_init; case: ifP => // _.
by case: (sum_sizes _) => // k; case: bs => [|b bs] //= [<-].
Qed.

Lemma SquareLowRankUpdateMatrix_init_inv (cls : structure_class)
    (L R Sq K : Matrix) (cap : option Matrix) (sign : F) (M : Matrix) :
  SquareLowRankUpdateMatrix_init_ cls L R Sq (Some K) cap sign = Ok M ->
  M = LowRankUpdateMatrix_ cls L R Sq K cap sign.
Proof.
rewrite /SquareLowRankUpdateMatrix_init_; case: (shape L) => o i.
by do 3![case: ifP => // _]; rewrite /=; case: ifP => //= _ [<-].
Qed.

Lemma Pseq_rcons (P : Matrix -> Prop) (ms : seq Matrix) (m : Matrix) :
  Pseq P ms -> P m -> Pseq P (rcons ms m).
Proof. by elim: ms => [|m0 ms IH] //= [Pm0 /IH Pms] /Pms. Qed.

Lemma Pseq_rev (P : Matrix -> Prop) (ms : seq Matrix) :
  Pseq P ms -> Pseq P (rev ms).
Proof.
elim: ms => [|m ms IH] //= [Pm /IH Pms].
by rewrite rev_cons; exact: Pseq_rcons.
Qed.

Definition T_no_higher (M : Matrix) : Prop :=
  forall n M', no_higher n M -> T_object M = Ok M' -> no_higher n M'.

Lemma T_no_higher_seq (n : nat) (ms ts : seq Matrix) :
  Pseq T_no_higher ms -> all (no_higher n) ms ->
  mapM T_object ms = Ok ts -> all (no_higher n) ts.
Proof.
move=> IHms; apply: mapM_no_higher.
by apply: Pseq_impl IHms => m Hm m'; exact: Hm.
Qed.

Ltac blocks_no_higher init_inv IHbs :=
  let n0 := fresh "n0" in let hbs := fresh "hbs" in
  let Ets := fresh "Ets" in let ts := fresh "ts" in
  rewrite ltnS seq_height_le => /andP[n0 hbs];
  case Ets: (mapM _ _) => [ts|] //= /init_inv -> /=;
  rewrite ltnS seq_height_le n0 /=;
  apply: T_no_higher_seq Ets; rewrite ?all_rev //; try exact: Pseq_rev.

Lemma T_object_no_higher (M : Matrix) : T_no_higher M.
Proof.
matrix_induction M; rewrite /T_no_higher /no_higher => n M';
  try by [rewrite /T_object /= => ? [<-]].
- rewrite T_object_MatrixProduct; case: n => [|n] //=.
  by blocks_no_higher MatrixProduct_init_inv IHms.
- rewrite /= => n0; rewrite /T_object /=.
  by case: lu => [f|] /=; [|case: (lu_factor _ _) => //= f]; case=> <-.
- case: cls IHbs => IHbs; try by [rewrite /T_object /= => ? [<-]].
  rewrite T_object_SquareBlockDiagonalMatrix; case: n => [|n] //=.
  by blocks_no_higher SquareBlockDiagonalMatrix_init_inv IHbs.
- rewrite T_object_BlockRowMatrix; case: n => [|n] //=.
  by blocks_no_higher BlockColumnMatrix_init_inv IHbs.
- rewrite T_object_BlockColumnMatrix; case: n => [|n] //=.
  by blocks_no_higher BlockRowMatrix_init_inv IHbs.
- case: cls; try by [rewrite /T_object /= => ? [<-]].
  rewrite T_object_SquareLowRankUpdateMatrix; case: n => [|n] //=.
  rewrite ltnS !geq_max opt_height_le.
  case/and5P=> hL hR hS hK /andP[n0 hcap].
  case ERt: (T_object R) => [Rt|] //=; case ELt: (T_object L) => [Lt|] //=.
  case ESt: (T_object Sq) => [St|] //=; case EKt: (T_object K) => [Kt|] //=.
  case Ect: (omapM _ _) => [ct|] //= /SquareLowRankUpdateMatrix_init_inv ->.
  rewrite /= ltnS !geq_max opt_height_le n0 /=.
  have -> : (height Rt <= n)%N by exact: IHR ERt.
  have -> : (height Lt <= n)%N by exact: IHL ELt.
  have -> : (height St <= n)%N by exact: IHS ESt.
  have -> /= : (height Kt <= n)%N by exact: IHK EKt.
  apply: omapM_no_higher Ect => //.
  by case: (cap) IHcap => [c|] //= Hc m'; exact: Hc.
Qed.

Lemma seq_height_gt0 (ms : seq Matrix) :
  (0 < foldr maxn 1%N (map height ms))%N.
Proof. by case: ms => [|m ms] //=; rewrite leq_max height_gt0. Qed.

Definition scalar_multiply_no_higher (M : Matrix) : Prop :=
  forall n c r, no_higher n M -> _scalar_multiply M c = Ok r ->
  no_higher n (object M r).

Lemma mul_no_higher (M : Matrix) (n : nat) (zero : bool) (c : F)
    (M' : Matrix) :
  scalar_multiply_no_higher M -> no_higher n M ->
  (if zero then Raise NotImplementedError
   else r <- _scalar_multiply M c ;; Ok (object M r)) = Ok M' ->
  no_higher n M'.
Proof.
move=> HM hM; case: ifP => // _.
by case Er: (_scalar_multiply M c) => [r|] //= [<-]; exact: HM Er.
Qed.

Lemma mul_no_higher_seq (n : nat) (zero : bool) (c : F)
    (ms ts : seq Matrix) :
  Pseq scalar_multiply_no_higher ms -> all (no_higher n) ms ->
  mapM (fun m => if zero then Raise NotImplementedError
                 else r <- _scalar_multiply m c ;; Ok (object m r)) ms =
    Ok ts ->
  all (no_higher n) ts.
Proof.
move=> IHms; apply: mapM_no_higher.
by apply: Pseq_impl IHms => m Hm m'; exact: mul_no_higher.
Qed.

Lemma mul_no_higher_opt (n : nat) (zero : bool) (c : F)
    (m t : option Matrix) :
  Popt scalar_multiply_no_higher m ->
  (if m is Some m' then no_higher n m' else true) ->
  omapM (fun m => if zero then Raise NotImplementedError
                  else r <- _scalar_multiply m c ;; Ok (object m r)) m =
    Ok t ->
  (if t is Some t' then no_higher n t' else true).
Proof.
move=> IHm; apply: omapM_no_higher.
by case: m IHm => [m|] //= Hm m'; exact: mul_no_higher.
Qed.

Ltac unfold_init :=
  rewrite /new /PositiveScaledIdentityMatrix_init /ScaledIdentityMatrix_init
    /ScaledIdentityMatrix_init_ /PositiveDiagonalMatrix_init
    /DiagonalMatrix_init /DiagonalMatrix_init_ /TriangularMatrix_init
    /DenseSymmetricMatrix_init /EigendecomposedPositiveDefiniteMatrix_init
    /EigendecomposedPositiveDefiniteMatrix_init_
    /EigendecomposedSymmetricMatrix_init
    /EigendecomposedSymmetricMatrix_init_ /diag_eigval_init
    /TriangularFactoredPositiveDefiniteMatrix_init
    /TriangularFactoredDefiniteMatrix_init
    /TriangularFactoredDefiniteMatrix_init_
    /DensePositiveDefiniteMatrix_init /DenseDefiniteMatrix_init
    /DenseDefiniteMatrix_init_ /ScaledIdentityMatrix_init
    /ScaledIdentityMatrix_init_ /DiagonalMatrix_init /DiagonalMatrix_init_ /=.

Ltac invert_init :=
  repeat match goal with
  | |- context [if ?b then _ else _] => case: b => //=
  | |- Ok _ = Ok _ -> _ => case=> <- //=
  end.

Lemma scalar_multiply_bound (M : Matrix) : scalar_multiply_no_higher M.
Proof.
matrix_induction M; rewrite /scalar_multiply_no_higher /no_higher => n scalar res;
  try by [rewrite /= => h; unfold_init; invert_result
         |rewrite /= => h; unfold_init; invert_init].
- case: n => [|n] //=; rewrite ltnS => h; unfold_init.
  case: ifP => //= _ [<-] /=; rewrite ltnS geq_max h andbT.
  exact: leq_trans (seq_height_gt0 ms) h.
- case: n => [|n] //=; rewrite ltnS => h.
  case: ifP => _; case Ef: (if _ == 0 then _ else _) => [f'|] //=;
    have hf' := mul_no_higher IHf h Ef; unfold_init; invert_init.
- case: n => [|n] //=; rewrite ltnS opt_height_le => /andP[n0 h].
  case Ef: (omapM _ _) => [f'|] //=.
  have hf' := mul_no_higher_opt IHf h Ef.
  by unfold_init; invert_init; rewrite ltnS opt_height_le n0.
- case: n => [|n] //=; rewrite ltnS !geq_max opt_height_le.
  case/and3P=> _ _ /andP[n0 h].
  case Ef: (omapM _ _) => [f'|] //=.
  have hf' := mul_no_higher_opt IHf h Ef.
  by unfold_init; invert_init; rewrite ltnS opt_height_le n0.
- case: n => [|n] //=; rewrite ltnS seq_height_le => /andP[n0 h].
  case Ebs: (mapM _ _) => [bs'|] //=.
  have hbs' := mul_no_higher_seq IHbs h Ebs.
  have bound cls' M' : M' = BlockDiagonalMatrix_ cls' bs' ->
      (height M' <= n.+1)%N.
    by move=> -> /=; rewrite ltnS seq_height_le n0.
  by case: cls {IHbs}; [| |case: ifP => _]; rewrite /new;
     case E: (_ bs') => [M'|] //= [<-]; apply: bound;
     first [ exact: (SquareBlockDiagonalMatrix_init_inv E)
           | exact: (SymmetricBlockDiagonalMatrix_init_inv E)
           | exact: (PositiveDefiniteBlockDiagonalMatrix_init_inv E) ].
- case: n => [|n] //=; rewrite ltnS seq_height_le => /andP[n0 h].
  case Ebs: (mapM _ _) => [bs'|] //=.
  have hbs' := mul_no_higher_seq IHbs h Ebs.
  rewrite /new; case E: (BlockRowMatrix_init bs') => [M'|] //= [<-] /=.
  by rewrite (BlockRowMatrix_init_inv E) /= ltnS seq_height_le n0.
- case: n => [|n] //=; rewrite ltnS seq_height_le => /andP[n0 h].
  case Ebs: (mapM _ _) => [bs'|] //=.
  have hbs' := mul_no_higher_seq IHbs h Ebs.
  rewrite /new; case E: (BlockColumnMatrix_init bs') => [M'|] //= [<-] /=.
  by rewrite (BlockColumnMatrix_init_inv E) /= ltnS seq_height_le n0.
- case: n => [|n] //=; rewrite ltnS !geq_max opt_height_le.
  case/and5P=> hL hR hS hK /andP[n0 hcap].
  case ES: (if _ == 0 then _ else _) => [Sq'|] //=.
  case EK: (if _ == 0 then _ else _) => [K'|] //=.
  case Ecap: (omapM _ _) => [cap'|] //=.
  have hSq' := mul_no_higher IHS hS ES.
  have hK' := mul_no_higher IHK hK EK.
  have hcap' := mul_no_higher_opt IHcap hcap Ecap.
  have bound cls' R' M' : no_higher n R' ->
      M' = LowRankUpdateMatrix_ cls' L R' Sq' K' cap' s ->
      (height M' <= n.+1)%N.
    move=> hR' -> /=; rewrite ltnS !geq_max opt_height_le n0 hL /=.
    by rewrite [(_ <= n)%N]hR' [(_ <= n)%N]hSq' [(_ <= n)%N]hK'.
  have symmetric cls' M' :
      SymmetricLowRankUpdateMatrix_init_ cls' L Sq' (Some K') cap' s = Ok M' ->
      (height M' <= n.+1)%N.
    case/SymmetricLowRankUpdateMatrix_init_Ok=> ft [K'' [[<-] _ _ Eft ->]].
    by apply: bound (T_object_no_higher hL Eft) _.
  case: cls {IHL IHR IHS IHK IHcap}; [| |case: ifP => _]; rewrite /new.
  + case E: (SquareLowRankUpdateMatrix_init _ _ _ _ _ _) => [M'|] //= [<-].
    by apply: bound hR _; exact: SquareLowRankUpdateMatrix_init_inv E.
  + case E: (SymmetricLowRankUpdateMatrix_init _ _ _ _ _) => [M'|] //= [<-].
    exact: symmetric E.
  + case E: (PositiveDefiniteLowRankUpdateMatrix_init _ _ _ _ _)
      => [M'|] //= [<-].
    exact: symmetric E.
  + case E: (SymmetricLowRankUpdateMatrix_init _ _ _ _ _) => [M'|] //= [<-].
    exact: symmetric E.
Qed.

Lemma mul_object_no_higher (M M' : Matrix) (n : nat) (c : F) :
  no_higher n M -> mul_object M c = Ok M' -> no_higher n M'.
Proof.
move=> hM; rewrite /mul_object /__rmul__ /__mul__ => EM'.
apply: (@mul_no_higher M n (c == 0) c) => //; first exact: scalar_multiply_bound.
by case: ifP EM'.
Qed.

Lemma diag_eigval_init_height (eigval : vector) (D : Matrix) :
  diag_eigval_init eigval = Ok D -> height D = 1%N.
Proof.
rewrite /diag_eigval_init /ScaledIdentityMatrix_init.
rewrite /ScaledIdentityMatrix_init_ /DiagonalMatrix_init /DiagonalMatrix_init_.
by case: ifP => _; [case: ifP => // _|]; case=> <-.
Qed.

Section Depths.
Variables (X Y : Type) (a b : nat).

Lemma mapM_zip_depth (g g' : Matrix * X -> result Y) (bs : seq Matrix)
    (xs : seq X) :
  (forall m x, (height m <= a)%N -> (height m <= b)%N ->
     g (m, x) = g' (m, x)) ->
  all (fun m => height m <= a)%N bs -> all (fun m => height m <= b)%N bs ->
  mapM g (zip bs xs) = mapM g' (zip bs xs).
Proof.
move=> gg'; elim: bs xs => [|m bs IH] [|x xs] //= /andP[ma /IH{}IH].
by case/andP=> mb /IH ->; rewrite gg'.
Qed.

Lemma mapM_depth (g g' : Matrix -> result Y) (bs : seq Matrix) :
  (forall m, (height m <= a)%N -> (height m <= b)%N -> g m = g' m) ->
  all (fun m => height m <= a)%N bs -> all (fun m => height m <= b)%N bs ->
  mapM g bs = mapM g' bs.
Proof.
move=> gg'; elim: bs => [|m bs IH] //= /andP[ma /IH{}IH].
by case/andP=> mb /IH ->; rewrite gg'.
Qed.

End Depths.

Lemma _left_matrix_multiply_depth (d1 d2 : nat) (M : Matrix)
    (other : ndarray) :
  (height M <= d1)%N -> (height M <= d2)%N ->
  _left_matrix_multiply_ d1 M other = _left_matrix_multiply_ d2 M other.
Proof.
elim: d1 d2 M other => [|n1 IH] d2 M x; first by rewrite leqNgt height_gt0.
case: d2 => [|n2] h1; first by rewrite leqNgt height_gt0.
move: h1.
have Hmm (m : Matrix) (k : option nat) (y : ndarray) :
    (height m <= n1)%N -> (height m <= n2)%N ->
    (if matmul_mismatch m k then Raise ValueError
     else _left_matrix_multiply_ n1 m y) =
    (if matmul_mismatch m k then Raise ValueError
     else _left_matrix_multiply_ n2 m y).
  by move=> h1 h2; rewrite (IH n2 m y h1 h2).
matrix_cases M => //=.
- rewrite !ltnS !seq_height_le => /andP[_ h1] /andP[_ h2].
  elim: ms h1 h2 => [|m ms IHms] //= /andP[m1 /IHms{}IHms] /andP[m2 /IHms ->].
  by case: (foldr _ _ _) => //= y; exact: Hmm.
- rewrite !ltnS => h1 h2; case Eft: (T_object f) => [ft|] //=.
  have ft1 : (height ft <= n1)%N by exact: T_object_no_higher Eft.
  have ft2 : (height ft <= n2)%N by exact: T_object_no_higher Eft.
  rewrite (Hmm ft) //.
  by case: (if _ then _ else _) => //= y; rewrite (Hmm f).
- rewrite !ltnS => h1 h2; case Evt: (T_object v) => [vt|] //=.
  have vt1 : (height vt <= n1)%N by exact: T_object_no_higher Evt.
  have vt2 : (height vt <= n2)%N by exact: T_object_no_higher Evt.
  rewrite (Hmm vt) //; case: (if _ then _ else _) => //= y.
  case ED: (diag_eigval_init e) => [D|] //=.
  have D1 : (height D <= n1)%N.
    by rewrite (diag_eigval_init_height ED); exact: leq_trans (height_gt0 v) _.
  have D2 : (height D <= n2)%N.
    by rewrite (diag_eigval_init_height ED); exact: leq_trans (height_gt0 v) _.
  rewrite (Hmm D) //.
  by case: (if _ then _ else _) => //= z; rewrite (Hmm v).
- rewrite !ltnS !seq_height_le => /andP[_ h1] /andP[_ h2].
  case: (_ != _) => //; congr (bind _ _).
  by apply: mapM_zip_depth h1 h2 => m y m1 m2 /=; exact: Hmm.
- rewrite !ltnS !seq_height_le => /andP[_ h1] /andP[_ h2].
  case: (_ != _) => //; congr (bind _ _).
  by apply: mapM_zip_depth h1 h2 => m y m1 m2 /=; exact: Hmm.
- rewrite !ltnS !seq_height_le => /andP[_ h1] /andP[_ h2].
  congr (bind _ _).
  by apply: mapM_depth h1 h2 => m m1 m2 /=; exact: Hmm.
- rewrite !ltnS !geq_max => /and5P[L1 R1 S1 K1 _] /and5P[L2 R2 S2 K2 _].
  rewrite (Hmm Sq) //; case: (if _ then _ else _) => //= y.
  case Esl: (mul_object L s) => [sl|] //=.
  rewrite (Hmm R) //; case: (if _ then _ else _) => //= r1.
  rewrite (Hmm K) //; case: (if _ then _ else _) => //= r2.
  have sl1 : (height sl <= n1)%N by exact: mul_object_no_higher Esl.
  have sl2 : (height sl <= n2)%N by exact: mul_object_no_higher Esl.
  by rewrite (Hmm sl).
Qed.

Lemma _right_matrix_multiply_depth (d1 d2 : nat) (M : Matrix)
    (other : ndarray) :
  (height M <= d1)%N -> (height M <= d2)%N ->
  _right_matrix_multiply_ d1 M other = _right_matrix_multiply_ d2 M other.
Proof.
elim: d1 d2 M other => [|n1 IH] d2 M x; first by rewrite leqNgt height_gt0.
case: d2 => [|n2] h1; first by rewrite leqNgt height_gt0.
move: h1.
have Hrm (m : Matrix) (k : option nat) (y : ndarray) :
    (height m <= n1)%N -> (height m <= n2)%N ->
    (if rmatmul_mismatch m k then Raise ValueError
     else _right_matrix_multiply_ n1 m y) =
    (if rmatmul_mismatch m k then Raise ValueError
     else _right_matrix_multiply_ n2 m y).
  by move=> h1 h2; rewrite (IH n2 m y h1 h2).
matrix_cases M => //=.
- rewrite !ltnS !seq_height_le => /andP[_ h1] /andP[_ h2].
  elim: ms (Ok x) h1 h2 => [|m ms IHms] //= acc /andP[m1 ms1] /andP[m2 ms2].
  rewrite -(IHms _ ms1 ms2); congr (foldl _ _ _).
  by case: acc => //= y; exact: Hrm.
- rewrite !ltnS => h1 h2; rewrite (Hrm f) //.
  case: (if _ then _ else _) => //= y.
  case Eft: (T_object f) => [ft|] //=.
  have ft1 : (height ft <= n1)%N by exact: T_object_no_higher Eft.
  have ft2 : (height ft <= n2)%N by exact: T_object_no_higher Eft.
  by rewrite (Hrm ft).
- rewrite !ltnS => h1 h2; rewrite (Hrm v) //.
  case: (if _ then _ else _) => //= y.
  case ED: (diag_eigval_init e) => [D|] //=.
  have D1 : (height D <= n1)%N.
    by rewrite (diag_eigval_init_height ED); exact: leq_trans (height_gt0 v) _.
  have D2 : (height D <= n2)%N.
    by rewrite (diag_eigval_init_height ED); exact: leq_trans (height_gt0 v) _.
  rewrite (Hrm D) //; case: (if _ then _ else _) => //= z.
  case Evt: (T_object v) => [vt|] //=.
  have vt1 : (height vt <= n1)%N by exact: T_object_no_higher Evt.
  have vt2 : (height vt <= n2)%N by exact: T_object_no_higher Evt.
  by rewrite (Hrm vt).
- rewrite !ltnS !seq_height_le => /andP[_ h1] /andP[_ h2].
  case: (_ != _) => //; congr (bind _ _).
  by apply: mapM_zip_depth h1 h2 => m y m1 m2 /=; exact: Hrm.
- rewrite !ltnS !seq_height_le => /andP[_ h1] /andP[_ h2].
  congr (bind _ _).
  by apply: mapM_depth h1 h2 => m m1 m2 /=; exact: Hrm.
- rewrite !ltnS !seq_height_le => /andP[_ h1] /andP[_ h2].
  case: (_ != _) => //; congr (bind _ _).
  by apply: mapM_zip_depth h1 h2 => m y m1 m2 /=; exact: Hrm.
- rewrite !ltnS !geq_max => /and5P[L1 R1 S1 K1 _] /and5P[L2 R2 S2 K2 _].
  rewrite (Hrm Sq) //; case: (if _ then _ else _) => //= y.
  rewrite (Hrm L) //; case: (if _ then _ else _) => //= r1.
  rewrite (Hrm K) //; case: (if _ then _ else _) => //= r2.
  by rewrite (Hrm R).
Qed.

(** Any depth from [height self] on gives the result of
    [_left_matrix_multiply] and of [_right_matrix_multiply]. *)
Lemma _left_matrix_multiply_enough (depth : nat) (self : Matrix)
    (other : ndarray) :
  (height self <= depth)%N ->
  _left_matrix_multiply_ depth self other = _left_matrix_multiply self other.
Proof. by move=> h; exact: _left_matrix_multiply_depth. Qed.

Lemma _right_matrix_multiply_enough (depth : nat) (self : Matrix)
    (other : ndarray) :
  (height self <= depth)%N ->
  _right_matrix_multiply_ depth self other = _right_matrix_multiply self other.
Proof. by move=> h; exact: _right_matrix_multiply_depth. Qed.

(** *** Scalar multiples keep the shape *)

Definition scalar_multiply_keeps_shape (M : Matrix) : Prop :=
  forall c r, _scalar_multiply M c = Ok r -> shape (object M r) = shape M.

Lemma mul_keeps_shape (M M' : Matrix) (zero : bool) (c : F) :
  scalar_multiply_keeps_shape M ->
  (if zero then Raise NotImplementedError
   else r <- _scalar_multiply M c ;; Ok (object M r)) = Ok M' ->
  shape M' = shape M.
Proof.
move=> HM; case: zero => //.
by case Er: (_scalar_multiply M c) => [r|] //= [<-]; exact: HM Er.
Qed.

Lemma mul_keeps_shapes (zero : bool) (c : F) (ms ts : seq Matrix) :
  Pseq scalar_multiply_keeps_shape ms ->
  mapM (fun m => if zero then Raise NotImplementedError
                 else r <- _scalar_multiply m c ;; Ok (object m r)) ms =
    Ok ts ->
  map shape ts = map shape ms.
Proof.
elim: ms ts => [|m ms IH] ts /=; first by move=> _ [<-].
case=> Hm Hms; case Em: (if zero then _ else _) => [m'|] //=.
case Ems: (mapM _ ms) => [ts'|] //= [<-] /=.
by rewrite (mul_keeps_shape Hm Em) (IH _ Hms Ems).
Qed.

Lemma _scalar_multiply_shape (M : Matrix) : scalar_multiply_keeps_shape M.
Proof.
matrix_induction M; rewrite /scalar_multiply_keeps_shape => scalar res;
  try by [rewrite /=; unfold_init; invert_result
         |rewrite /=; unfold_init; invert_init].
- rewrite /=; unfold_init; case: ifP => //= _ [<-] /=.
  by case: ms {IHms} => [|m ms].
- by rewrite /=; unfold_init; invert_init; rewrite /vec_scale size_map.
- rewrite /=; case: ifP => _; case Ef: (if _ == 0 then _ else _) => [f'|] //=;
    have Ef' := mul_keeps_shape IHf Ef; unfold_init; invert_init;
    by rewrite Ef'.
- rewrite /=; case: (omapM _ _) => [f'|] //=.
  by unfold_init; invert_init.
- rewrite /=; case: (omapM _ _) => [f'|] //=.
  by unfold_init; invert_init.
- rewrite /=; case Ebs: (mapM _ _) => [bs'|] //=.
  have Ebs' := mul_keeps_shapes IHbs Ebs.
  have keeps cls' M' : M' = BlockDiagonalMatrix_ cls' bs' ->
      shape M' = shape (BlockDiagonalMatrix_ cls bs).
    by move=> -> /=; rewrite Ebs'.
  by case: cls {IHbs keeps} (keeps); [| |case: ifP => _]; rewrite /new => keeps;
     case E: (_ bs') => [M'|] //= [<-]; apply: keeps;
     first [ exact: (SquareBlockDiagonalMatrix_init_inv E)
           | exact: (SymmetricBlockDiagonalMatrix_init_inv E)
           | exact: (PositiveDefiniteBlockDiagonalMatrix_init_inv E) ].
- rewrite /=; case Ebs: (mapM _ _) => [bs'|] //=.
  rewrite /new; case E: (BlockRowMatrix_init bs') => [M'|] //= [<-] /=.
  by rewrite (BlockRowMatrix_init_inv E) /= (mul_keeps_shapes IHbs Ebs).
- rewrite /=; case Ebs: (mapM _ _) => [bs'|] //=.
  rewrite /new; case E: (BlockColumnMatrix_init bs') => [M'|] //= [<-] /=.
  by rewrite (BlockColumnMatrix_init_inv E) /= (mul_keeps_shapes IHbs Ebs).
- rewrite /=; case: (if _ == 0 then _ else _) => [Sq'|] //=.
  case: (if _ == 0 then _ else _) => [K'|] //=.
  case: (omapM _ _) => [cap'|] //=.
  have symmetric cls' M' :
      SymmetricLowRankUpdateMatrix_init_ cls' L Sq' (Some K') cap' s = Ok M' ->
      shape M' = ((shape L).1, (shape L).1).
    by case/SymmetricLowRankUpdateMatrix_init_Ok=> ft [K'' [_ _ _ _ ->]].
  case: cls {IHL IHR IHS IHK IHcap}; [| |case: ifP => _]; rewrite /new.
  + case E: (SquareLowRankUpdateMatrix_init _ _ _ _ _ _) => [M'|] //= [<-].
    by rewrite (SquareLowRankUpdateMatrix_init_inv E).
  + case E: (SymmetricLowRankUpdateMatrix_init _ _ _ _ _) => [M'|] //= [<-].
    exact: symmetric E.
  + case E: (PositiveDefiniteLowRankUpdateMatrix_init _ _ _ _ _)
      => [M'|] //= [<-].
    exact: symmetric E.
  + case E: (SymmetricLowRankUpdateMatrix_init _ _ _ _ _) => [M'|] //= [<-].
    exact: symmetric E.
Qed.

(** *** Classes of the results of [inv] and of scalar multiplication *)

Ltac unfold_block_init :=
  rewrite /PositiveDefiniteBlockDiagonalMatrix_init
    /SymmetricBlockDiagonalMatrix_init /SymmetricBlockDiagonalMatrix_init_
    /SquareBlockDiagonalMatrix_init /SquareBlockDiagonalMatrix_init_
    /BlockRowMatrix_init /BlockColumnMatrix_init /=.

Ltac invert_all :=
  repeat match goal with
  | |- context [if ?b then _ else _] => case: b => //=
  | |- context [match ?x with Some _ => _ | None => _ end] => case: x => //=
  | |- bind ?e _ = Ok _ -> _ => case: e => [?|?] //=
  | |- (let: _ := ?x in _) = Ok _ -> _ => case: x => //=
  | |- match ?x with _ => _ end = Ok _ -> _ => case: x => //=
  | |- Ok _ = Ok _ -> _ => case=> <- //=
  | |- forall _, _ => intro
  end.

Lemma inv_class (M : Matrix) (r : returned) :
  inv M = Ok r ->
  [/\ T_returns_self M -> T_returns_self (object M r),
      is_SymmetricMatrix M -> is_SymmetricMatrix (object M r) &
      is_PositiveDefiniteMatrix M -> is_PositiveDefiniteMatrix (object M r)].
Proof.
case: M => /=;
  try by [move=> *; split
         |rewrite /DenseSquareMatrix_inv /DenseSymmetricMatrix_inv
                  /lu_and_piv_property /eigen_property;
          unfold_init; unfold_block_init; invert_all].
move=> cls L R Sq K cap s.
  have symmetric cls' A B C D sign M' :
      new (SymmetricLowRankUpdateMatrix_init_ cls' A B C D sign) = Ok r ->
      (if cls' is Square then false else true) ->
      [/\ true -> T_returns_self (object M' r),
          true -> is_SymmetricMatrix (object M' r) &
          (if cls' is PositiveDefinite then true else false) ->
          is_PositiveDefiniteMatrix (object M' r)].
    rewrite /new.
    case E: (SymmetricLowRankUpdateMatrix_init_ _ _ _ _ _ _) => [X|] //= [<-].
    have [ft [K' [_ _ _ _ ->]]] := SymmetricLowRankUpdateMatrix_init_Ok E.
    by case: cls' {E}.
  case: cls => /=;
    repeat (match goal with
            | |- bind ?e _ = Ok _ -> _ => case: e => [?|] //=
            end).
all: match goal with
     | |- match ?x with _ => _ end = _ -> _ => case: x => // factor'
     end.
- by move/symmetric=> H; apply: H.
- by move/symmetric=> H; apply: H.
Qed.


(** *** Transposes of products *)

Lemma T_object_not_chain (M M' : Matrix) :
  ~~ is_MatrixProduct M -> T_object M = Ok M' -> ~~ is_MatrixProduct M'.
Proof.
case: M => //=;
  try by [rewrite /T_object /=; intros until 1; unfold_init; invert_all].
- move=> a lu t _; rewrite /T_object /=.
  by case: lu => [f|] /=; [|case: (lu_factor _ _) => //= f]; case=> <-.
- move=> cls bs _; case: cls; try by [rewrite /T_object /= => -[<-]].
  rewrite T_object_SquareBlockDiagonalMatrix.
  by case: (mapM _ _) => //= ts /SquareBlockDiagonalMatrix_init_inv ->.
- move=> bs _; rewrite T_object_BlockRowMatrix.
  by case: (mapM _ _) => //= ts /BlockColumnMatrix_init_inv ->.
- move=> bs _; rewrite T_object_BlockColumnMatrix.
  by case: (mapM _ _) => //= ts /BlockRowMatrix_init_inv ->.
- move=> cls L R Sq K cap s _; case: cls;
    try by [rewrite /T_object /= => -[<-]].
  rewrite T_object_SquareLowRankUpdateMatrix.
  case: (T_object R) => //= rt; case: (T_object L) => //= lt.
  case: (T_object Sq) => //= st; case: (T_object K) => //= kt.
  by case: (omapM _ _) => //= ct /SquareLowRankUpdateMatrix_init_inv ->.
Qed.

Lemma T_object_shape (M : Matrix) :
  wf M -> lu_ready M ->
  exists2 M', T_object M = Ok M' & shape M' = swap_shape (shape M).
Proof.
move=> wM lM; have [M1 [M2 [E1 sh _ _ _]]] := T_round_trip_holds wM lM.
by exists M1.
Qed.

Lemma T_of_product (A B : Matrix) :
  wf A -> wf B -> lu_ready A -> lu_ready B ->
  ~~ is_MatrixProduct A -> ~~ is_MatrixProduct B ->
  (shape A).2 = (shape B).1 ->
  exists At Bt P,
    [/\ T_object A = Ok At /\ T_object B = Ok Bt,
        matmul (OMatrix A) (OMatrix B) = Ok (OMatrix P),
        T_object P = Ok (MatrixProduct [:: Bt; At]) &
        matmul (OMatrix Bt) (OMatrix At) =
          Ok (OMatrix (MatrixProduct [:: Bt; At]))].
Proof.
move=> wA wB lA lB nA nB shAB.
have [At EAt shAt] := T_object_shape wA lA.
have [Bt EBt shBt] := T_object_shape wB lB.
have nAt := T_object_not_chain nA EAt.
exists At, Bt, (MatrixProduct [:: A; B]); split=> //.
- rewrite /matmul __matmul__E /matmul_mismatch shAB.
  by case: (shape B).1 => [n|] /=; rewrite ?eqxx //; case: (B) nB.
- by rewrite T_object_MatrixProduct /= EBt /= EAt.
- rewrite /matmul __matmul__E /matmul_mismatch shBt shAt /= shAB.
  by case: (shape B).1 => [n|] /=; rewrite ?eqxx //; case: (At) nAt.
Qed.

(** *** The inverse of an inverse, and its log-determinant *)







Lemma vec_inv_positive (v : vector) :
  all (fun x => 0 < x) v -> all (fun x => 0 < x) (vec_inv v).
Proof.
by rewrite /vec_inv all_map; apply: sub_all => x /=; rewrite div1r invr_gt0.
Qed.

(** The diagonal of an array is that of its triangles and of its
    transpose. *)
Lemma get_np_tril (a : ndarray) (i : nat) : get (np_tril a) i i = get a i i.
Proof.
rewrite /get /=; case: insubP => // i' _ Ei; case: insubP => // j' _ Ej.
by rewrite mxE Ei Ej leqnn.
Qed.

Lemma get_np_triu (a : ndarray) (i : nat) : get (np_triu a) i i = get a i i.
Proof.
rewrite /get /=; case: insubP => // i' _ Ei; case: insubP => // j' _ Ej.
by rewrite mxE Ei Ej leqnn.
Qed.

Lemma get_np_T (a : ndarray) (i j : nat) : get (np_T a) i j = get a j i.
Proof.
rewrite /get /=; case: insubP => [i' _ Ei|]; case: insubP => [j' _ Ej|] //.
by rewrite mxE.
Qed.

Lemma np_diagonal_tril (a : ndarray) :
  np_diagonal (np_tril a) = np_diagonal a.
Proof. by rewrite /np_diagonal /=; apply: eq_map => i; exact: get_np_tril. Qed.

Lemma np_diagonal_triu (a : ndarray) :
  np_diagonal (np_triu a) = np_diagonal a.
Proof. by rewrite /np_diagonal /=; apply: eq_map => i; exact: get_np_triu. Qed.

Lemma np_diagonal_T (a : ndarray) : np_diagonal (np_T a) = np_diagonal a.
Proof.
by rewrite /np_diagonal /= minnC; apply: eq_map => i; exact: get_np_T.
Qed.

Lemma inv_object_class (M M1 : Matrix) :
  inv_object M = Ok M1 ->
  [/\ is_SquareMatrix M1,
      is_SymmetricMatrix M -> is_SymmetricMatrix M1 &
      is_PositiveDefiniteMatrix M -> is_PositiveDefiniteMatrix M1].
Proof.
rewrite /inv_object; case Er: (inv M) => [r|] //= [<-].
have [_ sym pd] := inv_class Er; split=> //.
case: M Er {sym pd} => //=;
  try by [move=> *; case: (r) => //; case: (_ : structure_class)
         |rewrite /DenseSquareMatrix_inv /DenseSymmetricMatrix_inv
                  /lu_and_piv_property /eigen_property;
          unfold_init; unfold_block_init; invert_all].
move=> cls L R Sq K cap s.
case: cls => /=;
  repeat (match goal with
          | |- bind ?e _ = Ok _ -> _ => case: e => [?|] //=
          end);
  repeat (match goal with
          | |- match ?x with _ => _ end = _ -> _ => case: x => // ?
          end); rewrite /new.
- case E: (SquareLowRankUpdateMatrix_init _ _ _ _ _ _) => [X|] //= [<-].
  by rewrite (SquareLowRankUpdateMatrix_init_inv E).
- case E: (SymmetricLowRankUpdateMatrix_init_ _ _ _ _ _ _) => [X|] //= [<-].
  by have [ft [K' [_ _ _ _ ->]]] := SymmetricLowRankUpdateMatrix_init_Ok E.
- case E: (SymmetricLowRankUpdateMatrix_init_ _ _ _ _ _ _) => [X|] //= [<-].
  by have [ft [K' [_ _ _ _ ->]]] := SymmetricLowRankUpdateMatrix_init_Ok E.
Qed.


(** The classes whose inverse is built without a factorisation of a dense
    array that the backend may refuse, and is inverted back into the class
    it came from; the scalars that [inv] divides by are not zero. *)
Fixpoint elementary (self : Matrix) : bool :=
  match self with
  | IdentityMatrix _ | ScaledIdentityMatrix_ _ _ _
  | TriangularMatrix _ _ | DenseSquareMatrix _ _ _
  | InverseLUFactoredSquareMatrix _ _ _ | OrthogonalMatrix _ => true
  | DiagonalMatrix_ _ diagonal => all (fun x => x != 0) diagonal
  | ScaledOrthogonalMatrix scalar _ => scalar != 0
  | InverseTriangularMatrix inverse_array lower =>
      is_triangular_array inverse_array lower
  | TriangularFactoredDefiniteMatrix_ _ factor _ => elementary factor
  | EigendecomposedMatrix_ cls _ eigval =>
      (if cls is EigSoftAbs _ _ then false else true)
      && all (fun x => x != 0) eigval
  | BlockDiagonalMatrix_ _ blocks => all elementary blocks
  | _ => false
  end.


Lemma ScaledIdentityMatrix_inv_Ok (p : bool) (c : F) (size : option nat) :
  c != 0 -> p ==> (0 < c) ->
  inv_object (ScaledIdentityMatrix_ p c size) =
  Ok (ScaledIdentityMatrix_ p (1 / c) size).
Proof.
move=> c0 pc; have c1 : 1 / c != 0 by rewrite div1r invr_eq0.
rewrite /inv_object /=; case: p pc => /= [cpos|_].
  rewrite /PositiveScaledIdentityMatrix_init /ScaledIdentityMatrix_init_.
  by rewrite Order.TotalTheory.leNgt div1r invr_gt0 cpos /= -div1r (negbTE c1).
by rewrite /ScaledIdentityMatrix_init /ScaledIdentityMatrix_init_ (negbTE c1).
Qed.

Lemma DiagonalMatrix_inv_Ok (p : bool) (d : vector) :
  p ==> all (fun x => 0 < x) d ->
  inv_object (DiagonalMatrix_ p d) = Ok (DiagonalMatrix_ p (vec_inv d)).
Proof.
rewrite /inv_object /=; case: p => //= dpos.
by rewrite /PositiveDiagonalMatrix_init vec_inv_positive.
Qed.

(** [factor.inv.T] of a triangular factor. *)
Definition factor_inv_T (factor : Matrix) : result Matrix :=
  fi <- inv_object factor ;; T_object fi.













(** *** Arrays as matrices

    An array is a MathComp matrix with its dimensions; the operations of
    NumPy on arrays of matching dimensions are the operations on
    matrices. *)

Lemma get_NdArray (m n : nat) (A : 'M[F]_(m, n)) (i : 'I_m) (j : 'I_n) :
  get (NdArray A) i j = A i j.
Proof. by rewrite /get /= !valK. Qed.

Lemma get_out_rows (a : ndarray) (i j : nat) :
  (nrows a <= i)%N -> get a i j = 0.
Proof. by rewrite /get => le_i; rewrite insubF // ltnNge le_i. Qed.

Lemma get_out_cols (a : ndarray) (i j : nat) :
  (ncols a <= j)%N -> get a i j = 0.
Proof.
rewrite /get => le_j; case: insubP => // i' _ _.
by rewrite insubF // ltnNge le_j.
Qed.

Lemma mk_get (a : ndarray) : mk (nrows a) (ncols a) (get a) = a.
Proof.
case: a => m n A; rewrite /mk /=; congr NdArray.
by apply/matrixP => i j; rewrite mxE get_NdArray.
Qed.

Lemma mk_ext (m n : nat) (f g : nat -> nat -> F) :
  (forall i j, (i < m)%N -> (j < n)%N -> f i j = g i j) -> mk m n f = mk m n g.
Proof.
by move=> fg; congr NdArray; apply/matrixP => i j; rewrite !mxE fg.
Qed.

Lemma get_mk (m n : nat) (f : nat -> nat -> F) (i j : nat) :
  (i < m)%N -> (j < n)%N -> get (mk m n f) i j = f i j.
Proof.
move=> lt_i lt_j; rewrite /get /= (insubT (fun k => k < m)%N lt_i).
by rewrite (insubT (fun k => k < n)%N lt_j) mxE.
Qed.

Lemma np_matmulE (m n p : nat) (A : 'M[F]_(m, n)) (B : 'M[F]_(n, p)) :
  np_matmul (NdArray A) (NdArray B) = Ok (NdArray (A *m B)).
Proof.
rewrite /np_matmul /= eqxx /mk; congr (Ok (NdArray _)).
apply/matrixP => i j; rewrite !mxE; apply: eq_bigr => k _.
by rewrite !get_NdArray.
Qed.

Lemma np_matmul_mismatch (a b : ndarray) :
  ncols a != nrows b -> np_matmul a b = Raise ValueError.
Proof. by rewrite /np_matmul => /negbTE ->. Qed.

(** [(a @ b) @ c] and [a @ (b @ c)] are one result, the dimension error
    included. *)
Lemma np_matmulA (a b c : ndarray) :
  (ab <- np_matmul a b ;; np_matmul ab c) =
  (bc <- np_matmul b c ;; np_matmul a bc).
Proof.
case: a b c => m n A [n' p B] [p' q C].
case: (n =P n') => [En|/eqP nn']; case: (p =P p') => [Ep|/eqP pp'].
- by subst n' p'; rewrite !np_matmulE /= !np_matmulE mulmxA.
- subst n'; rewrite np_matmulE /= [in RHS]np_matmul_mismatch //.
  by rewrite np_matmul_mismatch.
- subst p'; rewrite np_matmul_mismatch // np_matmulE /=.
  by rewrite np_matmul_mismatch.
- by rewrite !np_matmul_mismatch.
Qed.

Lemma np_matmul_scale_l (c : F) (a b : ndarray) :
  np_matmul (np_scale c a) b = (y <- np_matmul a b ;; Ok (np_scale c y)).
Proof.
case: a b => m n A [n' p B]; case: (n =P n') => [En|/eqP nn'].
  by subst n'; rewrite /np_scale /= !np_matmulE /= -scalemxAl.
by rewrite !np_matmul_mismatch.
Qed.

Lemma np_matmul_scale_r (c : F) (a b : ndarray) :
  np_matmul a (np_scale c b) = (y <- np_matmul a b ;; Ok (np_scale c y)).
Proof.
case: a b => m n A [n' p B]; case: (n =P n') => [En|/eqP nn'].
  by subst n'; rewrite /np_scale /= !np_matmulE /= -scalemxAr.
by rewrite !np_matmul_mismatch.
Qed.

Lemma np_matmul_1l (n : nat) (a : ndarray) :
  np_matmul (np_identity F n) a =
  if n == nrows a then Ok a else Raise ValueError.
Proof.
case: a => n' p A /=; case: (n =P n') => [En|/eqP nn'].
  by subst n'; rewrite /np_identity np_matmulE mul1mx.
by rewrite np_matmul_mismatch.
Qed.

Lemma np_matmul_1r (n : nat) (a : ndarray) :
  np_matmul a (np_identity F n) =
  if ncols a == n then Ok a else Raise ValueError.
Proof.
case: a => m n' A /=; case: (n' =P n) => [En|/eqP nn'].
  by subst n'; rewrite /np_identity np_matmulE mulmx1.
by rewrite np_matmul_mismatch.
Qed.

Lemma np_T_matmul (a b : ndarray) :
  (y <- np_matmul a b ;; Ok (np_T y)) = np_matmul (np_T b) (np_T a).
Proof.
case: a b => m n A [n' p B]; case: (n =P n') => [En|/eqP nn'].
  by subst n'; rewrite /np_T /= !np_matmulE /= trmx_mul.
by rewrite !np_matmul_mismatch //= eq_sym.
Qed.

Lemma np_T_scale (c : F) (a : ndarray) :
  np_T (np_scale c a) = np_scale c (np_T a).
Proof. by case: a => m n A; rewrite /np_T /np_scale /= linearZ. Qed.

Lemma np_scale_scale (c d : F) (a : ndarray) :
  np_scale c (np_scale d a) = np_scale (c * d) a.
Proof. by case: a => m n A; rewrite /np_scale /= scalerA. Qed.

(** *** Multiplication by an object and by its dense array *)

(** The classes whose entries are read off their attributes. *)
Definition dense_leaf (M : Matrix) : bool :=
  match M with
  | IdentityMatrix (Some _) | ScaledIdentityMatrix_ _ _ (Some _)
  | DiagonalMatrix_ _ _ | TriangularMatrix _ _ | DenseDefiniteMatrix_ _ _ _ _
  | DensePositiveDefiniteProductMatrix _ _ _ _ | DenseSquareMatrix _ _ _
  | DenseSymmetricMatrix _ _ _ | OrthogonalMatrix _
  | ScaledOrthogonalMatrix _ _ | DenseRectangularMatrix _ => true
  | _ => false
  end.

Lemma dense_leaf_array (M : Matrix) :
  dense_leaf M -> wf M ->
  exists2 a, array M = Ok a & shape M = array_shape a.
Proof.
case: M => //=.
- by case=> // n _ _; exists (np_identity F n).
- by move=> p c [] // n _ _; exists (np_scale c (np_identity F n)).
- by move=> p d _ _; exists (np_diag d).
- move=> a l _ /andP[/eqP sq _]; exists a => //.
  by rewrite /square_shape /array_shape sq.
- move=> p a f s _ /and4P[/eqP sq _ _ _]; exists a => //.
  by rewrite /square_shape /array_shape sq.
- move=> r pd a f _ /and4P[/eqP sq _ _ _]; exists a => //.
  by rewrite /square_shape /array_shape sq.
- move=> a lu t _ /eqP sq; exists a => //.
  by rewrite /square_shape /array_shape sq.
- move=> a v e _ /andP[/eqP sq _]; exists a => //.
  by rewrite /square_shape /array_shape sq.
- move=> a _ /eqP sq; exists a => //.
  by rewrite /square_shape /array_shape sq.
- move=> c a _ /eqP sq; exists (np_scale c a) => //.
  by rewrite /square_shape /array_shape /= sq.
- by move=> a _ _; exists a.
Qed.

Lemma guarded_matmul (a x : ndarray) (r : result ndarray) :
  (ncols a = nrows x -> r = np_matmul a x) ->
  (if Some (nrows x) != Some (ncols a) then Raise ValueError else r) =
  np_matmul a x.
Proof.
case: eqP => [[E]|ne] H /=; first by rewrite H.
rewrite np_matmul_mismatch //; apply/eqP => E; apply: ne.
by rewrite E.
Qed.

Lemma np_mul_rows_diag (d : vector) (x : ndarray) :
  size d = nrows x -> np_mul_rows d x = np_matmul (np_diag d) x.
Proof.
move=> E; rewrite /np_mul_rows /np_matmul /= E eqxx -E.
congr Ok; apply: mk_ext => i j lt_i lt_j.
rewrite (bigD1 (Ordinal lt_i)) //= /np_diag get_mk // eqxx.
rewrite big1 ?addr0 // => k ki.
rewrite get_mk //; case: eqP => [Eik|_]; last by rewrite mul0r.
by case/eqP: ki; apply: val_inj.
Qed.

Lemma np_mul_cols_diag (d : vector) (x : ndarray) :
  size d = ncols x -> np_mul_cols d x = np_matmul x (np_diag d).
Proof.
case: x => m n X /= E; subst n.
rewrite /np_mul_cols /np_matmul /= eqxx.
congr Ok; apply: mk_ext => i j lt_i lt_j.
rewrite (bigD1 (Ordinal lt_j)) //= /np_diag get_mk // eqxx mulrC.
rewrite big1 ?addr0 // => k kj.
rewrite get_mk //; case: eqP => [Ekj|_]; last by rewrite mulr0.
by case/eqP: kj; apply: val_inj.
Qed.

Lemma guarded_rmatmul (a x : ndarray) (r : result ndarray) :
  (ncols x = nrows a -> r = np_matmul x a) ->
  (if Some (ncols x) != Some (nrows a) then Raise ValueError else r) =
  np_matmul x a.
Proof.
case: eqP => [[E]|ne] H /=; first by rewrite H.
rewrite np_matmul_mismatch //; apply/eqP => E; apply: ne.
by rewrite E.
Qed.

(** [M @ x] on a leaf is the product of its dense array with [x], the
    [ValueError] of mismatched dimensions included. *)
Lemma dense_leaf_matmul (M : Matrix) (a x : ndarray) (depth : nat) :
  dense_leaf M -> wf M -> array M = Ok a ->
  (if matmul_mismatch M (Some (nrows x)) then Raise ValueError
   else _left_matrix_multiply_ depth.+1 M x) = np_matmul a x.
Proof.
rewrite /matmul_mismatch; case: M => //=.
- case=> // n _ _ [<-]; apply: (@guarded_matmul (np_identity F n)) => /= E.
  by rewrite np_matmul_1l E eqxx.
- move=> p c [] // n _ _ [<-].
  apply: (@guarded_matmul (np_scale c (np_identity F n))) => /= E.
  by rewrite np_matmul_scale_l np_matmul_1l E eqxx.
- move=> p d _ _ [<-]; apply: (@guarded_matmul (np_diag d)) => /= E.
  exact: np_mul_rows_diag.
- move=> a' l _ /andP[/eqP sq _] [<-]; rewrite sq.
  exact: guarded_matmul.
- move=> p a' f s _ /and4P[/eqP sq _ _ _] [<-]; rewrite sq.
  exact: guarded_matmul.
- move=> r pd a' f _ /and4P[/eqP sq _ _ _] [<-]; rewrite sq.
  exact: guarded_matmul.
- move=> a' lu t _ /eqP sq [<-]; rewrite sq; exact: guarded_matmul.
- move=> a' v e _ /andP[/eqP sq _] [<-]; rewrite sq; exact: guarded_matmul.
- move=> a' _ /eqP sq [<-]; rewrite sq; exact: guarded_matmul.
- move=> c a' _ /eqP sq [<-]; rewrite sq.
  apply: (@guarded_matmul (np_scale c a')) => _.
  by rewrite np_matmul_scale_l.
- move=> a' _ _ [<-]; exact: guarded_matmul.
Qed.

Lemma dense_leaf_rmatmul (M : Matrix) (a x : ndarray) (depth : nat) :
  dense_leaf M -> wf M -> array M = Ok a ->
  (if rmatmul_mismatch M (Some (ncols x)) then Raise ValueError
   else _right_matrix_multiply_ depth.+1 M x) = np_matmul x a.
Proof.
rewrite /rmatmul_mismatch; case: M => //=.
- case=> // n _ _ [<-]; apply: (@guarded_rmatmul (np_identity F n)) => /= E.
  by rewrite np_matmul_1r E eqxx.
- move=> p c [] // n _ _ [<-].
  apply: (@guarded_rmatmul (np_scale c (np_identity F n))) => /= E.
  by rewrite np_matmul_scale_r np_matmul_1r E eqxx.
- move=> p d _ _ [<-]; apply: (@guarded_rmatmul (np_diag d)) => /= E.
  exact: np_mul_cols_diag.
- move=> a' l _ /andP[/eqP sq _] [<-]; exact: guarded_rmatmul.
- move=> p a' f s _ /and4P[/eqP sq _ _ _] [<-]; exact: guarded_rmatmul.
- move=> r pd a' f _ /and4P[/eqP sq _ _ _] [<-]; exact: guarded_rmatmul.
- move=> a' lu t _ /eqP sq [<-]; exact: guarded_rmatmul.
- move=> a' v e _ /andP[/eqP sq _] [<-]; exact: guarded_rmatmul.
- move=> a' _ /eqP sq [<-]; exact: guarded_rmatmul.
- move=> c a' _ /eqP sq [<-].
  apply: (@guarded_rmatmul (np_scale c a')) => _.
  by rewrite np_matmul_scale_r.
- move=> a' _ _ [<-]; exact: guarded_rmatmul.
Qed.

(** The leaves above and the chains of two or more of them. *)
Definition dense (M : Matrix) : bool :=
  match M with
  | MatrixProduct ms => (1 < size ms)%N && all dense_leaf ms
  | _ => dense_leaf M
  end.

(** [a1 @ (a2 @ ... (an @ x))] and [((x @ a1) @ a2) ... @ an]. *)
Definition chain_l (arrays : seq ndarray) (x : result ndarray) :
    result ndarray :=
  foldr (fun a acc => y <- acc ;; np_matmul a y) x arrays.

Definition chain_r (x : result ndarray) (arrays : seq ndarray) :
    result ndarray :=
  foldl (fun acc a => y <- acc ;; np_matmul y a) x arrays.

Lemma chain_r_Raise (e : exception) (arrays : seq ndarray) :
  chain_r (Raise e) arrays = Raise e.
Proof. by elim: arrays. Qed.

Lemma chain_l_cons (a : ndarray) (arrays : seq ndarray)
    (x : result ndarray) :
  chain_l (a :: arrays) x = (y <- chain_l arrays x ;; np_matmul a y).
Proof. by []. Qed.

Lemma chain_r_cons (x : result ndarray) (a : ndarray)
    (arrays : seq ndarray) :
  chain_r x (a :: arrays) = chain_r (y <- x ;; np_matmul y a) arrays.
Proof. by []. Qed.

Lemma chain_r_matmul (a b : ndarray) (arrays : seq ndarray) :
  chain_r (np_matmul a b) arrays =
  (p <- chain_r (Ok b) arrays ;; np_matmul a p).
Proof.
elim: arrays b => [|c arrays IH] b //.
rewrite !chain_r_cons np_matmulA [in RHS]/=.
case: (np_matmul b c) => [bc|e] /=; first exact: IH.
by rewrite !chain_r_Raise.
Qed.

Lemma chain_l_r (a x : ndarray) (arrays : seq ndarray) :
  chain_l (a :: arrays) (Ok x) =
  (p <- chain_r (Ok a) arrays ;; np_matmul p x).
Proof.
elim: arrays a => [|b arrays IH] a //.
rewrite chain_l_cons IH chain_r_cons [bind (Ok a) _]/= chain_r_matmul.
case: (chain_r (Ok b) arrays) => [q|e] //=.
by rewrite np_matmulA.
Qed.

Lemma dense_leaves_arrays (ms : seq Matrix) :
  all dense_leaf ms -> all wf ms ->
  exists2 arrays, mapM array ms = Ok arrays &
                  map shape ms = map array_shape arrays.
Proof.
elim: ms => [|m ms IH] /=; first by exists [::].
case/andP=> lm /IH{}IH /andP[wm /IH[arrays -> Es]].
have [a -> Ea] := dense_leaf_array lm wm.
by exists (a :: arrays) => //=; rewrite Ea Es.
Qed.

Lemma left_chain_arrays (depth : nat) (ms : seq Matrix)
    (arrays : seq ndarray) (r : result ndarray) :
  all dense_leaf ms -> all wf ms -> mapM array ms = Ok arrays ->
  foldr (fun m acc => x <- acc ;;
           if matmul_mismatch m (Some (nrows x)) then Raise ValueError
           else _left_matrix_multiply_ depth.+1 m x) r ms =
  chain_l arrays r.
Proof.
elim: ms arrays => [|m ms IH] arrays /=; first by move=> _ _ [<-].
case/andP=> lm lms /andP[wm wms].
case Em: (array m) => [a|] //=; case Ems: (mapM array ms) => [as'|] //= [<-].
rewrite (IH as') //=; case: (chain_l as' r) => [y|e] //=.
exact: dense_leaf_matmul.
Qed.

Lemma right_chain_arrays (depth : nat) (ms : seq Matrix)
    (arrays : seq ndarray) (r : result ndarray) :
  all dense_leaf ms -> all wf ms -> mapM array ms = Ok arrays ->
  foldl (fun acc m => x <- acc ;;
           if rmatmul_mismatch m (Some (ncols x)) then Raise ValueError
           else _right_matrix_multiply_ depth.+1 m x) r ms =
  chain_r r arrays.
Proof.
elim: ms arrays r => [|m ms IH] arrays r /=; first by move=> _ _ [<-].
case/andP=> lm lms /andP[wm wms].
case Em: (array m) => [a|] //=; case Ems: (mapM array ms) => [as'|] //= [<-].
rewrite (IH as') //=; congr (chain_r _ as').
by case: r => [y|e] //=; exact: dense_leaf_rmatmul.
Qed.

Arguments chain_l : simpl never.
Arguments chain_r : simpl never.

Lemma chain_l_mismatch (a x : ndarray) (arrays : seq ndarray) :
  ncols (last a arrays) != nrows x ->
  chain_l (a :: arrays) (Ok x) = Raise ValueError.
Proof.
elim: arrays a => [|b arrays IH] a /=; first exact: np_matmul_mismatch.
by move/IH=> E; rewrite chain_l_cons E.
Qed.

Lemma if_bind (X Y : Type) (c : bool) (e : exception) (r : result X)
    (k : X -> result Y) :
  (if c then Raise e else bind r k) = bind (if c then Raise e else r) k.
Proof. by case: c. Qed.

Lemma _left_matrix_multiply_MatrixProduct (depth : nat) (ms : seq Matrix)
    (x : ndarray) :
  _left_matrix_multiply_ depth.+1 (MatrixProduct ms) x =
  foldr (fun m acc => y <- acc ;;
           if matmul_mismatch m (Some (nrows y)) then Raise ValueError
           else _left_matrix_multiply_ depth m y) (Ok x) ms.
Proof. by []. Qed.

Lemma _right_matrix_multiply_MatrixProduct (depth : nat) (ms : seq Matrix)
    (x : ndarray) :
  _right_matrix_multiply_ depth.+1 (MatrixProduct ms) x =
  foldl (fun acc m => y <- acc ;;
           if rmatmul_mismatch m (Some (ncols y)) then Raise ValueError
           else _right_matrix_multiply_ depth m y) (Ok x) ms.
Proof. by []. Qed.

Lemma height_MatrixProduct (ms : seq Matrix) :
  exists depth, height (MatrixProduct ms) = depth.+2.
Proof.
rewrite /=; case: (foldr maxn 1%N _) (seq_height_gt0 ms) => [|depth] // _.
by exists depth.
Qed.

Lemma shape_MatrixProduct (ms : seq Matrix) :
  shape (MatrixProduct ms) =
  ((head (None, None) (map shape ms)).1, (last (None, None) (map shape ms)).2).
Proof. by []. Qed.

Lemma matmul_chain (m : Matrix) (ms : seq Matrix) (a x : ndarray)
    (arrays : seq ndarray) :
  all dense_leaf (m :: ms) -> all wf (m :: ms) ->
  mapM array (m :: ms) = Ok (a :: arrays) ->
  (if matmul_mismatch (MatrixProduct (m :: ms)) (Some (nrows x))
   then Raise ValueError
   else _left_matrix_multiply (MatrixProduct (m :: ms)) x) =
  chain_l (a :: arrays) (Ok x).
Proof.
move=> lms wms Ems; rewrite /_left_matrix_multiply.
have [arrays' Ems' Es] := dense_leaves_arrays lms wms.
move: Ems' Es; rewrite Ems => -[<-] Es.
have [depth ->] := height_MatrixProduct (m :: ms).
rewrite _left_matrix_multiply_MatrixProduct.
rewrite (left_chain_arrays _ _ lms wms Ems).
rewrite /matmul_mismatch shape_MatrixProduct Es /= last_map /=.
case: eqP => [_|ne] //; rewrite chain_l_mismatch //.
by apply/eqP => E; apply: ne; rewrite E.
Qed.

Lemma rmatmul_chain (m : Matrix) (ms : seq Matrix) (a x : ndarray)
    (arrays : seq ndarray) :
  all dense_leaf (m :: ms) -> all wf (m :: ms) ->
  mapM array (m :: ms) = Ok (a :: arrays) ->
  (if rmatmul_mismatch (MatrixProduct (m :: ms)) (Some (ncols x))
   then Raise ValueError
   else _right_matrix_multiply (MatrixProduct (m :: ms)) x) =
  chain_r (Ok x) (a :: arrays).
Proof.
move=> lms wms Ems; rewrite /_right_matrix_multiply.
have [arrays' Ems' Es] := dense_leaves_arrays lms wms.
move: Ems' Es; rewrite Ems => -[<-] Es.
have [depth ->] := height_MatrixProduct (m :: ms).
rewrite _right_matrix_multiply_MatrixProduct.
rewrite (right_chain_arrays _ _ lms wms Ems).
rewrite /rmatmul_mismatch shape_MatrixProduct Es /=.
case: eqP => [_|ne] //; rewrite chain_r_cons /= np_matmul_mismatch.
  by apply/eqP => E; apply: ne; rewrite E.
by rewrite chain_r_Raise.
Qed.

Lemma array_MatrixProduct (m : Matrix) (ms : seq Matrix) :
  array (MatrixProduct (m :: ms)) =
  (a <- array m ;; P <- MatrixProduct_init ms ;;
   matmul_array (OArray a) (OMatrix P)).
Proof. by []. Qed.

Lemma mapM_cons (X Y : Type) (f : X -> result Y) (x : X) (xs : seq X)
    (ys : seq Y) :
  mapM f (x :: xs) = Ok ys ->
  exists y ys', [/\ ys = y :: ys', f x = Ok y & mapM f xs = Ok ys'].
Proof.
rewrite /=; case: (f x) => [y|] //=; case: (mapM f xs) => [ys'|] //= [<-].
by exists y, ys'.
Qed.

Lemma array_chain (m : Matrix) (ms : seq Matrix) (a : ndarray)
    (arrays : seq ndarray) :
  all dense_leaf (m :: ms) -> all wf (m :: ms) -> ~~ nilp ms ->
  mapM array (m :: ms) = Ok (a :: arrays) ->
  array (MatrixProduct (m :: ms)) = chain_r (Ok a) arrays.
Proof.
move=> /andP[_ lms] /andP[_ wms] n0 Ea.
have [a' [arrays' [[Ea' Eas'] Em Ems]]] := mapM_cons Ea.
move: Em Ems; rewrite -{a'}Ea' -{arrays'}Eas' => Em Ems {Ea}.
rewrite array_MatrixProduct Em /=.
case: ms n0 lms wms Ems => [|m2 ms] // _ lms wms Ems.
have [a2 [arrays2 [E2 _ _]]] := mapM_cons Ems.
move: Ems; rewrite {arrays}E2 => Ems.
rewrite /MatrixProduct_init /= /matmul_array /= /__rmatmul__ [operand_cols _]/=.
rewrite if_bind (rmatmul_chain _ lms wms Ems).
by case: (chain_r _ _).
Qed.

Lemma dense_cases (M : Matrix) :
  dense M ->
  dense_leaf M \/
  exists m ms, [/\ M = MatrixProduct (m :: ms), ~~ nilp ms &
                   all dense_leaf (m :: ms)].
Proof.
case: M; try by [move=> *; left].
case=> [|m [|m2 ms]] //= lms; right.
by exists m, (m2 :: ms).
Qed.

Lemma dense_leaf_matmul_top (M : Matrix) (x : ndarray) :
  dense_leaf M -> wf M ->
  (if matmul_mismatch M (Some (nrows x)) then Raise ValueError
   else _left_matrix_multiply M x) = (a <- array M ;; np_matmul a x).
Proof.
move=> lM wM; have [a Ea _] := dense_leaf_array lM wM.
rewrite /_left_matrix_multiply Ea /=.
case Ed: (height M) (height_gt0 M) => [|depth] // _.
exact: dense_leaf_matmul.
Qed.

Lemma dense_leaf_rmatmul_top (M : Matrix) (x : ndarray) :
  dense_leaf M -> wf M ->
  (if rmatmul_mismatch M (Some (ncols x)) then Raise ValueError
   else _right_matrix_multiply M x) = (a <- array M ;; np_matmul x a).
Proof.
move=> lM wM; have [a Ea _] := dense_leaf_array lM wM.
rewrite /_right_matrix_multiply Ea /=.
case Ed: (height M) (height_gt0 M) => [|depth] // _.
exact: dense_leaf_rmatmul.
Qed.

(** [M @ x] and [x @ M] are the products of the dense array of [M] with
    [x]. *)
Lemma dense_matmul (M : Matrix) (x : ndarray) :
  dense M -> wf M ->
  matmul (OMatrix M) (OArray x) =
  (a <- array M ;; r <- np_matmul a x ;; Ok (OArray r)).
Proof.
rewrite /matmul /__matmul__ [operand_rows _]/= if_bind.
case/dense_cases=> [lM wM|[m [ms [-> n0 lms]]] /andP[_ wms]].
  by rewrite dense_leaf_matmul_top //; case: (array M).
have [arrays Ems _] := dense_leaves_arrays lms wms.
have [a [arrays' [Ea _ _]]] := mapM_cons Ems.
move: Ems; rewrite {arrays}Ea => Ems.
rewrite (matmul_chain _ lms wms Ems) chain_l_r (array_chain lms wms n0 Ems).
by case: (chain_r _ _).
Qed.

Lemma dense_rmatmul (M : Matrix) (x : ndarray) :
  dense M -> wf M ->
  matmul (OArray x) (OMatrix M) =
  (a <- array M ;; r <- np_matmul x a ;; Ok (OArray r)).
Proof.
rewrite /matmul /__rmatmul__ [operand_cols _]/= if_bind.
case/dense_cases=> [lM wM|[m [ms [-> n0 lms]]] /andP[_ wms]].
  by rewrite dense_leaf_rmatmul_top //; case: (array M).
have [arrays Ems _] := dense_leaves_arrays lms wms.
have [a [arrays' [Ea _ _]]] := mapM_cons Ems.
move: Ems; rewrite {arrays}Ea => Ems.
rewrite (rmatmul_chain _ lms wms Ems) chain_r_cons [bind (Ok x) _]/=.
rewrite chain_r_matmul (array_chain lms wms n0 Ems).
by case: (chain_r _ _).
Qed.

(** *** The dense array of a scalar multiple *)

Lemma np_scale_mk (c : F) (m n : nat) (f : nat -> nat -> F) :
  np_scale c (mk m n f) = mk m n (fun i j => c * f i j).
Proof.
by rewrite /np_scale /mk /=; congr NdArray; apply/matrixP => i j; rewrite !mxE.
Qed.

Lemma np_diag_scale (d : vector) (c : F) :
  np_diag (vec_scale d c) = np_scale c (np_diag d).
Proof.
rewrite /np_diag np_scale_mk /vec_scale size_map.
apply: mk_ext => i j lt_i lt_j; case: eqP => _; last by rewrite mulr0.
by rewrite (nth_map 0) // mulrC.
Qed.

Lemma np_scale_triangular (c : F) (a : ndarray) (lower : bool) :
  is_triangular_array a lower ->
  (if lower then np_tril (np_scale c a) else np_triu (np_scale c a)) =
  np_scale c a.
Proof.
case: a => m n A; rewrite /is_triangular_array /=.
case: lower => /is_trig_mxP trigA.
  apply: np_tril_triangular; apply/is_trig_mxP => i j lt_ij /=.
  by rewrite mxE trigA ?mulr0.
apply: np_triu_triangular; apply/is_trig_mxP => i j lt_ij /=.
by move: (trigA i j lt_ij); rewrite !mxE => ->; rewrite mulr0.
Qed.

Lemma dense_leaf_scale (M M' : Matrix) (scalar : F) :
  dense_leaf M -> wf M -> mul_object M scalar = Ok M' ->
  array M' = (a <- array M ;; Ok (np_scale scalar a)).
Proof.
rewrite /mul_object /__rmul__ /__mul__; case: eqP => // _.
case: M => //.
- case=> // n _ _; rewrite /=; unfold_init.
  by invert_all.
- move=> p c [] // n _ _; rewrite /=; unfold_init.
  by invert_all; rewrite np_scale_scale.
- move=> p d _ _; rewrite /=; unfold_init.
  by invert_all; rewrite np_diag_scale.
- move=> a l _ /andP[_ tri]; rewrite /=; unfold_init => -[<-] /=.
  by rewrite np_scale_triangular.
- move=> p a f s _ _; rewrite /=; case: (omapM _ f) => [f'|] //=.
  by unfold_init; invert_all.
- move=> r pd a f _ _; rewrite /=; case: (omapM _ f) => [f'|] //=.
  by unfold_init; invert_all.
- move=> a lu t _ _.
  have [lu' [t' ->]] := DenseSquareMatrix_scalar_multiply a lu t scalar.
  by case=> <-.
- by move=> a v e _ _ [<-].
- by move=> a _ _ [<-].
- by move=> c a _ _ [<-] /=; rewrite np_scale_scale.
- by move=> a _ _ [<-].
Qed.

Lemma chain_r_scale (c : F) (a : ndarray) (arrays : seq ndarray) :
  chain_r (Ok (np_scale c a)) arrays =
  (p <- chain_r (Ok a) arrays ;; Ok (np_scale c p)).
Proof.
elim: arrays a => [|b arrays IH] a //.
rewrite !chain_r_cons [bind (Ok _) _]/= [bind (Ok a) _]/= np_matmul_scale_l.
case: (np_matmul a b) => [y|e] /=; first exact: IH.
by rewrite !chain_r_Raise.
Qed.

Lemma _scalar_multiply_MatrixProduct (ms : seq Matrix) (scalar : F) :
  _scalar_multiply (MatrixProduct ms) scalar =
  (si <- ScaledIdentityMatrix_init scalar (shape (MatrixProduct ms)).1 ;;
   new (MatrixProduct_init (si :: ms))).
Proof. by []. Qed.

(** The dense array of [scalar * M] is [scalar] times the dense array of
    [M]. *)
Lemma dense_scale (M M' : Matrix) (scalar : F) :
  dense M -> wf M -> mul_object M scalar = Ok M' ->
  array M' = (a <- array M ;; Ok (np_scale scalar a)).
Proof.
case/dense_cases=> [lM wM|[m [ms [-> n0 lms]]] /andP[_ wms]].
  exact: dense_leaf_scale.
have [arrays Ems Es] := dense_leaves_arrays lms wms.
have [a [arrays' [Ea _ _]]] := mapM_cons Ems.
move: Ems Es; rewrite {arrays}Ea => Ems Es.
rewrite (array_chain lms wms n0 Ems).
rewrite /mul_object /__rmul__ /__mul__; case: eqP => // /eqP c0.
rewrite _scalar_multiply_MatrixProduct shape_MatrixProduct Es /=.
rewrite /ScaledIdentityMatrix_init /ScaledIdentityMatrix_init_ (negbTE c0) /=.
case=> <-.
set si := ScaledIdentityMatrix_ _ _ _.
have lms' : all dense_leaf (si :: m :: ms) by [].
have wms' : all wf (si :: m :: ms) by rewrite /= c0; move: wms => /= ->.
have Ems' : mapM array (si :: m :: ms) =
            Ok (np_scale scalar (np_identity F (nrows a)) :: a :: arrays').
  by rewrite [mapM _ _]/=; move: Ems => /= ->.
rewrite (array_chain lms' wms' _ Ems') // chain_r_cons [bind (Ok _) _]/=.
by rewrite np_matmul_scale_l np_matmul_1l eqxx /= chain_r_scale.
Qed.

(** *** The dense array of a transpose *)

Lemma np_T_mk (m n : nat) (f : nat -> nat -> F) :
  np_T (mk m n f) = mk n m (fun i j => f j i).
Proof.
by rewrite /np_T /mk /=; congr NdArray; apply/matrixP => i j; rewrite !mxE.
Qed.

Lemma np_T_identity (n : nat) : np_T (np_identity F n) = np_identity F n.
Proof. by rewrite /np_T /np_identity /= trmx1. Qed.

Lemma np_T_diag (d : vector) : np_T (np_diag d) = np_diag d.
Proof.
rewrite /np_diag np_T_mk; apply: mk_ext => i j _ _.
by rewrite eq_sym; case: eqP => // ->.
Qed.

Lemma np_triu_is_triangular (a : ndarray) :
  is_triangular_array (np_triu a) false.
Proof.
by apply/is_trig_mxP => i j lt_ij; rewrite !mxE leqNgt lt_ij.
Qed.

(** The classes that are their own transposes hold an array that the
    constructor takes to be symmetric without testing it. *)
Definition symmetric_data (M : Matrix) : Prop :=
  match M with
  | DenseDefiniteMatrix_ _ a _ _ | DensePositiveDefiniteProductMatrix _ _ a _
  | DenseSymmetricMatrix a _ _ => np_T a = a
  | _ => True
  end.

Definition symmetric_arrays (M : Matrix) : Prop :=
  match M with
  | MatrixProduct ms => Pseq symmetric_data ms
  | _ => symmetric_data M
  end.

Lemma dense_leaf_T (M M' : Matrix) :
  dense_leaf M -> wf M -> symmetric_data M -> T_object M = Ok M' ->
  [/\ dense_leaf M', wf M' & array M' = (a <- array M ;; Ok (np_T a))].
Proof.
rewrite /T_object; case: M => //.
- by case=> // n _ _ _ [<-]; split=> //=; rewrite np_T_identity.
- move=> p c [] // n _ wM _ [<-]; split=> //=.
  by rewrite np_T_scale np_T_identity.
- by move=> p d _ wM _ [<-]; split=> //=; rewrite np_T_diag.
- move=> a l _ /andP[/eqP sq tri] _ [<-]; split=> //=.
    case: l tri => /= tri; apply/andP; split.
    + by rewrite /is_square_array /= sq.
    + exact: (np_triu_is_triangular (np_T a)).
    + by rewrite /is_square_array /= sq.
    + exact: (np_tril_is_triangular (np_T a)).
  case: l tri => /= tri; congr Ok.
    by rewrite -np_T_tril np_tril_triangular.
  by rewrite -np_T_triu np_triu_triangular.
- by move=> p a f s _ wM /= Ea [<-]; split=> //=; rewrite Ea.
- by move=> r pd a f _ wM /= Ea [<-]; split=> //=; rewrite Ea.
- move=> a lu t _ /eqP sq _ /=.
  case: lu => [f|] /=; [|case: (lu_factor _ _) => //= f]; case=> <-;
    by split=> //=; rewrite /is_square_array /= sq.
- by move=> a v e _ wM /= Ea [<-]; split=> //=; rewrite Ea.
- by move=> a _ /eqP sq _ [<-]; split=> //=; rewrite /is_square_array /= sq.
- move=> c a _ /eqP sq _ [<-]; split=> //=.
    by rewrite /is_square_array /= sq.
  by rewrite np_T_scale.
- by move=> a _ _ _ [<-].
Qed.


Lemma mapM_size (X Y : Type) (f : X -> result Y) (xs : seq X) (ys : seq Y) :
  mapM f xs = Ok ys -> size ys = size xs.
Proof.
elim: xs ys => [|x xs IH] ys /=; first by case=> <-.
case: (f x) => [y|] //=; case: (mapM f xs) IH => //= ys' IH [<-] /=.
by rewrite (IH ys').
Qed.

Lemma chain_r_rcons (r : result ndarray) (arrays : seq ndarray)
    (b : ndarray) :
  chain_r r (rcons arrays b) = (y <- chain_r r arrays ;; np_matmul y b).
Proof. by rewrite /chain_r -cats1 foldl_cat. Qed.

Lemma chain_r_rev_T (x : ndarray) (arrays : seq ndarray) :
  chain_r (Ok (np_T x)) (rev (map (@np_T F) arrays)) =
  (y <- chain_l arrays (Ok x) ;; Ok (np_T y)).
Proof.
elim: arrays => [|a arrays IH] //.
rewrite map_cons rev_cons chain_r_rcons IH chain_l_cons.
case: (chain_l arrays (Ok x)) => [z|e] //=.
by rewrite np_T_matmul.
Qed.

Lemma chain_l_belast (a : ndarray) (arrays : seq ndarray) :
  chain_l (belast a arrays) (Ok (last a arrays)) = chain_r (Ok a) arrays.
Proof.
case: arrays => [|b arrays] //.
by rewrite [belast _ _]/= [last _ _]/= chain_l_r -chain_r_rcons -lastI.
Qed.

Lemma dense_leaves_T (ms ts : seq Matrix) (arrays : seq ndarray) :
  all dense_leaf ms -> all wf ms -> Pseq symmetric_data ms ->
  mapM T_object ms = Ok ts -> mapM array ms = Ok arrays ->
  [/\ all dense_leaf ts, all wf ts & mapM array ts = Ok (map (@np_T F) arrays)].
Proof.
elim: ms ts arrays => [|m ms IH] ts arrays /=.
  by move=> _ _ _ [<-] [<-].
case/andP=> lm lms /andP[wm wms] [sm sms].
case Et: (T_object m) => [t|] //=.
case Ets: (mapM T_object ms) => [ts'|] //= [<-].
case Ea: (array m) => [a|] //=.
case Eas: (mapM array ms) => [as'|] //= [<-].
have [lt wt Eat] := dense_leaf_T lm wm sm Et.
have [lts wts Eats] := IH _ _ lms wms sms Ets Eas.
split; rewrite /= ?lt ?wt //.
by rewrite Eat Ea /= Eats.
Qed.

(** The dense array of [M.T] is the transpose of the dense array of
    [M]. *)
Lemma dense_T (M M' : Matrix) :
  dense M -> wf M -> symmetric_arrays M -> T_object M = Ok M' ->
  array M' = (a <- array M ;; Ok (np_T a)).
Proof.
case/dense_cases=> [lM wM sM EM'|[m [ms [-> n0 lms]]] /andP[_ wms] sms].
  have sM' : symmetric_data M by case: (M) lM sM.
  by have [] := dense_leaf_T lM wM sM' EM'.
have [arrays Ems _] := dense_leaves_arrays lms wms.
have [a [arrays' [Ea _ Ems']]] := mapM_cons Ems.
move: Ems; rewrite {arrays}Ea => Ems.
rewrite (array_chain lms wms n0 Ems) T_object_MatrixProduct.
case Ets: (mapM T_object _) => [ts|] //= /MatrixProduct_init_inv ->.
have lr : all dense_leaf (rev (m :: ms)) by rewrite all_rev.
have wr : all wf (rev (m :: ms)) by rewrite all_rev.
have [lts wts] := dense_leaves_T lr wr (Pseq_rev sms) Ets (mapM_rev_Ok Ems).
rewrite [a :: arrays']lastI rev_rcons map_cons => Eats.
have n0' : ~~ nilp arrays'.
  by rewrite /nilp (mapM_size Ems'); case: (ms) n0.
case: ts lts wts Eats {Ets} => [|t ts] // lts wts Eats.
have n0t : ~~ nilp ts.
  have := mapM_size Eats; rewrite /nilp /= size_map size_rev size_belast.
  by case=> <-; case: (arrays') n0'.
rewrite (array_chain lts wts n0t Eats) map_rev chain_r_rev_T.
by rewrite chain_l_belast.
Qed.

(** *** Multiplication by an inverse *)

(** The classes whose inverse is computed from their attributes. *)
Definition explicit_inverse (M : Matrix) : bool :=
  match M with
  | IdentityMatrix _ | ScaledIdentityMatrix_ _ _ _ | DiagonalMatrix_ _ _
  | OrthogonalMatrix _ | ScaledOrthogonalMatrix _ _ => true
  | _ => false
  end.

(** The array of an orthogonal class is orthogonal, which the constructors
    take for granted. *)
Definition orthogonal_data (M : Matrix) : Prop :=
  match M with
  | OrthogonalMatrix a | ScaledOrthogonalMatrix _ a =>
      np_matmul (np_T a) a = Ok (np_identity F (ncols a))
  | _ => True
  end.

Lemma np_scale1 (a : ndarray) : np_scale 1 a = a.
Proof. by case: a => m n A; rewrite /np_scale /= scale1r. Qed.

Lemma np_scale_invK (c : F) (a : ndarray) :
  c != 0 -> np_scale (1 / c) (np_scale c a) = a.
Proof. by move=> c0; rewrite np_scale_scale div1r mulVf // np_scale1. Qed.

Lemma np_mul_rows_inv (d : vector) (x y : ndarray) :
  all (fun c => c != 0) d -> size d = nrows x -> np_mul_rows d x = Ok y ->
  nrows y = nrows x /\ np_mul_rows (vec_inv d) y = Ok x.
Proof.
move=> d0 E; rewrite /np_mul_rows E eqxx => -[<-] /=; split=> //.
rewrite /vec_inv size_map E eqxx; congr Ok.
rewrite -[RHS]mk_get; apply: mk_ext => i j lt_i lt_j.
rewrite get_mk // (nth_map 0) ?E // mulrA div1r mulVf ?mul1r //.
by move/all_nthP: d0; apply; rewrite E.
Qed.

Lemma np_matmul_Ok (a x y : ndarray) :
  np_matmul a x = Ok y -> nrows y = nrows a /\ ncols a = nrows x.
Proof. by rewrite /np_matmul; case: eqP => // E [<-]. Qed.

Lemma orthogonal_cancels (a x y : ndarray) :
  np_matmul (np_T a) a = Ok (np_identity F (ncols a)) ->
  np_matmul a x = Ok y -> np_matmul (np_T a) y = Ok x.
Proof.
move=> orth Ey; have [_ E] := np_matmul_Ok Ey.
by have := np_matmulA (np_T a) a x; rewrite orth Ey /= np_matmul_1l E eqxx.
Qed.

(** [M.inv @ (M @ x)] is [x]. *)
Lemma inv_matmul_cancels (M : Matrix) (x y : ndarray) :
  explicit_inverse M -> wf M -> elementary M -> orthogonal_data M ->
  matmul (OMatrix M) (OArray x) = Ok (OArray y) ->
  exists2 M1, inv_object M = Ok M1 &
              matmul (OMatrix M1) (OArray y) = Ok (OArray x).
Proof.
rewrite /matmul /__matmul__ [operand_rows _]/= /_left_matrix_multiply.
case: M => //.
- move=> size _ _ _ _ /=; case: ifP => // Hm [<-].
  by exists (IdentityMatrix size); rewrite //= Hm.
- move=> p c size _ /andP[c0 pc] _ _ /=; case: ifP => // Hm [<-].
  exists (ScaledIdentityMatrix_ p (1 / c) size).
    exact: ScaledIdentityMatrix_inv_Ok.
  by move: Hm; rewrite /matmul_mismatch /= => ->; rewrite np_scale_invK.
- move=> p d _ wM d0 _; rewrite /matmul_mismatch /=.
  case: eqP => // -[E]; case Ey: (np_mul_rows d x) => [y'|] //= [Ey'].
  move: Ey; rewrite {y'}Ey' => Ey.
  have [rows Ex] := np_mul_rows_inv d0 (esym E) Ey.
  exists (DiagonalMatrix_ p (vec_inv d)); first exact: DiagonalMatrix_inv_Ok.
  by rewrite /= /vec_inv size_map rows E eqxx /= -/(vec_inv d) Ex.
- move=> a _ /eqP sq _ orth; rewrite /matmul_mismatch /=.
  case: eqP => // -[E]; case Ey: (np_matmul a x) => [y'|] //= [Ey'].
  move: Ey; rewrite {y'}Ey' => Ey; have [rows _] := np_matmul_Ok Ey.
  exists (OrthogonalMatrix (np_T a)) => //.
  by rewrite /= rows sq eqxx /= (orthogonal_cancels orth Ey).
- move=> c a _ /eqP sq c0 orth; rewrite /matmul_mismatch /=.
  case: eqP => // -[E]; case Ey: (np_matmul a x) => [y'|] //= [<-].
  have [rows _] := np_matmul_Ok Ey.
  exists (ScaledOrthogonalMatrix (1 / c) (np_T a)) => //.
  rewrite /= rows sq eqxx /= np_matmul_scale_r (orthogonal_cancels orth Ey) /=.
  by rewrite np_scale_invK.
Qed.

(** *** The log-determinant of a transpose *)

(** The capacitance matrix of every square low-rank update is held: [T]
    transposes the one that is held, and one that is computed on demand
    is factorised by the backend. *)
Fixpoint capacitance_held (self : Matrix) : bool :=
  match self with
  | BlockDiagonalMatrix_ Square blocks => all capacitance_held blocks
  | LowRankUpdateMatrix_ Square _ _ Sq K cap _ =>
      [&& capacitance_held Sq, capacitance_held K &
          if cap is Some c then capacitance_held c else false]
  | _ => true
  end.

Definition log_abs_det_T (M : Matrix) : Prop :=
  wf M -> capacitance_held M ->
  forall M', T_object M = Ok M' -> log_abs_det M' = log_abs_det M.

Lemma mapM_log_abs_det_T (bs ts : seq Matrix) :
  Pseq log_abs_det_T bs -> all wf bs -> all capacitance_held bs ->
  mapM T_object bs = Ok ts ->
  mapM log_abs_det ts = mapM log_abs_det bs.
Proof.
elim: bs ts => [|b bs IH] ts /=; first by move=> _ _ _ [<-].
case=> Hb Hbs /andP[wb wbs] /andP[cb cbs].
case Et: (T_object b) => [t|] //=.
case Ets: (mapM T_object bs) => [ts'|] //= [<-] /=.
by rewrite (Hb wb cb _ Et) (IH _ Hbs wbs cbs Ets).
Qed.

Lemma log_abs_det_T_holds (M : Matrix) : log_abs_det_T M.
Proof.
matrix_induction M; rewrite /log_abs_det_T => wM cM M';
  try by [rewrite /T_object /= => -[<-]].
- rewrite T_object_MatrixProduct.
  by case: (mapM _ _) => //= ts /MatrixProduct_init_inv ->.
- rewrite /T_object /= /TriangularMatrix_init /= => -[<-] /=.
  by case: (l) => /=; rewrite ?np_diagonal_tril ?np_diagonal_triu np_diagonal_T.
- rewrite /T_object /= => -[<-] /=.
  by case: (l) => /=; rewrite ?np_diagonal_tril ?np_diagonal_triu np_diagonal_T.
- rewrite /T_object /= /lu_and_piv_property.
  by case: (lu) => [f|] /=; [|case: (lu_factor _ _) => //= f]; case=> <-.
- by move/eqP: wM => sq; rewrite /T_object /= => -[<-] /=; rewrite sq.
- case: cls wM cM => wM cM; try by [rewrite /T_object /= => -[<-]].
  have [_ _ _ wbs] := and4P wM.
  rewrite T_object_SquareBlockDiagonalMatrix.
  case Ets: (mapM _ _) => [ts|] //= /SquareBlockDiagonalMatrix_init_inv ->.
  by rewrite /= (mapM_log_abs_det_T IHbs wbs cM Ets).
- rewrite T_object_BlockRowMatrix.
  by case: (mapM _ _) => //= ts /BlockColumnMatrix_init_inv ->.
- rewrite T_object_BlockColumnMatrix.
  by case: (mapM _ _) => //= ts /BlockRowMatrix_init_inv ->.
- case: cls wM cM => wM cM; try by [rewrite /T_object /= => -[<-]].
  move: wM => /= /and5P[_ _ _ _ /and5P[_ _ wS wK wcap]].
  rewrite T_object_SquareLowRankUpdateMatrix.
  case ER: (T_object R) => [rt|] //=; case EL: (T_object L) => [lt|] //=.
  case ES: (T_object Sq) => [st|] //=; case EK: (T_object K) => [kt|] //=.
  case: cap wcap cM IHcap => [c|] /= wc /and3P[cS cK cc] IHc //.
  case Ec: (T_object c) => [ct|] //= /SquareLowRankUpdateMatrix_init_inv ->.
  by rewrite /= (IHS wS cS _ ES) (IHK wK cK _ EK) (IHc wc cc _ Ec).
Qed.


(** *** The log-determinant of a scalar multiple *)













(** *** The shape of a product *)

Lemma matmul_shape (A B : Matrix) (r : operand) :
  wf B -> matmul (OMatrix A) (OMatrix B) = Ok r ->
  exists2 P, r = OMatrix P & shape P = ((shape A).1, (shape B).2).
Proof.
move=> wB; rewrite /matmul __matmul__E; case: ifP => // _ [<-].
exists (MatrixProduct (A :: factors B)) => //.
rewrite shape_MatrixProduct /=; congr (_, _).
by case: B wB => //= -[|m ms] //= _; rewrite (last_map shape ms m).
Qed.

End Matrices.

Arguments IdentityMatrix {F} size.
Arguments Self {F}.

Notation ScaledIdentityMatrix := (ScaledIdentityMatrix_ false).
Notation PositiveScaledIdentityMatrix := (ScaledIdentityMatrix_ true).
Notation DiagonalMatrix := (DiagonalMatrix_ false).
Notation PositiveDiagonalMatrix := (DiagonalMatrix_ true).
Notation TriangularFactoredDefiniteMatrix :=
  (TriangularFactoredDefiniteMatrix_ false).
Notation TriangularFactoredPositiveDefiniteMatrix :=
  (TriangularFactoredDefiniteMatrix_ true).
Notation DenseDefiniteMatrix := (DenseDefiniteMatrix_ false).
Notation DensePositiveDefiniteMatrix := (DenseDefiniteMatrix_ true).
Notation EigendecomposedSymmetricMatrix :=
  (EigendecomposedMatrix_ (EigSymmetric _)).
Notation EigendecomposedPositiveDefiniteMatrix :=
  (EigendecomposedMatrix_ (EigPositiveDefinite _)).
Notation SquareBlockDiagonalMatrix := (BlockDiagonalMatrix_ Square).
Notation SymmetricBlockDiagonalMatrix := (BlockDiagonalMatrix_ Symmetric).
Notation PositiveDefiniteBlockDiagonalMatrix :=
  (BlockDiagonalMatrix_ PositiveDefinite).
Notation SquareLowRankUpdateMatrix := (LowRankUpdateMatrix_ Square).
Notation SymmetricLowRankUpdateMatrix := (LowRankUpdateMatrix_ Symmetric).
Notation PositiveDefiniteLowRankUpdateMatrix :=
  (LowRankUpdateMatrix_ PositiveDefinite).

(** A backend without factorisations, for evaluating the operations that
    need none. *)
Definition no_backend : backend rat :=
  Backend (fun _ => Raise LinAlgError) (fun _ => Raise LinAlgError)
          (fun _ => Raise LinAlgError) (fun _ _ _ => Raise LinAlgError)
          (fun _ _ _ _ => Raise LinAlgError) id id.

End Objects.

(** * The properties *)

Import Objects.

(** ** Multiplication of matrix objects *)

(** A chain on the left of [@]: [(I @ I) @ I] for identities of size 2. *)
Definition left_chain : Matrix rat :=
  MatrixProduct [:: IdentityMatrix (Some 2); IdentityMatrix (Some 2)].

(** C3, at a chain as left operand: [left_chain @ I] is a chain of two
    factors whose first factor is the chain [left_chain] itself, so the
    result is nested and not the flat chain of three identities, which is
    what the unreached branch of [__rmatmul__] builds from the same
    operands. *)
Theorem matmul_left_chain_nested :
  let I2 := IdentityMatrix (Some 2) in
  [/\ matmul no_backend (OMatrix left_chain) (OMatrix I2) =
        Ok (OMatrix (MatrixProduct [:: left_chain; I2])),
      flat (MatrixProduct [:: left_chain; I2]) = false &
      __rmatmul__ no_backend I2 (OMatrix left_chain) =
        Ok (OMatrix (MatrixProduct [:: I2; I2; I2]))].
Proof. by split. Qed.

Lemma matmul_right_chain_flat_witness :
  exists2 P,
    matmul no_backend (OMatrix (IdentityMatrix (Some 2))) (OMatrix left_chain) =
      Ok (OMatrix P) &
    flat P /\ factors P = IdentityMatrix (Some 2) :: factors left_chain.
Proof.
exact: (@matmul_right_chain_flat rat no_backend (IdentityMatrix (Some 2))
          left_chain isT isT isT).
Defined.

(** C5 as amended: for matrix objects [M] and [N], [M @ N] raises the
    dimension error exactly when the column count of [M] is known and is
    not the row count of [N]; when the column count of [M] is [None] the
    test is skipped and the chain is returned. *)
Theorem matmul_dimension_check (F : realFieldType) (numeric : backend F)
    (M N : Matrix F) :
  matmul numeric (OMatrix M) (OMatrix N) =
  match (shape M).2 with
  | Some columns =>
      if (shape N).1 == Some columns
      then Ok (OMatrix (MatrixProduct (M :: factors N)))
      else Raise ValueError
  | None => Ok (OMatrix (MatrixProduct (M :: factors N)))
  end.
Proof.
rewrite /matmul __matmul__E /matmul_mismatch.
by case: (shape M).2 => [c|] //=; case: eqP.
Qed.

(** C5 as stated fails: an identity of unspecified size times an identity
    of size 3 has differing counts ([None] and [3]) and returns a chain. *)
Lemma matmul_unspecified_columns_unchecked :
  let M : Matrix rat := IdentityMatrix None in
  let N : Matrix rat := IdentityMatrix (Some 3) in
  (shape M).2 != (shape N).1 /\
  matmul no_backend (OMatrix M) (OMatrix N) =
    Ok (OMatrix (MatrixProduct [:: M; N])).
Proof. by split. Qed.

(** ** Identities of unspecified size *)

(** C4 as amended: on an [IdentityMatrix], a [ScaledIdentityMatrix] or a
    [PositiveScaledIdentityMatrix] constructed with [size=None], [array]
    raises; [log_abs_det] raises on the two scaled classes and returns zero
    on the identity. *)
Theorem unspecified_size_operations (F : realFieldType) (numeric : backend F)
    (scalar : F) (M : Matrix F) :
  [\/ M = IdentityMatrix None,
      ScaledIdentityMatrix_init scalar None = Ok M |
      PositiveScaledIdentityMatrix_init scalar None = Ok M] ->
  array numeric M = Raise RuntimeError /\
  log_abs_det numeric M =
    if is_IdentityMatrix M then Ok log_zero else Raise RuntimeError.
Proof.
rewrite /PositiveScaledIdentityMatrix_init /ScaledIdentityMatrix_init.
rewrite /ScaledIdentityMatrix_init_.
case=> [->||] //.
- by case: (scalar == 0) => //; case=> <-.
- by case: (scalar <= 0) => //; case: (scalar == 0) => //; case=> <-.
Qed.

Lemma unspecified_size_operations_witness :
  array no_backend (ScaledIdentityMatrix 2 None) = Raise RuntimeError /\
  log_abs_det no_backend (ScaledIdentityMatrix 2 None) =
    Raise RuntimeError.
Proof.
by apply: (@unspecified_size_operations rat no_backend 2); constructor 2.
Defined.

(** C4 as stated fails: [log_abs_det] of an identity of unspecified size
    returns. *)
Lemma identity_log_abs_det_unspecified_size :
  log_abs_det no_backend (IdentityMatrix None) = Ok log_zero.
Proof. by []. Qed.

(** ** Construction of the symmetric and positive-definite low-rank updates *)

(** C8 as amended: the constructor of [SymmetricLowRankUpdateMatrix] and of
    [PositiveDefiniteLowRankUpdateMatrix] fails when the base matrix, or the
    inner matrix, is not an object whose [T] is the object itself (with
    [ValueError] once [T] has returned); the right factor is no argument, a
    constructed object always holds the transpose of its left factor; the
    class says nothing of positive-definiteness (see
    [positive_definite_update_unchecked]). *)
Theorem symmetric_update_init_requirements (F : realFieldType)
    (numeric : backend F) (cls : structure_class)
    (factor S : Matrix F) (K cap : option (Matrix F)) (sign : F) :
  let init := SymmetricLowRankUpdateMatrix_init_ numeric cls factor S K cap sign in
  [/\ ~~ T_returns_self S ->
        raises init /\ (returns (T numeric S) -> init = Raise ValueError),
      forall K', K = Some K' -> T_returns_self S -> ~~ T_returns_self K' ->
        raises init /\ (returns (T numeric K') -> init = Raise ValueError) &
      forall M, init = Ok M ->
        exists ft K',
          [/\ K = Some K', T_returns_self S, T_returns_self K',
              T_object numeric factor = Ok ft &
              M = LowRankUpdateMatrix_ cls factor ft S K' cap sign]].
Proof.
split.
- exact: SymmetricLowRankUpdateMatrix_init_base.
- by move=> K' ->; exact: SymmetricLowRankUpdateMatrix_init_inner.
- exact: SymmetricLowRankUpdateMatrix_init_Ok.
Qed.

(** A factor of shape [(2, 1)]. *)
Definition column_factor : Matrix rat :=
  DenseRectangularMatrix (mk 2 1 (fun _ _ => 1)).

Lemma symmetric_update_init_requirements_witness :
  SymmetricLowRankUpdateMatrix_init_ no_backend Symmetric column_factor
    (OrthogonalMatrix (np_identity rat 2)) (Some (IdentityMatrix (Some 1)))
    None 1 = Raise ValueError.
Proof.
have [base _ _] :=
  @symmetric_update_init_requirements rat no_backend Symmetric column_factor
    (OrthogonalMatrix (np_identity rat 2)) (Some (IdentityMatrix (Some 1)))
    None 1.
by have [] := base isT.
Defined.

(** C8 as stated fails: a positive-definite low-rank update is constructed
    on the base [-I], which is symmetric and not positive-definite. *)
Lemma positive_definite_update_unchecked :
  let S : Matrix rat := ScaledIdentityMatrix (-1) (Some 2) in
  let K : Matrix rat := IdentityMatrix (Some 1) in
  [/\ ScaledIdentityMatrix_init (-1) (Some 2) = Ok S,
      is_PositiveDefiniteMatrix S = false &
      PositiveDefiniteLowRankUpdateMatrix_init no_backend column_factor S
        (Some K) None 1 =
      Ok (PositiveDefiniteLowRankUpdateMatrix column_factor
            (DenseRectangularMatrix (np_T (mk 2 1 (fun _ _ => 1)))) S K None 1)].
Proof. by split. Qed.



(** ** Transforms and object identity *)

(** C9 as amended: scalar multiplication, through [*], [/], unary [-] or
    [_scalar_multiply], returns a new object whenever it returns; [T]
    returns a new object except in the symmetric classes, where it returns
    the object itself; [inv] returns a new object except on an
    [IdentityMatrix], where it returns the object itself. *)
Theorem transforms_new_or_self (F : realFieldType) (numeric : backend F)
    (M : Matrix F) (scalar : F) (r : returned F) :
  [/\ [\/ _scalar_multiply numeric M scalar = Ok r,
          __mul__ numeric M scalar = Ok r,
          __truediv__ numeric M scalar = Ok r |
          __neg__ numeric M = Ok r] -> is_new r,
      T numeric M = Ok r -> is_self r = T_returns_self M &
      inv numeric M = Ok r -> is_self r = is_IdentityMatrix M].
Proof.
split; [|exact: T_self|exact: inv_self].
rewrite /__mul__ /__truediv__ /__neg__.
by case=> [|||]; do ?[case: ifP => // _]; exact: _scalar_multiply_new.
Qed.

Lemma transforms_new_or_self_witness :
  is_new (New (PositiveScaledIdentityMatrix (2 : rat) (Some 2))) /\
  is_self (@Self rat) = T_returns_self (@IdentityMatrix rat (Some 2)).
Proof.
split.
- have [new_ _ _] :=
    @transforms_new_or_self rat no_backend (IdentityMatrix (Some 2)) 2
      (New (PositiveScaledIdentityMatrix (2 : rat) (Some 2))).
  by apply: new_; constructor 2.
- have [_ self_ _] :=
    @transforms_new_or_self rat no_backend (IdentityMatrix (Some 2)) 2 Self.
  exact: self_.
Defined.

(** C9 as stated fails: [inv] of an identity and [T] of a diagonal matrix
    return the object they were invoked on. *)
Lemma inv_and_T_return_self :
  inv no_backend (IdentityMatrix (Some 2)) = Ok Self /\
  T no_backend (DiagonalMatrix [:: 1; 2]) = Ok Self.
Proof. by split. Qed.

(** ** Low-rank updates: inverse and log-determinant *)

(** C1, at the downdate [2 - 1*1*1] of dimension one: every hypothesis of
    the claim holds ([S], [K] and the capacitance matrix are invertible),
    the object returned by [inv] represents
    [S^-1 - sign * S^-1 L Cap^-1 R S^-1 = 2/3], and [M @ (M.inv @ x)] is
    [(2/3) x], not [x]: the represented matrix is [1] and its inverse
    is [1]. *)
Theorem inv_of_downdate_is_not_inverse (m : nat) (x : 'M[rat]_(1, m)) :
  let M := LowRankUpdate.downdate in
  [/\ LowRankUpdate._sign M = -1 /\
      LowRankUpdate._capacitance_matrix M = None,
      [/\ LowRankUpdate.square_matrix M \in unitmx,
          LowRankUpdate.inner_square_matrix M \in unitmx &
          LowRankUpdate.capacitance_matrix M \in unitmx],
      LowRankUpdate._construct_array M = 1%:M,
      LowRankUpdate._construct_array (LowRankUpdate.inv M) = (2 / 3)%:M &
      LowRankUpdate._left_matrix_multiply M
        (LowRankUpdate._left_matrix_multiply (LowRankUpdate.inv M) x) =
      (2 / 3) *: x /\ (2 / 3 != 1 :> rat)].
Proof.
split=> //.
- split; rewrite ?LowRankUpdate.capacitance_matrixE ?LowRankUpdate.downdate_Cap;
    by [exact: LowRankUpdate.scalar11_unit | move=> c].
- exact: LowRankUpdate.downdate_array.
- exact: LowRankUpdate.downdate_inv_array.
- split=> //; rewrite !LowRankUpdate._left_matrix_multiplyE.
  rewrite LowRankUpdate.downdate_array LowRankUpdate.downdate_inv_array.
  by rewrite mul1mx mul_scalar_mx.
Qed.

(** C2, at the same downdate: [log_abs_det] returns
    [log 2 + log 1 + log (3/2) = log 3], while the represented matrix is
    [1], of log-determinant [log 1]. *)
Theorem log_abs_det_of_downdate_is_wrong :
  let M := LowRankUpdate.downdate in
  [/\ LowRankUpdate.log_abs_det M =
        log_add (log_add (np_log 2) (np_log 1)) (np_log (3 / 2)),
      LowRankUpdate.log_abs_det M = np_log 3,
      LowRankUpdate.dense_log_abs_det (LowRankUpdate._construct_array M) =
        np_log 1 &
      3 != 1 :> rat].
Proof.
have E : LowRankUpdate.log_abs_det LowRankUpdate.downdate =
         log_add (log_add (np_log 2) (np_log 1)) (np_log (3 / 2)).
  rewrite /LowRankUpdate.log_abs_det /LowRankUpdate.dense_log_abs_det.
  rewrite LowRankUpdate.capacitance_matrixE ?LowRankUpdate.downdate_Cap //=.
  by rewrite !det_scalar1.
move=> M; rewrite {}/M; split=> //.
rewrite /LowRankUpdate.dense_log_abs_det LowRankUpdate.downdate_array.
by rewrite det_scalar1.
Qed.

(** ** Rescaling of a packed LU factorisation *)






(** ** The transpose of a transpose *)

(** C7: for a matrix object [M] of any class whose attributes are as the
    constructors validate and document them ([wf]), and whose dense square
    constituents hold or can be given an LU factorisation ([lu_ready]),
    [M.T] returns an object [M1] and [M1.T] returns an object [M2], which
    has the shape of [M] and the dense representation of [M], and which is
    [M] itself up to the factorisations that [DenseSquareMatrix.T] has
    memoised on the way: a triangular matrix gets back its array and its
    [lower] flag, a chain its factors in their order. *)
Theorem double_transpose_round_trip (F : realFieldType) (numeric : backend F)
    (M : Matrix F) :
  wf M -> lu_ready numeric M ->
  exists M1 M2,
    [/\ T_object numeric M = Ok M1, T_object numeric M1 = Ok M2,
        shape M2 = shape M, array numeric M2 = array numeric M &
        same M2 M].
Proof.
move=> wM lM.
have [M1 [M2 [EM1 _ _ EM2 sM]]] := T_round_trip_holds wM lM.
exists M1, M2; split=> //; first exact: same_shape.
exact: same_array.
Qed.

(** A chain of a lower-triangular matrix and a rectangular matrix. *)
Definition triangular_chain : Matrix rat :=
  MatrixProduct
    [:: TriangularMatrix (np_tril (mk 2 2 (fun _ _ => 1))) true;
        DenseRectangularMatrix (mk 2 3 (fun _ _ => 1))].

Lemma double_transpose_round_trip_witness :
  [/\ wf triangular_chain, lu_ready no_backend triangular_chain &
      exists M1 M2,
        [/\ T_object no_backend triangular_chain = Ok M1,
            T_object no_backend M1 = Ok M2,
            shape M2 = shape triangular_chain,
            array no_backend M2 = array no_backend triangular_chain &
            same M2 triangular_chain]].
Proof.
have wf_chain : wf triangular_chain.
  have tri := np_tril_is_triangular (mk 2 2 (fun _ _ => 1 : rat)).
  by apply/andP; split=> //; apply/andP; split=> //; apply/andP; split.
by split=> //; apply: double_transpose_round_trip.
Defined.

(** * Further properties of the matrix objects *)

(** ** Scalar multiples *)

(** X4: whenever [scalar * M], [M / scalar] or [-M] returns, the object it
    returns has the shape of [M], in every class. *)
Theorem scalar_multiple_keeps_shape (F : realFieldType) (numeric : backend F)
    (M M' : Matrix F) (scalar : F) :
  [\/ mul_object numeric M scalar = Ok M',
      div_object numeric M scalar = Ok M' |
      bind (__neg__ numeric M) (fun r => Ok (object M r)) = Ok M'] ->
  shape M' = shape M.
Proof.
rewrite /mul_object /div_object /__rmul__ /__mul__ /__truediv__ /__neg__.
by case; [case: eqP => // _ | case: eqP => // _ |];
   case E: (_scalar_multiply _ _ _) => [r|] //= [<-];
   exact: _scalar_multiply_shape E.
Qed.

(** A rectangular array of ones. *)
Definition ones (m n : nat) : ndarray rat := mk m n (fun _ _ => 1).

Lemma scalar_multiple_keeps_shape_witness :
  shape (DenseRectangularMatrix (np_scale 2 (ones 2 3))) =
  shape (DenseRectangularMatrix (ones 2 3)).
Proof.
apply: (@scalar_multiple_keeps_shape rat no_backend _ _ 2).
by constructor 1.
Defined.



(** ** Inverses *)

(** X6: whenever [M.inv] returns, the object it returns is of a square
    class, of a symmetric class when [M] is, and of a positive-definite
    class when [M] is. *)
Theorem inverse_keeps_class (F : realFieldType) (numeric : backend F)
    (M M' : Matrix F) :
  inv_object numeric M = Ok M' ->
  [/\ is_SquareMatrix M',
      is_SymmetricMatrix M -> is_SymmetricMatrix M' &
      is_PositiveDefiniteMatrix M -> is_PositiveDefiniteMatrix M'].
Proof. exact: inv_object_class. Qed.

Lemma inverse_keeps_class_witness :
  let M' : Matrix rat := PositiveDiagonalMatrix (vec_inv [:: 1; 2]) in
  [/\ is_SquareMatrix M',
      is_SymmetricMatrix (PositiveDiagonalMatrix [:: 1; 2 : rat]) ->
      is_SymmetricMatrix M' &
      is_PositiveDefiniteMatrix (PositiveDiagonalMatrix [:: 1; 2 : rat]) ->
      is_PositiveDefiniteMatrix M'].
Proof.
exact: (@inverse_keeps_class rat no_backend
          (PositiveDiagonalMatrix [:: 1; 2]) _ (erefl _)).
Defined.


(** Twice a rotation by a quarter turn. *)
Definition scaled_rotation : Matrix rat :=
  ScaledOrthogonalMatrix 2
    (mk 2 2 (fun i j => if i == j then 0 else if (i < j)%N then -1 else 1)).




(** ** Transposes *)

(** X9: for an object [M] with its attributes as the constructors validate
    and document them, whose dense square constituents hold or can be given
    an LU factorisation, [M.T] returns an object of the swapped shape. *)
Theorem transpose_swaps_shape (F : realFieldType) (numeric : backend F)
    (M : Matrix F) :
  wf M -> lu_ready numeric M ->
  exists2 M', T_object numeric M = Ok M' &
              shape M' = ((shape M).2, (shape M).1).
Proof. exact: T_object_shape. Qed.

Lemma transpose_swaps_shape_witness :
  exists2 M', T_object no_backend (DenseRectangularMatrix (ones 2 3)) = Ok M' &
              shape M' = (Some 3, Some 2).
Proof.
exact: (@transpose_swaps_shape rat no_backend
          (DenseRectangularMatrix (ones 2 3)) isT isT).
Defined.

(** X10: for two such objects [A] and [B], neither of them a chain, with
    the column count of [A] equal to the row count of [B], the transpose
    of [A @ B] is the chain [B.T @ A.T]. *)
Theorem transpose_of_product (F : realFieldType) (numeric : backend F)
    (A B : Matrix F) :
  wf A -> wf B -> lu_ready numeric A -> lu_ready numeric B ->
  ~~ is_MatrixProduct A -> ~~ is_MatrixProduct B ->
  (shape A).2 = (shape B).1 ->
  exists At Bt P,
    [/\ T_object numeric A = Ok At /\ T_object numeric B = Ok Bt,
        matmul numeric (OMatrix A) (OMatrix B) = Ok (OMatrix P),
        T_object numeric P = Ok (MatrixProduct [:: Bt; At]) &
        matmul numeric (OMatrix Bt) (OMatrix At) =
          Ok (OMatrix (MatrixProduct [:: Bt; At]))].
Proof. exact: T_of_product. Qed.

Lemma transpose_of_product_witness :
  let A : Matrix rat := DenseRectangularMatrix (ones 2 3) in
  let B : Matrix rat := DenseRectangularMatrix (ones 3 1) in
  exists At Bt P,
    [/\ T_object no_backend A = Ok At /\ T_object no_backend B = Ok Bt,
        matmul no_backend (OMatrix A) (OMatrix B) = Ok (OMatrix P),
        T_object no_backend P = Ok (MatrixProduct [:: Bt; At]) &
        matmul no_backend (OMatrix Bt) (OMatrix At) =
          Ok (OMatrix (MatrixProduct [:: Bt; At]))].
Proof.
exact: (@transpose_of_product rat no_backend
          (DenseRectangularMatrix (ones 2 3))
          (DenseRectangularMatrix (ones 3 1)) isT isT isT isT isT isT
          (erefl _)).
Defined.

(** ** Products and dense arrays *)

(** A chain of a rectangular matrix and a diagonal matrix. *)
Definition rectangular_chain : Matrix rat :=
  MatrixProduct
    [:: DenseRectangularMatrix (ones 2 3); DiagonalMatrix [:: 1; 2; 3]].

(** X11: for an object [M] of a class [dense] (the classes whose entries
    are read off their attributes, and the chains of two or more objects
    of these classes) with its attributes as the constructors validate and
    document them, and a two-dimensional array [x], [M @ x] is the product
    of the dense array of [M] with [x]: the same array when the dimensions
    agree and the same exception when they do not. *)
Theorem matmul_agrees_with_array (F : realFieldType) (numeric : backend F)
    (M : Matrix F) (x : ndarray F) :
  dense M -> wf M ->
  matmul numeric (OMatrix M) (OArray x) =
  bind (array numeric M)
    (fun a => bind (np_matmul a x) (fun r => Ok (OArray r))).
Proof. exact: dense_matmul. Qed.

Lemma matmul_agrees_with_array_witness :
  matmul no_backend (OMatrix rectangular_chain) (OArray (ones 3 1)) =
  bind (array no_backend rectangular_chain)
    (fun a => bind (np_matmul a (ones 3 1)) (fun r => Ok (OArray r))).
Proof.
exact: (@matmul_agrees_with_array rat no_backend rectangular_chain
          (ones 3 1) isT isT).
Defined.

(** X12: under the same hypotheses [x @ M] is the product of [x] with the
    dense array of [M]. *)
Theorem rmatmul_agrees_with_array (F : realFieldType) (numeric : backend F)
    (M : Matrix F) (x : ndarray F) :
  dense M -> wf M ->
  matmul numeric (OArray x) (OMatrix M) =
  bind (array numeric M)
    (fun a => bind (np_matmul x a) (fun r => Ok (OArray r))).
Proof. exact: dense_rmatmul. Qed.

Lemma rmatmul_agrees_with_array_witness :
  matmul no_backend (OArray (ones 1 2)) (OMatrix rectangular_chain) =
  bind (array no_backend rectangular_chain)
    (fun a => bind (np_matmul (ones 1 2) a) (fun r => Ok (OArray r))).
Proof.
exact: (@rmatmul_agrees_with_array rat no_backend rectangular_chain
          (ones 1 2) isT isT).
Defined.

(** X13: under the same hypotheses, when [scalar * M] returns an object,
    the dense array of this object is [scalar] times the dense array of
    [M]. *)
Theorem array_of_scalar_multiple (F : realFieldType) (numeric : backend F)
    (M M' : Matrix F) (scalar : F) :
  dense M -> wf M -> mul_object numeric M scalar = Ok M' ->
  array numeric M' =
  bind (array numeric M) (fun a => Ok (np_scale scalar a)).
Proof. exact: dense_scale. Qed.

Lemma array_of_scalar_multiple_witness :
  array no_backend
    (MatrixProduct
       [:: ScaledIdentityMatrix (2 : rat) (Some 2);
           DenseRectangularMatrix (ones 2 3); DiagonalMatrix [:: 1; 2; 3]]) =
  bind (array no_backend rectangular_chain) (fun a => Ok (np_scale 2 a)).
Proof.
exact: (@array_of_scalar_multiple rat no_backend rectangular_chain _ 2
          isT isT (erefl _)).
Defined.

(** X14: under the same hypotheses, when the arrays held by the dense
    classes that are their own transposes are symmetric and the dense
    square factors hold or can be given an LU factorisation, [M.T] returns
    an object whose dense array is the transpose of the dense array of
    [M]. *)
Theorem array_of_transpose (F : realFieldType) (numeric : backend F)
    (M : Matrix F) :
  dense M -> wf M -> lu_ready numeric M -> symmetric_arrays M ->
  exists2 M', T_object numeric M = Ok M' &
              array numeric M' =
              bind (array numeric M) (fun a => Ok (np_T a)).
Proof.
move=> dM wM lM sM; have [M' EM' _] := T_object_shape wM lM.
by exists M' => //; exact: dense_T EM'.
Qed.

Lemma array_of_transpose_witness :
  exists2 M', T_object no_backend rectangular_chain = Ok M' &
              array no_backend M' =
              bind (array no_backend rectangular_chain)
                (fun a => Ok (np_T a)).
Proof.
exact: (@array_of_transpose rat no_backend rectangular_chain isT isT isT
          (conj I (conj I I))).
Defined.

(** X15: a chain of a single factor multiplies an array as its factor
    does, and asking for its dense array raises [IndexError] once the
    dense array of the factor has been computed. *)
Theorem single_factor_chain (F : realFieldType) (numeric : backend F)
    (A : Matrix F) (x : ndarray F) :
  matmul numeric (OMatrix (MatrixProduct [:: A])) (OArray x) =
    matmul numeric (OMatrix A) (OArray x) /\
  array numeric (MatrixProduct [:: A]) =
    bind (array numeric A) (fun _ => Raise IndexError).
Proof.
split; last by rewrite /=; case: (array numeric A).
rewrite /matmul /__matmul__ /_left_matrix_multiply /matmul_mismatch /=.
have -> : maxn (height A) 1 = height A.
  by apply/maxn_idPl; exact: height_gt0.
by case: ifP => // H; rewrite /matmul_mismatch H.
Qed.

(** X16: for an identity, scaled identity, diagonal, orthogonal or scaled
    orthogonal matrix [M] with non-zero scalars and diagonal entries, and
    with an orthogonal array in the orthogonal classes, [M.inv] returns an
    object that undoes the multiplication by [M]: whenever [M @ x] returns
    an array [y], [M.inv @ y] returns [x]. *)
Theorem inverse_undoes_matmul (F : realFieldType) (numeric : backend F)
    (M : Matrix F) (x y : ndarray F) :
  explicit_inverse M -> wf M -> elementary M -> orthogonal_data M ->
  matmul numeric (OMatrix M) (OArray x) = Ok (OArray y) ->
  exists2 M1, inv_object numeric M = Ok M1 &
              matmul numeric (OMatrix M1) (OArray y) = Ok (OArray x).
Proof. exact: inv_matmul_cancels. Qed.

Lemma inverse_undoes_matmul_witness :
  let d : vector rat := [:: 1; 2; 3] in
  let y := mk 3 1 (fun i j => nth 0 d i * get (ones 3 1) i j) in
  exists2 M1, inv_object no_backend (DiagonalMatrix d) = Ok M1 &
              matmul no_backend (OMatrix M1) (OArray y) =
              Ok (OArray (ones 3 1)).
Proof.
exact: (@inverse_undoes_matmul rat no_backend (DiagonalMatrix [:: 1; 2; 3])
          (ones 3 1) _ isT isT isT I (erefl _)).
Defined.

(** ** Log-determinants *)

(** A block-diagonal matrix of a scaled rotation and a diagonal matrix. *)
Definition rotation_and_diagonal : Matrix rat :=
  SquareBlockDiagonalMatrix [:: scaled_rotation; DiagonalMatrix [:: 1; 2]].

(** X17: for a constructed object [M] whose square low-rank updates hold
    their capacitance matrix and whose dense square constituents hold or
    can be given an LU factorisation, [M.T] returns an object with the
    [log_abs_det] of [M]: the same value, or the same exception. *)
Theorem log_abs_det_of_transpose (F : realFieldType) (numeric : backend F)
    (M : Matrix F) :
  wf M -> lu_ready numeric M -> capacitance_held M ->
  exists2 M', T_object numeric M = Ok M' &
              log_abs_det numeric M' = log_abs_det numeric M.
Proof.
move=> wM lM cM; have [M' EM' _] := T_object_shape wM lM.
by exists M' => //; exact: log_abs_det_T_holds EM'.
Qed.

Lemma log_abs_det_of_transpose_witness :
  exists2 M', T_object no_backend rotation_and_diagonal = Ok M' &
              log_abs_det no_backend M' =
              log_abs_det no_backend rotation_and_diagonal.
Proof.
exact: (@log_abs_det_of_transpose rat no_backend rotation_and_diagonal
          isT isT isT).
Defined.



(** ** The shape of a product *)

(** X19: whenever [A @ B] returns for two matrix objects, [B] being as its
    constructor leaves it, the result is a matrix object with the row count
    of [A] and the column count of [B]. *)
Theorem product_shape (F : realFieldType) (numeric : backend F)
    (A B : Matrix F) (r : operand F) :
  wf B -> matmul numeric (OMatrix A) (OMatrix B) = Ok r ->
  exists2 P, r = OMatrix P & shape P = ((shape A).1, (shape B).2).
Proof. exact: matmul_shape. Qed.

Lemma product_shape_witness :
  let A : Matrix rat := DenseRectangularMatrix (ones 4 2) in
  exists2 P,
    OMatrix (MatrixProduct (A :: factors rectangular_chain)) = OMatrix P &
    shape P = (Some 4, Some 3).
Proof.
exact: (@product_shape rat no_backend (DenseRectangularMatrix (ones 4 2))
          rectangular_chain _ isT (erefl _)).
Defined.
